(** * A growable array on raw storage: [RawMemory<T>] and [Vector<T>]

    Shallow embedding of [src/vector.h] and proofs about it.

    The embedding keeps what the C++ code manipulates:
    - [size_t] values are integers in [Z]; every arithmetic operation the
      source performs on them is written with its 64-bit wrap-around;
    - the storage behind a [RawMemory] is a list of slots, each slot either
      raw ([None]) or holding a live object ([Some x]); a block obtained
      from [operator new] has as many slots as objects of [T] fit in the
      bytes requested;
    - constructors and assignments of [T] may throw; [operator new] may fail.
      Both are driven by schedules indexed by the number of calls made so
      far, so that "the N-th constructor call throws" is expressible;
    - every operation reports how it ended: it returned, it threw (and left
      the objects it works on in some state), or it ran into undefined
      behaviour (out-of-range access, reading or destroying a raw slot). *)

From Stdlib Require Import ZArith List Bool Lia.
Import ListNotations.
Local Open Scope Z_scope.

(** ** Machine integers *)

(** [size_t] arithmetic is modulo [2^64]. *)
Definition wrap (z : Z) : Z := z mod 2 ^ 64.

(** [PTRDIFF_MAX]: no object has more bytes, and an [operator new]
    request beyond that is never satisfied. *)
Definition max_size : Z := 2 ^ 63 - 1.

(** ** The world outside the container *)

(** [live]: objects of type [T] constructed and not yet destroyed;
    [ops]: constructor and assignment calls of [T] made so far;
    [news]: calls of [operator new] made so far. *)
Record World : Type := mkWorld { live : Z; ops : nat; news : nat }.

Definition tick (w : World) : World := mkWorld (live w) (S (ops w)) (news w).
Definition created (w : World) : World := mkWorld (live w + 1) (ops w) (news w).
Definition destroyed (n : Z) (w : World) : World := mkWorld (live w - n) (ops w) (news w).
Definition requested (w : World) : World := mkWorld (live w) (ops w) (S (news w)).

(** The special member functions of [T] the container calls. *)
Inductive special : Type :=
| DefaultCtor | ArgsCtor | CopyCtor | MoveCtor | CopyAssign | MoveAssign.

(** How a call ends.  [Normal a w]: it returned [a].  [Raised e w]: an
    exception left it, [e] being the state of the objects the call works
    on once unwinding is over.  [Undefined]: undefined behaviour. *)
Inductive res (A E : Type) : Type :=
| Normal (a : A) (w : World)
| Raised (e : E) (w : World)
| Undefined.
Arguments Normal {A E} a w.
Arguments Raised {A E} e w.
Arguments Undefined {A E}.

Notation "'attempt' a 'in' w1 <- m 'rescue' e 'in' w2 => h ; k" :=
  (match m with
   | Normal a w1 => k
   | Raised e w2 => h
   | Undefined => Undefined
   end)
  (at level 10, a pattern, w1 name, e pattern, w2 name, m at level 100,
   h at level 100, k at level 200).

Notation "'within' x <- o ; k" :=
  (match o with
   | Some x => k
   | None => Undefined
   end)
  (at level 10, x pattern, o at level 100, k at level 200).

(** ** Ranges of slots *)

(** The [n] slots starting at offset [from]; [None] when the range leaves
    the storage. *)
Definition slice {A : Type} (from n : Z) (l : list A) : option (list A) :=
  if (0 <=? from) && (0 <=? n) && (from + n <=? Z.of_nat (length l))
  then Some (firstn (Z.to_nat n) (skipn (Z.to_nat from) l))
  else None.

(** Overwrite the slots starting at offset [from] with [new]. *)
Definition splice {A : Type} (from : Z) (new l : list A) : option (list A) :=
  if (0 <=? from) && (from + Z.of_nat (length new) <=? Z.of_nat (length l))
  then Some (firstn (Z.to_nat from) l ++ new
             ++ skipn (Z.to_nat from + length new) l)
  else None.

Definition is_live {A : Type} (s : option A) : bool :=
  match s with Some _ => true | None => false end.

(** ** The element type and its environment *)

(** The element type [T] as the container sees it: the value of a
    value-initialised object, what a moved-from object holds, and the two
    traits [CopyOrMoveToNewBuffer] tests
    ([std::is_nothrow_move_constructible_v], [std::is_copy_constructible_v]),
    and [sizeof(T)], a positive [size_t] value, which [Allocate]
    multiplies the number of slots by.
    Copies hold the value of their source; a moved-to object holds the
    value its source had. *)
Class ElementType : Type := {
  T : Type;
  value_init : T;
  moved_from : T -> T;
  nothrow_move_constructible : bool;
  copy_constructible : bool;
  sizeof_T : Z;
  sizeof_range : 0 < sizeof_T < 2 ^ 64
}.

(** [throws k n]: the call number [n] (counted over all special member
    calls of [T]) throws if it is a call of [k].
    [new_succeeds n c]: the [operator new] call number [n], asking for [c]
    bytes, is satisfied. *)
Class Schedule : Type := {
  throws : special -> nat -> bool;
  new_succeeds : nat -> Z -> bool
}.

Section VectorModel.

Context {Elem : ElementType} {Sched : Schedule}.

(** A move constructor declared [noexcept] does not throw. *)
Definition fails (k : special) (n : nat) : bool :=
  match k with
  | MoveCtor => negb nothrow_move_constructible && throws MoveCtor n
  | _ => throws k n
  end.

(** Construction of an object holding [x] by the constructor [k]. *)
Definition construct (k : special) (x : T) (w : World) : res T unit :=
  if fails k (ops w) then Raised tt (tick w)
  else Normal x (created (tick w)).

(** An assignment; the caller records the value stored. *)
Definition assign (k : special) (w : World) : res unit unit :=
  if fails k (ops w) then Raised tt (tick w) else Normal tt (tick w).

(** *** The standard algorithms the container uses *)

(** [std::destroy_n]: every slot of the range must hold a live object
    (destroying a raw slot is undefined); destructors do not throw. *)
Definition destroy_n (s : list (option T)) (w : World)
  : option (list (option T) * World) :=
  if forallb is_live s
  then Some (repeat None (length s), destroyed (Z.of_nat (length s)) w)
  else None.

(** [std::uninitialized_value_construct_n]: [done] objects are already
    built; when a constructor throws they are destroyed. *)
Fixpoint uninitialized_value_construct_n (n : nat) (done : Z) (w : World)
  : res (list T) unit :=
  match n with
  | O => Normal [] w
  | S n' =>
      attempt x in w1 <- construct DefaultCtor value_init w
      rescue _ in w1 => Raised tt (destroyed done w1);
      attempt xs in w2 <- uninitialized_value_construct_n n' (done + 1) w1
      rescue _ in w2 => Raised tt w2;
      Normal (x :: xs) w2
  end.

(** [std::uninitialized_copy_n] from the slots [src]. *)
Fixpoint uninitialized_copy_n (src : list (option T)) (done : Z) (w : World)
  : res (list T) unit :=
  match src with
  | [] => Normal [] w
  | None :: _ => Undefined
  | Some x :: rest =>
      attempt y in w1 <- construct CopyCtor x w
      rescue _ in w1 => Raised tt (destroyed done w1);
      attempt ys in w2 <- uninitialized_copy_n rest (done + 1) w1
      rescue _ in w2 => Raised tt w2;
      Normal (y :: ys) w2
  end.

(** [std::uninitialized_move_n] from the slots [src]: returns the source
    slots as the moves left them and the values built.  A move
    constructor that throws leaves its argument as it was. *)
Fixpoint uninitialized_move_n (src : list (option T)) (done : Z) (w : World)
  : res (list (option T) * list T) (list (option T)) :=
  match src with
  | [] => Normal ([], []) w
  | None :: _ => Undefined
  | Some x :: rest =>
      attempt y in w1 <- construct MoveCtor x w
      rescue _ in w1 => Raised src (destroyed done w1);
      attempt (src', ys) in w2 <- uninitialized_move_n rest (done + 1) w1
      rescue src' in w2 => Raised (Some (moved_from x) :: src') w2;
      Normal (Some (moved_from x) :: src', y :: ys) w2
  end.

(** [std::copy_n]: copy assignment of [src] over [dst], slot by slot;
    returns the destination slots. *)
Fixpoint copy_n (src dst : list (option T)) (w : World)
  : res (list (option T)) (list (option T)) :=
  match src, dst with
  | [], _ => Normal dst w
  | Some x :: src', Some _ :: dst' =>
      attempt tt in w1 <- assign CopyAssign w
      rescue _ in w1 => Raised dst w1;
      attempt d in w2 <- copy_n src' dst' w1
      rescue d in w2 => Raised (Some x :: d) w2;
      Normal (Some x :: d) w2
  | _, _ => Undefined
  end.

(** A chain of move assignments [a0 = move(a1); a1 = move(a2); ...] over
    the slots [d :: rest]: what both [std::move] onto the preceding slot
    and [std::move_backward] onto the following slot do. *)
Fixpoint move_chain (d : option T) (rest : list (option T)) (w : World)
  : res (list (option T)) (list (option T)) :=
  match rest with
  | [] => Normal [d] w
  | s :: rest' =>
      match d, s with
      | Some _, Some x =>
          attempt tt in w1 <- assign MoveAssign w
          rescue _ in w1 => Raised (d :: rest) w1;
          attempt l in w2 <- move_chain (Some (moved_from x)) rest' w1
          rescue l in w2 => Raised (Some x :: l) w2;
          Normal (Some x :: l) w2
      | _, _ => Undefined
      end
  end.

(** [std::move(first + 1, last, first)] on the slots [first, last). *)
Definition move_left (rng : list (option T)) (w : World)
  : res (list (option T)) (list (option T)) :=
  match rng with
  | [] => Undefined
  | d :: rest => move_chain d rest w
  end.

(** [std::move_backward(first, last - 1, last)] on the slots
    [first, last): the same chain, walked from the last slot down. *)
Definition move_backward (rng : list (option T)) (w : World)
  : res (list (option T)) (list (option T)) :=
  match rev rng with
  | [] => Undefined
  | d :: rest =>
      attempt l in w1 <- move_chain d rest w
      rescue l in w1 => Raised (rev l) w1;
      Normal (rev l) w1
  end.

(** *** [RawMemory<T>] *)

(** [buffer_] is the storage the pointer refers to, one entry per slot
    (the null pointer has none); [capacity_] is the field of the class. *)
Record RawMemory : Type := mkRaw { buffer_ : list (option T); capacity_ : Z }.

(** [RawMemory()] *)
Definition RawMemory_default : RawMemory := mkRaw [] 0.

(** [Allocate(n)]: no request for [n = 0]; otherwise
    [operator new(n * sizeof(T))].  The byte count is a [size_t] product
    and wraps around; nothing checks it.  [operator new] either throws
    [std::bad_alloc] or hands out a block of that many bytes, which has
    room for [bytes / sizeof(T)] objects: [n] of them when the product
    did not wrap, fewer when it did.  A request for more than [max_size]
    bytes is never satisfied. *)
Definition Allocate (n : Z) (w : World) : res (list (option T)) unit :=
  if n =? 0 then Normal [] w
  else
    let bytes := wrap (n * sizeof_T) in
    if (bytes <=? max_size) && new_succeeds (news w) bytes
    then Normal (repeat None (Z.to_nat (bytes / sizeof_T))) (requested w)
    else Raised tt (requested w).

(** [RawMemory(capacity)] *)
Definition RawMemory_sized (capacity : Z) (w : World) : res RawMemory unit :=
  attempt b in w1 <- Allocate capacity w
  rescue _ in w1 => Raised tt w1;
  Normal (mkRaw b capacity) w1.

(** [RawMemory(RawMemory&& other)]: the new object and what is left of
    [other]. *)
Definition RawMemory_move (other : RawMemory) : RawMemory * RawMemory :=
  (mkRaw (buffer_ other) (capacity_ other), mkRaw [] 0).

(** [operator=(RawMemory&& rhs)] between two distinct objects:
    [Deallocate(buffer_)] releases the storage of [this] as it is, then
    the fields of [rhs] are taken over. *)
Definition RawMemory_move_assign (this rhs : RawMemory)
  : RawMemory * RawMemory :=
  (mkRaw (buffer_ rhs) (capacity_ rhs), mkRaw [] 0).

(** [RawMemory::Swap] *)
Definition RawMemory_Swap (this other : RawMemory) : RawMemory * RawMemory :=
  (mkRaw (buffer_ other) (capacity_ other),
   mkRaw (buffer_ this) (capacity_ this)).

(** Reading and writing a range of slots of the storage. *)
Definition load (from n : Z) (d : RawMemory) : option (list (option T)) :=
  slice from n (buffer_ d).

Definition store (from : Z) (new : list (option T)) (d : RawMemory)
  : option RawMemory :=
  match splice from new (buffer_ d) with
  | Some b => Some (mkRaw b (capacity_ d))
  | None => None
  end.

(** *** [Vector<T>] *)

Record Vector : Type := mkVector { data_ : RawMemory; size_ : Z }.

(** The other vector of a binary operation: the very object the
    operation is called on, or a distinct one. *)
Inductive operand : Type :=
| Self
| Other (rhs : Vector).

Definition Size (v : Vector) : Z := size_ v.
Definition Capacity (v : Vector) : Z := capacity_ (data_ v).

(** Iterators are offsets from [begin()]. *)
Definition begin (v : Vector) : Z := 0.
Definition end_ (v : Vector) : Z := size_ v.

(** [operator[]]: the element at [index], which must be live. *)
Definition at_index (v : Vector) (index : Z) : option T :=
  match load index 1 (data_ v) with
  | Some [Some x] => Some x
  | _ => None
  end.

(** [Vector()] *)
Definition Vector_default : Vector := mkVector RawMemory_default 0.

(** [Vector(size_t size)] *)
Definition Vector_sized (size : Z) (w : World) : res Vector unit :=
  attempt data in w1 <- RawMemory_sized size w
  rescue _ in w1 => Raised tt w1;
  attempt xs in w2 <- uninitialized_value_construct_n (Z.to_nat size) 0 w1
  rescue _ in w2 => Raised tt w2;
  within data1 <- store 0 (map Some xs) data;
  Normal (mkVector data1 size) w2.

(** [Vector(const Vector& other)] *)
Definition Vector_copy (other : Vector) (w : World) : res Vector unit :=
  attempt data in w1 <- RawMemory_sized (size_ other) w
  rescue _ in w1 => Raised tt w1;
  within src <- load 0 (size_ other) (data_ other);
  attempt ys in w2 <- uninitialized_copy_n src 0 w1
  rescue _ in w2 => Raised tt w2;
  within data1 <- store 0 (map Some ys) data;
  Normal (mkVector data1 (size_ other)) w2.

(** [Vector(Vector&& other)]: the new vector and what is left of
    [other]. *)
Definition Vector_move (other : Vector) : Vector * Vector :=
  let (d, od) := RawMemory_move (data_ other) in
  (mkVector d (size_ other), mkVector od 0).

(** [~Vector()] *)
Definition Vector_destroy (v : Vector) (w : World) : option World :=
  match load 0 (size_ v) (data_ v) with
  | Some s =>
      match destroy_n s w with
      | Some (_, w1) => Some w1
      | None => None
      end
  | None => None
  end.

(** [Swap] of two distinct vectors. *)
Definition Swap (this other : Vector) : Vector * Vector :=
  let (d, od) := RawMemory_Swap (data_ this) (data_ other) in
  (mkVector d (size_ other), mkVector od (size_ this)).

(** [Vector::Swap(Vector& other)] *)
Definition Vector_Swap (this : Vector) (other : operand) : Vector * operand :=
  match other with
  | Self => (this, Self)
  | Other o => let (t', o') := Swap this o in (t', Other o')
  end.

(** [operator=(const Vector& rhs)] *)
Definition Vector_copy_assign (this : Vector) (rhs : operand) (w : World)
  : res Vector Vector :=
  match rhs with
  | Self => Normal this w
  | Other r =>
      if size_ r >? Capacity this then
        attempt rhs_copy in w1 <- Vector_copy r w
        rescue _ in w1 => Raised this w1;
        let (this1, rhs_copy1) := Swap this rhs_copy in
        within w2 <- Vector_destroy rhs_copy1 w1;
        Normal this1 w2
      else
        let n := Z.min (size_ this) (size_ r) in
        within src <- load 0 n (data_ r);
        within dst <- load 0 n (data_ this);
        attempt dst1 in w1 <- copy_n src dst w
        rescue dst1 in w1 =>
          (within d1 <- store 0 dst1 (data_ this);
           Raised (mkVector d1 (size_ this)) w1);
        within d1 <- store 0 dst1 (data_ this);
        if size_ r <? size_ this then
          within surplus <- load (size_ r) (wrap (size_ this - size_ r)) d1;
          within (raw, w2) <- destroy_n surplus w1;
          within d2 <- store (size_ r) raw d1;
          Normal (mkVector d2 (size_ r)) w2
        else
          within extra <- load (size_ this) (wrap (size_ r - size_ this))
                               (data_ r);
          attempt ys in w2 <- uninitialized_copy_n extra 0 w1
          rescue _ in w2 => Raised (mkVector d1 (size_ this)) w2;
          within d2 <- store (size_ this) (map Some ys) d1;
          Normal (mkVector d2 (size_ r)) w2
  end.

(** [operator=(Vector&& rhs)]: the vector and what is left of [rhs].
    Assigning a vector to itself releases its storage and leaves it
    pointing there, which the embedding does not represent. *)
Definition Vector_move_assign (this : Vector) (rhs : operand) (w : World)
  : res (Vector * Vector) unit :=
  match rhs with
  | Self => Undefined
  | Other r =>
      let (d, rd) := RawMemory_move_assign (data_ this) (data_ r) in
      Normal (mkVector d (size_ r), mkVector rd 0) w
  end.

(** [CopyOrMoveToNewBuffer(from, to, number)]: the source slots as they
    are left and the values built in the new storage. *)
Definition CopyOrMoveToNewBuffer (from : list (option T)) (w : World)
  : res (list (option T) * list T) (list (option T)) :=
  if nothrow_move_constructible || negb copy_constructible
  then uninitialized_move_n from 0 w
  else
    attempt ys in w1 <- uninitialized_copy_n from 0 w
    rescue _ in w1 => Raised from w1;
    Normal (from, ys) w1.

(** [CalcNewCapacity()] *)
Definition CalcNewCapacity (v : Vector) : Z :=
  if size_ v =? 0 then 1 else wrap (size_ v * 2).

(** [Reserve(size_t capacity)] *)
Definition Reserve (capacity : Z) (v : Vector) (w : World)
  : res Vector Vector :=
  if capacity <=? Capacity v then Normal v w
  else
    attempt new_data in w1 <- RawMemory_sized capacity w
    rescue _ in w1 => Raised v w1;
    within src <- load 0 (size_ v) (data_ v);
    attempt (src1, ys) in w2 <- CopyOrMoveToNewBuffer src w1
    rescue src1 in w2 =>
      (within d1 <- store 0 src1 (data_ v);
       Raised (mkVector d1 (size_ v)) w2);
    within new_data1 <- store 0 (map Some ys) new_data;
    within (_, w3) <- destroy_n src1 w2;
    Normal (mkVector new_data1 (size_ v)) w3.

(** [Resize(size_t new_size)] *)
Definition Resize (new_size : Z) (v : Vector) (w : World)
  : res Vector Vector :=
  if new_size <? size_ v then
    within surplus <- load new_size (wrap (size_ v - new_size)) (data_ v);
    within (raw, w1) <- destroy_n surplus w;
    within d1 <- store new_size raw (data_ v);
    Normal (mkVector d1 new_size) w1
  else
    attempt v1 in w1 <- Reserve new_size v w
    rescue v1 in w1 => Raised v1 w1;
    attempt xs in w2 <-
      uninitialized_value_construct_n
        (Z.to_nat (wrap (new_size - size_ v1))) 0 w1
    rescue _ in w2 => Raised v1 w2;
    within d1 <- store (size_ v1) (map Some xs) (data_ v1);
    Normal (mkVector d1 new_size) w2.

(** [PopBack()] *)
Definition PopBack (v : Vector) (w : World) : res Vector Vector :=
  within last <- load (wrap (size_ v - 1)) 1 (data_ v);
  within (raw, w1) <- destroy_n last w;
  within d1 <- store (wrap (size_ v - 1)) raw (data_ v);
  Normal (mkVector d1 (wrap (size_ v - 1))) w1.

(** [ReallocateMemoryAddingNewElement(index, args...)]: [k] is the
    constructor the arguments select and [x] the value it builds.
    Returns the vector and the offset of the new element. *)
Definition ReallocateMemoryAddingNewElement
  (index : Z) (k : special) (x : T) (v : Vector) (w : World)
  : res (Vector * Z) Vector :=
  attempt new_data in w1 <- RawMemory_sized (CalcNewCapacity v) w
  rescue _ in w1 => Raised v w1;
  within _ <- load index 1 new_data;
  attempt y in w2 <- construct k x w1
  rescue _ in w2 => Raised v w2;
  within new_data1 <- store index [Some y] new_data;
  within lead <- load 0 index (data_ v);
  attempt (lead1, ys) in w3 <- CopyOrMoveToNewBuffer lead w2
  rescue lead1 in w3 =>
    (within d1 <- store 0 lead1 (data_ v);
     Raised (mkVector d1 (size_ v)) (destroyed 1 w3));
  within new_data2 <- store 0 (map Some ys) new_data1;
  within (raw, w4) <- destroy_n lead1 w3;
  within d1 <- store 0 raw (data_ v);
  if index <? size_ v then
    within trail <- load index (wrap (size_ v - index)) d1;
    attempt (trail1, zs) in w5 <- CopyOrMoveToNewBuffer trail w4
    rescue trail1 in w5 =>
      (within built <- load 0 (wrap (index + 1)) new_data2;
       within (_, w6) <- destroy_n built w5;
       within d2 <- store index trail1 d1;
       Raised (mkVector d2 (size_ v)) w6);
    within new_data3 <- store (index + 1) (map Some zs) new_data2;
    within (_, w6) <- destroy_n trail1 w5;
    Normal (mkVector new_data3 (wrap (size_ v + 1)), index) w6
  else
    Normal (mkVector new_data2 (wrap (size_ v + 1)), index) w4.

(** [EmplaceBack(args...)]; the reference returned is the offset of the
    new element. *)
Definition EmplaceBack (k : special) (x : T) (v : Vector) (w : World)
  : res (Vector * Z) Vector :=
  if size_ v =? Capacity v
  then ReallocateMemoryAddingNewElement (size_ v) k x v w
  else
    within _ <- load (size_ v) 1 (data_ v);
    attempt y in w1 <- construct k x w
    rescue _ in w1 => Raised v w1;
    within d1 <- store (size_ v) [Some y] (data_ v);
    Normal (mkVector d1 (wrap (size_ v + 1)), size_ v) w1.

(** [PushBack(const T&)] and [PushBack(T&&)] *)
Definition PushBack (by_move : bool) (value : T) (v : Vector) (w : World)
  : res Vector Vector :=
  attempt (v1, _) in w1 <-
    EmplaceBack (if by_move then MoveCtor else CopyCtor) value v w
  rescue v1 in w1 => Raised v1 w1;
  Normal v1 w1.

(** [Emplace(pos, args...)] with [index = pos - begin()]. *)
Definition Emplace (index : Z) (k : special) (x : T) (v : Vector) (w : World)
  : res (Vector * Z) Vector :=
  if index =? size_ v then EmplaceBack k x v w
  else if size_ v =? Capacity v
  then ReallocateMemoryAddingNewElement index k x v w
  else
    attempt temp_value in w1 <- construct k x w
    rescue _ in w1 => Raised v w1;
    within back <- at_index v (wrap (size_ v - 1));
    within _ <- load (size_ v) 1 (data_ v);
    attempt y in w2 <- construct MoveCtor back w1
    rescue _ in w2 => Raised v (destroyed 1 w2);
    within d1 <- store (wrap (size_ v - 1))
                       [Some (moved_from back); Some y] (data_ v);
    within rng <- load index (wrap (size_ v - index)) d1;
    attempt rng1 in w3 <- move_backward rng w2
    rescue rng1 in w3 =>
      (within d2 <- store index rng1 d1;
       Raised (mkVector d2 (size_ v)) (destroyed 1 w3));
    within d2 <- store index rng1 d1;
    within _ <- at_index (mkVector d2 (size_ v)) index;
    attempt _ in w4 <- assign MoveAssign w3
    rescue _ in w4 => Raised (mkVector d2 (size_ v)) (destroyed 1 w4);
    within d3 <- store index [Some temp_value] d2;
    Normal (mkVector d3 (wrap (size_ v + 1)), index) (destroyed 1 w4).

(** [Insert(pos, const T&)] and [Insert(pos, T&&)] *)
Definition Insert (index : Z) (by_move : bool) (value : T)
  (v : Vector) (w : World) : res (Vector * Z) Vector :=
  Emplace index (if by_move then MoveCtor else CopyCtor) value v w.

(** [Erase(pos)] with [index = pos - begin()]; returns the vector and
    the iterator [begin() + index]. *)
Definition Erase (index : Z) (v : Vector) (w : World)
  : res (Vector * Z) Vector :=
  within rng <- load index (wrap (size_ v - index)) (data_ v);
  attempt rng1 in w1 <- move_left rng w
  rescue rng1 in w1 =>
    (within d1 <- store index rng1 (data_ v);
     Raised (mkVector d1 (size_ v)) w1);
  within d1 <- store index rng1 (data_ v);
  within last <- load (wrap (size_ v - 1)) 1 d1;
  within (raw, w2) <- destroy_n last w1;
  within d2 <- store (wrap (size_ v - 1)) raw d1;
  Normal (mkVector d2 (wrap (size_ v - 1)), index) w2.

End VectorModel.

(** ** Abstraction: the sequence a vector holds *)

Section Abstraction.

Context {Elem : ElementType}.

(** Storage of [cap] slots whose first slots hold [xs], the rest raw. *)
Definition holding (xs : list T) (cap : Z) : list (option T) :=
  map Some xs ++ repeat None (Z.to_nat (cap - Z.of_nat (length xs))).

(** The vector of capacity [cap] holding the sequence [xs]. *)
Definition vec (xs : list T) (cap : Z) : Vector :=
  mkVector (mkRaw (holding xs cap) cap) (Z.of_nat (length xs)).

(** The largest number of objects of [T] a block can hold, a block
    having at most [max_size] bytes. *)
Definition max_slots : Z := max_size / sizeof_T.

(** [Abs v xs]: [v] is a well-formed vector whose elements are, in
    index order, [xs]: slots [0, size) are live and hold [xs], slots
    [size, capacity) are raw, and the storage is a block of [capacity]
    slots. *)
Definition Abs (v : Vector) (xs : list T) : Prop :=
  v = vec xs (Capacity v) /\ Z.of_nat (length xs) <= Capacity v <= max_slots.

(** The invariant of the data model: [0 <= size <= capacity] and every
    slot of [0, size) holds a live object. *)
Definition Invariant (v : Vector) : Prop :=
  0 <= size_ v <= Capacity v /\
  forall i, 0 <= i < size_ v -> exists x, at_index v i = Some x.

End Abstraction.

(** The world after [n] more successful constructions. *)
Definition built (n : nat) (w : World) : World :=
  mkWorld (live w + Z.of_nat n) (ops w + n) (news w).

(** The world after [n] more successful assignments. *)
Definition assigned (n : nat) (w : World) : World :=
  mkWorld (live w) (ops w + n) (news w).

(** ** Calls of the public interface *)

Section Calls.

Context {Elem : ElementType} {Sched : Schedule}.

(** Whether [CopyOrMoveToNewBuffer] moves. *)
Definition transfers_by_move : bool :=
  nothrow_move_constructible || negb copy_constructible.

(** What the last slot of a chain of move assignments holds. *)
Definition chain_residue (d : T) (xs : list T) : T :=
  match rev xs with
  | [] => d
  | x :: _ => moved_from x
  end.

(** The mutators of the public interface, with their arguments. *)
Inductive operation : Type :=
| CallReserve (capacity : Z)
| CallResize (new_size : Z)
| CallPushBack (by_move : bool) (value : T)
| CallEmplaceBack (k : special) (x : T)
| CallPopBack
| CallInsert (index : Z) (by_move : bool) (value : T)
| CallEmplace (index : Z) (k : special) (x : T)
| CallErase (index : Z).

(** A call whose returned reference or iterator is not used. *)
Definition drop_result (r : res (Vector * Z) Vector) : res Vector Vector :=
  match r with
  | Normal (v, _) w => Normal v w
  | Raised v w => Raised v w
  | Undefined => Undefined
  end.

Definition perform (op : operation) (v : Vector) (w : World)
  : res Vector Vector :=
  match op with
  | CallReserve c => Reserve c v w
  | CallResize n => Resize n v w
  | CallPushBack m x => PushBack m x v w
  | CallEmplaceBack k x => drop_result (EmplaceBack k x v w)
  | CallPopBack => PopBack v w
  | CallInsert i m x => drop_result (Insert i m x v w)
  | CallEmplace i k x => drop_result (Emplace i k x v w)
  | CallErase i => drop_result (Erase i v w)
  end.

(** The arguments are values of their type and the documented
    preconditions hold: [PopBack] on a non-empty vector, [Erase] at an
    element, insertion at a position of [begin(), end()]. *)
Definition admissible (op : operation) (v : Vector) : Prop :=
  match op with
  | CallReserve c => 0 <= c < 2 ^ 64
  | CallResize n => 0 <= n < 2 ^ 64
  | CallPushBack _ _ => True
  | CallEmplaceBack _ _ => True
  | CallPopBack => 0 < size_ v
  | CallInsert i _ _ => 0 <= i <= size_ v
  | CallEmplace i _ _ => 0 <= i <= size_ v
  | CallErase i => 0 <= i < size_ v
  end.

(** The storage a call asks for by number has a byte count that is a
    [size_t] value: [n * sizeof(T)] does not wrap around in [Allocate]. *)
Definition representable (op : operation) : Prop :=
  match op with
  | CallReserve c => c * sizeof_T < 2 ^ 64
  | CallResize n => n * sizeof_T < 2 ^ 64
  | _ => True
  end.

(** Nothing throws and every allocation request is satisfied. *)
Definition quiet : Prop :=
  (forall k n, throws k n = false) /\
  (forall n bytes, new_succeeds n bytes = true).

(** Where an appending or inserting call puts the new element. *)
Definition insertion_index (op : operation) (v : Vector) : option Z :=
  match op with
  | CallPushBack _ _ => Some (size_ v)
  | CallEmplaceBack _ _ => Some (size_ v)
  | CallInsert i _ _ => Some i
  | CallEmplace i _ _ => Some i
  | _ => None
  end.

(** The vectors a program can get hold of: constructed ones and the
    results of calls on such vectors, the storage asked for by number
    having a byte count that does not wrap around.  With
    [throwing = true] the vectors left behind by a call that threw are
    included. *)
Inductive reachable (throwing : bool) : Vector -> Prop :=
| reach_default : reachable throwing Vector_default
| reach_sized (n : Z) (w : World) (v : Vector) (w' : World) :
    0 <= n -> n * sizeof_T < 2 ^ 64 -> Vector_sized n w = Normal v w' ->
    reachable throwing v
| reach_copy (o : Vector) (w : World) (v : Vector) (w' : World) :
    reachable throwing o -> Vector_copy o w = Normal v w' ->
    reachable throwing v
| reach_move_new (o : Vector) :
    reachable throwing o -> reachable throwing (fst (Vector_move o))
| reach_move_old (o : Vector) :
    reachable throwing o -> reachable throwing (snd (Vector_move o))
| reach_call (op : operation) (v : Vector) (w : World) (v' : Vector)
    (w' : World) :
    reachable throwing v -> admissible op v -> representable op ->
    perform op v w = Normal v' w' -> reachable throwing v'
| reach_call_throw (op : operation) (v : Vector) (w : World) (v' : Vector)
    (w' : World) :
    throwing = true -> reachable throwing v -> admissible op v ->
    representable op ->
    perform op v w = Raised v' w' -> reachable throwing v'
| reach_copy_assign_self (v : Vector) (w : World) (v' : Vector) (w' : World) :
    reachable throwing v -> Vector_copy_assign v Self w = Normal v' w' ->
    reachable throwing v'
| reach_copy_assign (v o : Vector) (w : World) (v' : Vector) (w' : World) :
    reachable throwing v -> reachable throwing o ->
    Vector_copy_assign v (Other o) w = Normal v' w' ->
    reachable throwing v'
| reach_copy_assign_throw (v o : Vector) (w : World) (v' : Vector)
    (w' : World) :
    throwing = true -> reachable throwing v -> reachable throwing o ->
    Vector_copy_assign v (Other o) w = Raised v' w' ->
    reachable throwing v'
| reach_move_assign (v o : Vector) (w : World) (v' o' : Vector) (w' : World) :
    reachable throwing v -> reachable throwing o ->
    Vector_move_assign v (Other o) w = Normal (v', o') w' ->
    reachable throwing v'
| reach_move_assign_source (v o : Vector) (w : World) (v' o' : Vector)
    (w' : World) :
    reachable throwing v -> reachable throwing o ->
    Vector_move_assign v (Other o) w = Normal (v', o') w' ->
    reachable throwing o'
| reach_swap (v o : Vector) :
    reachable throwing v -> reachable throwing o ->
    reachable throwing (fst (Swap v o))
| reach_swap_other (v o : Vector) :
    reachable throwing v -> reachable throwing o ->
    reachable throwing (snd (Swap v o)).

(** *** Sequences of [PushBack] and [PopBack] *)

Inductive command : Type :=
| Push (by_move : bool) (value : T)
| Pop.

Definition execute (c : command) (v : Vector) (w : World)
  : res Vector Vector :=
  match c with
  | Push m x => PushBack m x v w
  | Pop => PopBack v w
  end.

(** Run the calls one after the other; a call that throws ends the run. *)
Fixpoint run (cmds : list command) (v : Vector) (w : World)
  : res Vector Vector :=
  match cmds with
  | [] => Normal v w
  | c :: rest =>
      attempt v1 in w1 <- execute c v w
      rescue v1 in w1 => Raised v1 w1;
      run rest v1 w1
  end.

(** What the claim expects of such a sequence, on plain lists: the values
    pushed and not yet popped, in push order. *)
Fixpoint replay (cmds : list command) (xs : list T) : list T :=
  match cmds with
  | [] => xs
  | Push _ x :: rest => replay rest (xs ++ [x])
  | Pop :: rest => replay rest (removelast xs)
  end.

Fixpoint pushes (cmds : list command) : Z :=
  match cmds with
  | [] => 0
  | Push _ _ :: rest => 1 + pushes rest
  | Pop :: rest => pushes rest
  end.

Fixpoint pops (cmds : list command) : Z :=
  match cmds with
  | [] => 0
  | Push _ _ :: rest => pops rest
  | Pop :: rest => 1 + pops rest
  end.

(** Every [Pop] of the sequence meets a non-empty vector, [n] being the
    number of elements at the start. *)
Fixpoint pops_respected (cmds : list command) (n : nat) : bool :=
  match cmds with
  | [] => true
  | Push _ _ :: rest => pops_respected rest (S n)
  | Pop :: rest =>
      match n with
      | O => false
      | S m => pops_respected rest m
      end
  end.

End Calls.

(** ** Lifetimes *)

Section Lifetimes.

Context {Elem : ElementType} {Sched : Schedule}.

(** [returns_after ops v w v' w']: the calls [ops], made one after the
    other on the vector [v] with nothing else touching objects of [T] in
    between, all meet their preconditions, ask for storage of a
    representable byte count, and return, leaving the vector [v'] and
    the world [w']. *)
Inductive returns_after :
  list operation -> Vector -> World -> Vector -> World -> Prop :=
| after_nil (v : Vector) (w : World) : returns_after [] v w v w
| after_cons (op : operation) (ops : list operation) (v : Vector) (w : World)
    (v1 : Vector) (w1 : World) (v' : Vector) (w' : World) :
    admissible op v -> representable op ->
    perform op v w = Normal v1 w1 ->
    returns_after ops v1 w1 v' w' ->
    returns_after (op :: ops) v w v' w'.

End Lifetimes.

(** ** Element types and schedules used as concrete instances *)

(** Integers of four bytes that can be copied; the move constructor may
    throw, so reallocation copies.  A moved-from object holds [0]. *)
Definition copyable_nat : ElementType :=
  {| T := nat; value_init := 0%nat; moved_from := fun _ => 0%nat;
     nothrow_move_constructible := false; copy_constructible := true;
     sizeof_T := 4; sizeof_range := conj eq_refl eq_refl |}.

(** A move-only type of four bytes whose move constructor may throw. *)
Definition move_only_nat : ElementType :=
  {| T := nat; value_init := 0%nat; moved_from := fun _ => 0%nat;
     nothrow_move_constructible := false; copy_constructible := false;
     sizeof_T := 4; sizeof_range := conj eq_refl eq_refl |}.

(** Nothing throws and every allocation request is satisfied. *)
Definition calm : Schedule :=
  {| throws := fun _ _ => false; new_succeeds := fun _ _ => true |}.

(** The call number [n] throws. *)
Definition throw_at (n : nat) : Schedule :=
  {| throws := fun _ m => Nat.eqb m n; new_succeeds := fun _ _ => true |}.

Definition world0 : World := mkWorld 0 0 0.

(** Vectors of [copyable_nat] and of [move_only_nat]. *)
Definition cvec (xs : list nat) (cap : Z) : @Vector copyable_nat :=
  vec (Elem:=copyable_nat) xs cap.

Definition mvec (xs : list nat) (cap : Z) : @Vector move_only_nat :=
  vec (Elem:=move_only_nat) xs cap.

Ltac lens :=
  repeat first [ rewrite length_app | rewrite length_map
               | rewrite repeat_length | rewrite length_rev
               | progress cbn [length] ];
  try lia.

(** Splits a conjunction into its parts, leaving the parts alone. *)
Ltac conjs := repeat match goal with |- _ /\ _ => split end.

(** Bounds on the sizes of concrete vectors. *)
Ltac bounds := vm_compute; repeat split; solve [reflexivity | discriminate].

(** ** Basic facts *)

Lemma wrap_small (z : Z) : 0 <= z < 2 ^ 64 -> wrap z = z.
Proof. intros H. unfold wrap. apply Z.mod_small. exact H. Qed.

Lemma max_size_lt : max_size < 2 ^ 63.
Proof. unfold max_size. lia. Qed.

Lemma slice_mid {A : Type} (l1 l2 l3 : list A) (from n : Z) :
  from = Z.of_nat (length l1) -> n = Z.of_nat (length l2) ->
  slice from n (l1 ++ l2 ++ l3) = Some l2.
Proof.
  intros -> ->. unfold slice.
  rewrite !length_app.
  replace ((0 <=? Z.of_nat (length l1)) && (0 <=? Z.of_nat (length l2)) &&
           (Z.of_nat (length l1) + Z.of_nat (length l2) <=?
            Z.of_nat (length l1 + (length l2 + length l3)))) with true.
  2:{ symmetry. rewrite !andb_true_iff, !Z.leb_le. lia. }
  rewrite !Nat2Z.id. f_equal.
  rewrite skipn_app, skipn_all, Nat.sub_diag. simpl.
  rewrite firstn_app, firstn_all, Nat.sub_diag. simpl.
  apply app_nil_r.
Qed.

Lemma slice_prefix {A : Type} (l2 l3 : list A) (n : Z) :
  n = Z.of_nat (length l2) -> slice 0 n (l2 ++ l3) = Some l2.
Proof. intros H. apply (slice_mid [] l2 l3); [reflexivity | exact H]. Qed.

Lemma splice_mid {A : Type} (l1 l2 l3 new : list A) (from : Z) :
  from = Z.of_nat (length l1) -> length new = length l2 ->
  splice from new (l1 ++ l2 ++ l3) = Some (l1 ++ new ++ l3).
Proof.
  intros -> Hlen. unfold splice.
  rewrite !length_app.
  replace ((0 <=? Z.of_nat (length l1)) &&
           (Z.of_nat (length l1) + Z.of_nat (length new) <=?
            Z.of_nat (length l1 + (length l2 + length l3)))) with true.
  2:{ symmetry. rewrite !andb_true_iff, !Z.leb_le. lia. }
  rewrite Nat2Z.id. f_equal.
  rewrite firstn_app, firstn_all, Nat.sub_diag. simpl. rewrite app_nil_r.
  f_equal. f_equal.
  rewrite skipn_app.
  replace (skipn (length l1 + length new) l1) with (@nil A)
    by (symmetry; apply skipn_all2; lia).
  simpl. rewrite skipn_app.
  replace (length l1 + length new - length l1)%nat with (length l2) by lia.
  rewrite skipn_all, Nat.sub_diag. reflexivity.
Qed.

Lemma splice_prefix {A : Type} (l2 l3 new : list A) :
  length new = length l2 -> splice 0 new (l2 ++ l3) = Some (new ++ l3).
Proof. intros H. apply (splice_mid [] l2 l3 new); [reflexivity | exact H]. Qed.

Lemma repeat_join {A : Type} (a : A) (n m k : nat) :
  (n + m = k)%nat -> repeat a n ++ repeat a m = repeat a k.
Proof. intros <-. symmetry. apply repeat_app. Qed.

(** ** The standard algorithms on live ranges *)

Section AlgorithmFacts.

Context {Elem : ElementType} {Sched : Schedule}.

Lemma forallb_live_map (xs : list T) : forallb is_live (map Some xs) = true.
Proof. induction xs; simpl; auto. Qed.

Lemma destroy_n_live (xs : list T) (w : World) :
  destroy_n (map Some xs) w
  = Some (repeat None (length xs), destroyed (Z.of_nat (length xs)) w).
Proof.
  unfold destroy_n. rewrite forallb_live_map, length_map. reflexivity.
Qed.

Lemma built_S (n : nat) (w : World) :
  built n (created (tick w)) = built (S n) w.
Proof.
  unfold built, created, tick; simpl. f_equal; lia.
Qed.

Lemma assigned_S (n : nat) (w : World) :
  assigned n (tick w) = assigned (S n) w.
Proof.
  unfold assigned, tick; simpl. f_equal; lia.
Qed.

Lemma uninitialized_value_construct_n_spec (n : nat) :
  forall (done : Z) (w : World),
    match uninitialized_value_construct_n n done w with
    | Normal xs w' => xs = repeat value_init n /\ w' = built n w
    | Raised _ w' =>
        live w' = live w - done /\ news w' = news w /\
        (ops w < ops w' <= ops w + n)%nat
    | Undefined => False
    end.
Proof.
  induction n as [|n IH]; intros done w; simpl.
  - split; [reflexivity|]. unfold built. destruct w; simpl. f_equal; lia.
  - unfold construct. destruct (fails DefaultCtor (ops w)).
    + simpl. lia.
    + specialize (IH (done + 1) (created (tick w))).
      destruct (uninitialized_value_construct_n n (done + 1) (created (tick w)))
        as [xs w'|e w'|]; [| |exact IH].
      * destruct IH as [-> ->]. split; [reflexivity|apply built_S].
      * simpl in IH. lia.
Qed.

Lemma uninitialized_copy_n_spec (xs : list T) :
  forall (done : Z) (w : World),
    match uninitialized_copy_n (map Some xs) done w with
    | Normal ys w' => ys = xs /\ w' = built (length xs) w
    | Raised _ w' =>
        live w' = live w - done /\ news w' = news w /\
        (ops w < ops w' <= ops w + length xs)%nat
    | Undefined => False
    end.
Proof.
  induction xs as [|x xs IH]; intros done w; simpl.
  - split; [reflexivity|]. unfold built. destruct w; simpl. f_equal; lia.
  - unfold construct. destruct (fails CopyCtor (ops w)).
    + simpl. lia.
    + specialize (IH (done + 1) (created (tick w))).
      destruct (uninitialized_copy_n (map Some xs) (done + 1) (created (tick w)))
        as [ys w'|e w'|]; [| |exact IH].
      * destruct IH as [-> ->]. split; [reflexivity|apply built_S].
      * simpl in IH. lia.
Qed.

(** After a move that stopped at some element, the elements before it
    are moved-from and the others untouched. *)
Lemma uninitialized_move_n_spec (xs : list T) :
  forall (done : Z) (w : World),
    match uninitialized_move_n (map Some xs) done w with
    | Normal (src, ys) w' =>
        src = map Some (map moved_from xs) /\ ys = xs /\
        w' = built (length xs) w
    | Raised src w' =>
        live w' = live w - done /\ news w' = news w /\
        (ops w < ops w' <= ops w + length xs)%nat /\
        nothrow_move_constructible = false /\
        exists n, src = map Some (map moved_from (firstn n xs) ++ skipn n xs)
    | Undefined => False
    end.
Proof.
  induction xs as [|x xs IH]; intros done w; simpl.
  - repeat split. unfold built. destruct w; simpl. f_equal; lia.
  - unfold construct. destruct (fails MoveCtor (ops w)) eqn:Hf.
    + simpl. repeat split; try lia.
      * simpl in Hf. destruct nothrow_move_constructible; [discriminate|reflexivity].
      * exists 0%nat. reflexivity.
    + specialize (IH (done + 1) (created (tick w))).
      destruct (uninitialized_move_n (map Some xs) (done + 1) (created (tick w)))
        as [[src ys] w'|src w'|]; [| |exact IH].
      * destruct IH as (-> & -> & ->). repeat split. apply built_S.
      * destruct IH as (Hl & Hn & Ho & Hnt & n & ->). simpl in Hl, Hn, Ho.
        repeat split; try lia; try assumption.
        exists (S n). reflexivity.
Qed.

Lemma CopyOrMoveToNewBuffer_spec (xs : list T) (w : World) :
  match CopyOrMoveToNewBuffer (map Some xs) w with
  | Normal (src, ys) w' =>
      ys = xs /\ w' = built (length xs) w /\
      src = map Some (if transfers_by_move then map moved_from xs else xs)
  | Raised src w' =>
      live w' = live w /\ news w' = news w /\
      (ops w < ops w' <= ops w + length xs)%nat /\
      nothrow_move_constructible = false /\
      (transfers_by_move = false -> src = map Some xs) /\
      exists xs', src = map Some xs' /\ length xs' = length xs
  | Undefined => False
  end.
Proof.
  unfold CopyOrMoveToNewBuffer. fold transfers_by_move.
  destruct transfers_by_move eqn:Hm.
  - pose proof (uninitialized_move_n_spec xs 0 w) as H.
    destruct (uninitialized_move_n (map Some xs) 0 w) as [[src ys] w'|src w'|];
      [| |exact H].
    + destruct H as (-> & -> & ->). auto.
    + destruct H as (Hl & Hn & Ho & Hnt & n & ->).
      repeat split; try lia; try assumption; try discriminate.
      eexists. split; [reflexivity|].
      rewrite length_app, length_map.
      rewrite <- (firstn_skipn n xs) at 3. rewrite length_app. reflexivity.
  - pose proof (uninitialized_copy_n_spec xs 0 w) as H.
    destruct (uninitialized_copy_n (map Some xs) 0 w) as [ys w'|e w'|];
      [| |exact H].
    + destruct H as (-> & ->). auto.
    + destruct H as (Hl & Hn & Ho).
      repeat split; try lia; auto.
      * unfold transfers_by_move in Hm.
        destruct nothrow_move_constructible; [discriminate|reflexivity].
      * exists xs. auto.
Qed.

Lemma copy_n_spec (xs : list T) :
  forall (ds : list T) (w : World),
    length ds = length xs ->
    match copy_n (map Some xs) (map Some ds) w with
    | Normal d w' => d = map Some xs /\ w' = assigned (length xs) w
    | Raised d w' =>
        live w' = live w /\ news w' = news w /\
        exists ds', d = map Some ds' /\ length ds' = length xs
    | Undefined => False
    end.
Proof.
  induction xs as [|x xs IH]; intros ds w Hlen; simpl.
  - destruct ds; [|discriminate]. split; [reflexivity|].
    unfold assigned. destruct w; simpl. f_equal; lia.
  - destruct ds as [|d ds]; [discriminate|]. simpl.
    unfold assign. destruct (fails CopyAssign (ops w)).
    + repeat split. exists (d :: ds). split; [reflexivity|exact Hlen].
    + specialize (IH ds (tick w) ltac:(simpl in Hlen; lia)).
      destruct (copy_n (map Some xs) (map Some ds) (tick w)) as [r w'|r w'|];
        [| |exact IH].
      * destruct IH as [-> ->]. split; [reflexivity|apply assigned_S].
      * destruct IH as (Hl & Hn & ds' & -> & Hlen').
        repeat split; auto.
        exists (x :: ds'). split; [reflexivity|simpl; lia].
Qed.

Lemma chain_residue_cons (d x : T) (xs : list T) :
  chain_residue d (x :: xs) = chain_residue (moved_from x) xs.
Proof.
  unfold chain_residue. simpl.
  destruct (rev xs) as [|y ys] eqn:E; simpl; reflexivity.
Qed.

Lemma move_chain_spec (xs : list T) :
  forall (d : T) (w : World),
    match move_chain (Some d) (map Some xs) w with
    | Normal l w' =>
        l = map Some (xs ++ [chain_residue d xs]) /\
        w' = assigned (length xs) w
    | Raised l w' =>
        live w' = live w /\ news w' = news w /\
        exists l', l = map Some l' /\ length l' = S (length xs)
    | Undefined => False
    end.
Proof.
  induction xs as [|x xs IH]; intros d w; simpl.
  - split; [reflexivity|]. unfold assigned. destruct w; simpl. f_equal; lia.
  - unfold assign. destruct (fails MoveAssign (ops w)).
    + repeat split. exists (d :: x :: xs). split; reflexivity.
    + specialize (IH (moved_from x) (tick w)).
      destruct (move_chain (Some (moved_from x)) (map Some xs) (tick w))
        as [r w'|r w'|]; [| |exact IH].
      * destruct IH as [-> ->]. rewrite chain_residue_cons.
        split; [reflexivity|apply assigned_S].
      * destruct IH as (Hl & Hn & l' & -> & Hlen).
        repeat split; auto.
        exists (x :: l'). split; [reflexivity|simpl; lia].
Qed.

End AlgorithmFacts.

(** ** Reading and writing the storage *)

Section StorageFacts.

Context {Elem : ElementType}.

Lemma sizeof_pos : 0 < sizeof_T.
Proof. apply sizeof_range. Qed.

(** A number of slots is within [max_slots] exactly when its byte count
    is within [max_size]. *)
Lemma max_slots_bytes (c : Z) : c <= max_slots <-> c * sizeof_T <= max_size.
Proof.
  pose proof sizeof_pos as Hs. unfold max_slots. split; intros H.
  - pose proof (Z.mul_div_le max_size sizeof_T Hs). nia.
  - apply Z.div_le_lower_bound; [exact Hs|lia].
Qed.

Lemma max_slots_lt : max_slots < 2 ^ 63.
Proof.
  pose proof sizeof_pos as Hs. pose proof max_size_lt as Hm.
  pose proof (proj1 (max_slots_bytes max_slots) (Z.le_refl _)) as H.
  assert (0 <= max_slots)
    by (apply Z.div_pos; [unfold max_size|]; lia).
  nia.
Qed.

Lemma max_slots_nonneg : 0 <= max_slots.
Proof.
  pose proof sizeof_pos. apply Z.div_pos; [unfold max_size|]; lia.
Qed.

(** The byte count of a request does not wrap around when the number of
    slots is within [max_slots], nor when it is the capacity
    [CalcNewCapacity] computes for such a vector. *)
Lemma within_representable (c : Z) :
  c <= max_slots -> c * sizeof_T < 2 ^ 64.
Proof.
  intros H. apply max_slots_bytes in H. pose proof max_size_lt. lia.
Qed.

Lemma growth_representable (n : Z) :
  0 <= n <= max_slots -> Z.max 1 (2 * n) * sizeof_T < 2 ^ 64.
Proof.
  intros [H0 H]. apply max_slots_bytes in H.
  pose proof max_size_lt. pose proof sizeof_range.
  destruct (Z.max_spec 1 (2 * n)) as [[_ ->]|[_ ->]]; lia.
Qed.

Lemma load_mid (l1 l2 l3 : list (option T)) (cap from n : Z) :
  from = Z.of_nat (length l1) -> n = Z.of_nat (length l2) ->
  load from n (mkRaw (l1 ++ l2 ++ l3) cap) = Some l2.
Proof. intros. unfold load. simpl. apply slice_mid; assumption. Qed.

Lemma load_prefix (l2 l3 : list (option T)) (cap n : Z) :
  n = Z.of_nat (length l2) ->
  load 0 n (mkRaw (l2 ++ l3) cap) = Some l2.
Proof. intros. unfold load. simpl. apply slice_prefix; assumption. Qed.

Lemma store_mid (l1 l2 l3 new : list (option T)) (cap from : Z) :
  from = Z.of_nat (length l1) -> length new = length l2 ->
  store from new (mkRaw (l1 ++ l2 ++ l3) cap)
  = Some (mkRaw (l1 ++ new ++ l3) cap).
Proof.
  intros. unfold store. simpl. rewrite (splice_mid l1 l2 l3); auto.
Qed.

Lemma store_capacity (from : Z) (new : list (option T)) (d d' : RawMemory) :
  store from new d = Some d' -> capacity_ d' = capacity_ d.
Proof.
  unfold store. destruct (splice from new (buffer_ d)); [|discriminate].
  intros H. injection H as <-. reflexivity.
Qed.

Lemma store_prefix (l2 l3 new : list (option T)) (cap : Z) :
  length new = length l2 ->
  store 0 new (mkRaw (l2 ++ l3) cap) = Some (mkRaw (new ++ l3) cap).
Proof.
  intros. unfold store. simpl. rewrite (splice_prefix l2 l3); auto.
Qed.

(** A vector with spare capacity has a raw slot right after its
    elements. *)
Lemma holding_spare (xs : list T) (cap : Z) :
  Z.of_nat (length xs) < cap ->
  holding xs cap
  = map Some xs ++ [None]
    ++ repeat None (Z.to_nat (cap - Z.of_nat (length xs) - 1)).
Proof.
  intros H. unfold holding. f_equal.
  change ([None] ++ ?l) with (repeat (@None T) 1 ++ l).
  rewrite <- repeat_app. f_equal. lia.
Qed.

Lemma holding_app (l1 l2 : list T) (cap : Z) :
  holding (l1 ++ l2) cap
  = map Some l1 ++ map Some l2
    ++ repeat None (Z.to_nat (cap - Z.of_nat (length (l1 ++ l2)))).
Proof. unfold holding. rewrite map_app, <- app_assoc. reflexivity. Qed.

Lemma holding_nil (cap : Z) : holding [] cap = repeat None (Z.to_nat cap).
Proof. unfold holding. simpl. f_equal. lia. Qed.

Lemma Abs_vec (xs : list T) (cap : Z) :
  Z.of_nat (length xs) <= cap <= max_slots -> Abs (vec xs cap) xs.
Proof. intros H. split; [reflexivity|exact H]. Qed.

End StorageFacts.

(** ** Appending, with and without reallocation *)

Section GrowthFacts.
Context {Elem : ElementType} {Sched : Schedule}.

Lemma CalcNewCapacity_vec (xs : list T) (cap : Z) :
  Z.of_nat (length xs) <= max_slots ->
  CalcNewCapacity (vec xs cap) = Z.max 1 (2 * Z.of_nat (length xs)).
Proof.
  intros H. unfold CalcNewCapacity, vec; cbn [size_].
  destruct (Z.eqb_spec (Z.of_nat (length xs)) 0) as [E|E]; [lia|].
  rewrite wrap_small; [lia|]. pose proof max_slots_lt. lia.
Qed.

(** What [RawMemory(c)] hands out, whatever the byte count: a block of
    some number of raw slots under the capacity [c]. *)
Lemma RawMemory_sized_block (c : Z) (w : World) :
  0 < c ->
  match RawMemory_sized c w with
  | Normal d w' =>
      w' = requested w /\
      exists k, d = mkRaw (repeat None k) c /\
                (c * sizeof_T < 2 ^ 64 -> k = Z.to_nat c /\ c <= max_slots)
  | Raised _ w' => w' = requested w
  | Undefined => False
  end.
Proof.
  intros H. pose proof sizeof_pos as Hs. unfold RawMemory_sized, Allocate.
  destruct (Z.eqb_spec c 0); [lia|]. cbv zeta.
  destruct (Z.leb_spec (wrap (c * sizeof_T)) max_size) as [Hle|Hgt];
    simpl; [|reflexivity].
  destruct (new_succeeds (news w) (wrap (c * sizeof_T))); simpl;
    [|reflexivity].
  split; [reflexivity|]. eexists. split; [reflexivity|].
  intros Hfit. rewrite wrap_small in * by nia.
  rewrite Z.div_mul by lia. split; [reflexivity|].
  apply max_slots_bytes. exact Hle.
Qed.

(** A request whose byte count does not wrap around. *)
Lemma RawMemory_sized_spec (c : Z) (w : World) :
  0 < c -> c * sizeof_T < 2 ^ 64 ->
  match RawMemory_sized c w with
  | Normal d w' =>
      d = mkRaw (repeat None (Z.to_nat c)) c /\ w' = requested w /\
      c <= max_slots
  | Raised _ w' => w' = requested w
  | Undefined => False
  end.
Proof.
  intros H Hfit. pose proof (RawMemory_sized_block c w H) as Hb.
  destruct (RawMemory_sized c w) as [d w'|e w'|]; [| |exact Hb].
  - destruct Hb as (-> & k & -> & Hk). destruct (Hk Hfit) as (-> & Hc).
    split; [reflexivity|]. split; [reflexivity|exact Hc].
  - exact Hb.
Qed.

Lemma Realloc_spec (k : special) (x : T) (l1 l2 : list T) (cap : Z) (w : World) :
  Z.of_nat (length (l1 ++ l2)) <= cap <= max_slots ->
  match ReallocateMemoryAddingNewElement (Z.of_nat (length l1)) k x
          (vec (l1 ++ l2) cap) w with
  | Normal (v', r) w' =>
      v' = vec (l1 ++ x :: l2) (Z.max 1 (2 * Z.of_nat (length (l1 ++ l2)))) /\
      r = Z.of_nat (length l1) /\
      Z.max 1 (2 * Z.of_nat (length (l1 ++ l2))) <= max_slots /\
      live w' = live w + 1 /\
      ops w' = (ops w + 1 + length (l1 ++ l2))%nat /\
      news w' = S (news w)
  | Raised v' w' =>
      Capacity v' = cap /\ size_ v' = Z.of_nat (length (l1 ++ l2)) /\
      (l1 = [] \/ l2 = [] \/ (ops w' <= ops w + 1 + length l1)%nat ->
       live w' = live w /\
       (transfers_by_move = false \/ nothrow_move_constructible = true ->
        v' = vec (l1 ++ l2) cap) /\
       exists xs', v' = vec xs' cap /\ length xs' = length (l1 ++ l2))
  | Undefined => False
  end.
Proof.
  intros Hb.
  assert (Hg : Z.max 1 (2 * Z.of_nat (length (l1 ++ l2))) * sizeof_T < 2 ^ 64)
    by (apply growth_representable; lia).
  set (n := length (l1 ++ l2)) in *.
  unfold ReallocateMemoryAddingNewElement.
  rewrite CalcNewCapacity_vec by (fold n; lia). fold n.
  set (c := Z.max 1 (2 * Z.of_nat n)).
  pose proof (RawMemory_sized_spec c w ltac:(lia) Hg) as Ha.
  destruct (RawMemory_sized c w) as [nd w1|e w1|]; [| |exact Ha].
  2:{ subst w1. simpl. split; [reflexivity|]. split; [reflexivity|].
      intros _. split; [reflexivity|].
      split; [reflexivity|]. exists (l1 ++ l2). split; reflexivity. }
  destruct Ha as (-> & -> & Hc).
  assert (Hn : n = (length l1 + length l2)%nat) by (unfold n; lens).
  (* the raw storage, cut at the places written below *)
  assert (Hraw : repeat (@None T) (Z.to_nat c)
                 = repeat None (length l1) ++ [None]
                   ++ (repeat None (length l2)
                   ++ repeat None (Z.to_nat (c - Z.of_nat n - 1)))).
  { change [@None T] with (repeat (@None T) 1).
    rewrite <- !repeat_app. f_equal. lia. }
  rewrite Hraw.
  rewrite (load_mid (repeat None (length l1)) [None]) by lens.
  unfold construct.
  destruct (fails k (ops (requested w))) eqn:Hk.
  { simpl. split; [reflexivity|]. split; [reflexivity|].
    intros _. split; [reflexivity|].
    split; [reflexivity|]. exists (l1 ++ l2). split; reflexivity. }
  rewrite (store_mid (repeat None (length l1)) [None]) by lens.
  cbn [vec data_ size_].
  rewrite holding_app.
  rewrite (load_prefix (map Some l1)) by lens.
  pose proof (CopyOrMoveToNewBuffer_spec l1 (created (tick (requested w)))) as Hl.
  destruct (CopyOrMoveToNewBuffer (map Some l1) (created (tick (requested w))))
    as [[lead1 ys] w3|lead1 w3|]; [| |exact Hl].
  2:{ destruct Hl as (Hlive & Hnews & Hops & Hnt & Hcopy & xs' & -> & Hlen).
      rewrite (store_prefix (map Some l1)) by lens.
      simpl. split; [reflexivity|]. split; [reflexivity|].
      intros _. simpl in Hlive. split; [lia|].
      split.
      - intros [Hm|Hm]; [|congruence].
        rewrite (Hcopy Hm). unfold vec. rewrite holding_app. reflexivity.
      - exists (xs' ++ l2). split; [|lens].
        unfold vec. rewrite holding_app. 
        replace (length (xs' ++ l2)) with n by lens. reflexivity. }
  destruct Hl as (-> & -> & ->).
  set (l1m := if transfers_by_move then map moved_from l1 else l1).
  assert (Hl1m : length l1m = length l1).
  { unfold l1m. destruct transfers_by_move; [apply length_map|reflexivity]. }
  rewrite (store_prefix (repeat None (length l1))) by lens.
  rewrite destroy_n_live.
  rewrite (store_prefix (map Some l1)) by lens.
  rewrite Hl1m.
  pose proof max_slots_lt as Hmax.
  assert (Hcase : l2 = [] \/ (0 < length l2)%nat)
    by (destruct l2; simpl; [left; reflexivity|right; lia]).
  destruct Hcase as [->|Hpos].
  - (* nothing after [index] *)
    replace (Z.of_nat (length l1) <? Z.of_nat (length (l1 ++ [])))
      with false by (symmetry; apply Z.ltb_ge; lens).
    split.
    + unfold vec. f_equal.
      * f_equal. unfold holding. rewrite map_app, <- app_assoc.
        simpl. do 2 f_equal. f_equal. unfold n. lens.
      * rewrite wrap_small by lens. lens.
    + simpl. unfold n. repeat split; lens.
  - replace (Z.of_nat (length l1) <? Z.of_nat (length (l1 ++ l2)))
      with true by (symmetry; apply Z.ltb_lt; lens).
    replace (wrap (Z.of_nat (length (l1 ++ l2)) - Z.of_nat (length l1)))
      with (Z.of_nat (length l2)) by (rewrite wrap_small; lens).
    rewrite (load_mid (repeat None (length l1)) (map Some l2)) by lens.
    pose proof (CopyOrMoveToNewBuffer_spec l2
                  (destroyed (Z.of_nat (length l1))
                     (built (length l1) (created (tick (requested w))))))
      as Ht.
    destruct (CopyOrMoveToNewBuffer (map Some l2)
                (destroyed (Z.of_nat (length l1))
                   (built (length l1) (created (tick (requested w))))))
      as [[trail1 zs] w5|trail1 w5|]; [| |exact Ht].
    + destruct Ht as (-> & -> & ->).
      replace (Z.of_nat (length l1) + 1)
        with (Z.of_nat (length (map Some l1 ++ [Some x]))) by lens.
      rewrite (app_assoc (map Some l1) [Some x]).
      rewrite (store_mid (map Some l1 ++ [Some x]) (repeat None (length l2)))
        by lens.
      rewrite destroy_n_live.
      split.
      * unfold vec. f_equal.
        -- f_equal. unfold holding. rewrite map_app, <- !app_assoc.
           simpl. do 4 f_equal. unfold n. lens.
        -- rewrite wrap_small by lens. lens.
      * simpl. unfold n.
        destruct transfers_by_move; repeat split; lens.
    + destruct Ht as (Hlive & Hnews & Hops & Hnt & Hcopy & xs' & -> & Hlen).
      replace (wrap (Z.of_nat (length l1) + 1))
        with (Z.of_nat (length (map Some (l1 ++ [x]))))
        by (rewrite wrap_small; lens).
      rewrite (app_assoc (map Some l1) [Some x]).
      change [Some x] with (map Some [x]). rewrite <- map_app.
      rewrite (load_prefix (map Some (l1 ++ [x]))) by lens.
      rewrite destroy_n_live.
      rewrite (store_mid (repeat None (length l1)) (map Some l2)) by lens.
      simpl. split; [reflexivity|]. split; [reflexivity|].
      simpl in Hlive, Hnews, Hops.
      intros [->|[Hl2|Hop]];
        [|subst l2; simpl in Hpos; lia|simpl in Hop; lia].
      simpl in *. split; [lia|].
      split.
      * intros [Hm|Hm]; [|congruence].
        rewrite (Hcopy Hm). reflexivity.
      * exists xs'. split; [|unfold n; simpl; lia].
        unfold vec, holding. rewrite Hlen. reflexivity.
Qed.

Lemma EmplaceBack_full (k : special) (x : T) (v : Vector) (w : World) :
  size_ v = Capacity v ->
  EmplaceBack k x v w = ReallocateMemoryAddingNewElement (size_ v) k x v w.
Proof.
  intros H. unfold EmplaceBack. rewrite H, Z.eqb_refl. reflexivity.
Qed.

Lemma Emplace_end (k : special) (x : T) (v : Vector) (w : World) :
  Emplace (size_ v) k x v w = EmplaceBack k x v w.
Proof. unfold Emplace. rewrite Z.eqb_refl. reflexivity. Qed.

Lemma Emplace_full (index : Z) (k : special) (x : T) (v : Vector) (w : World) :
  size_ v = Capacity v ->
  Emplace index k x v w = ReallocateMemoryAddingNewElement index k x v w.
Proof.
  intros H. unfold Emplace.
  destruct (Z.eqb_spec index (size_ v)) as [->|Hne].
  - apply EmplaceBack_full. exact H.
  - rewrite H, Z.eqb_refl. reflexivity.
Qed.

Lemma EmplaceBack_spare_spec (k : special) (x : T) (xs : list T) (cap : Z)
  (w : World) :
  Z.of_nat (length xs) < cap <= max_slots ->
  EmplaceBack k x (vec xs cap) w
  = if fails k (ops w) then Raised (vec xs cap) (tick w)
    else Normal (vec (xs ++ [x]) cap, Z.of_nat (length xs)) (created (tick w)).
Proof.
  intros Hb. pose proof max_slots_lt as Hmax.
  unfold EmplaceBack. cbn [vec data_ size_ Capacity capacity_].
  destruct (Z.eqb_spec (Z.of_nat (length xs)) cap) as [E|_]; [lia|].
  rewrite holding_spare by lia.
  rewrite (load_mid (map Some xs) [None]) by lens.
  unfold construct. destruct (fails k (ops w)).
  - reflexivity.
  - rewrite (store_mid (map Some xs) [None]) by lens.
    rewrite wrap_small by lia.
    f_equal. f_equal. unfold vec. f_equal.
    + f_equal. unfold holding. rewrite map_app, <- app_assoc. simpl.
      do 3 f_equal. lens.
    + lens.
Qed.

Lemma EmplaceBack_spec (k : special) (x : T) (xs : list T) (cap : Z)
  (w : World) :
  Z.of_nat (length xs) <= cap <= max_slots ->
  match EmplaceBack k x (vec xs cap) w with
  | Normal (v', r) w' =>
      v' = vec (xs ++ [x])
             (if Z.of_nat (length xs) =? cap
              then Z.max 1 (2 * Z.of_nat (length xs)) else cap) /\
      r = Z.of_nat (length xs) /\
      Z.of_nat (length (xs ++ [x])) <= Capacity v' <= max_slots /\
      live w' = live w + 1
  | Raised v' w' =>
      live w' = live w /\
      (transfers_by_move = false \/ nothrow_move_constructible = true ->
       v' = vec xs cap) /\
      exists xs', v' = vec xs' cap /\ length xs' = length xs
  | Undefined => False
  end.
Proof.
  intros Hb.
  destruct (Z.eqb_spec (Z.of_nat (length xs)) cap) as [E|E].
  - rewrite EmplaceBack_full by (cbn; exact E).
    cbn [vec size_].
    pose proof (Realloc_spec k x xs [] cap w) as H.
    rewrite app_nil_r in H. specialize (H Hb).
    fold (vec xs cap).
    destruct (ReallocateMemoryAddingNewElement (Z.of_nat (length xs)) k x
                (vec xs cap) w) as [[v' r] w'|v' w'|]; [| |exact H].
    + destruct H as (-> & -> & Hc & Hl & _).
      split; [reflexivity|]. split; [reflexivity|]. split; [|exact Hl].
      unfold Capacity, vec; cbn [data_ capacity_].
      rewrite length_app; cbn [length]. lia.
    + destruct H as (_ & _ & H). apply H. right. left. reflexivity.
  - rewrite EmplaceBack_spare_spec by lia.
    destruct (fails k (ops w)).
    + simpl. split; [reflexivity|]. split; [reflexivity|].
      exists xs. split; reflexivity.
    + split; [reflexivity|]. split; [reflexivity|]. split.
      * unfold Capacity, vec; cbn [data_ capacity_].
        rewrite length_app; cbn [length]. lia.
      * simpl. lia.
Qed.

End GrowthFacts.

(** ** Shifting, inserting and erasing in place *)

Lemma exists_last_or_nil {A : Type} (l : list A) :
  l = [] \/ exists l' a, l = l' ++ [a].
Proof.
  destruct l as [|x l]; [left; reflexivity|right].
  destruct (@exists_last A (x :: l)) as (l' & a & E); [discriminate|].
  exists l', a. exact E.
Qed.

Section ShiftFacts.
Context {Elem : ElementType} {Sched : Schedule}.

Lemma move_left_spec (d : T) (xs : list T) (w : World) :
  match move_left (map Some (d :: xs)) w with
  | Normal l w' =>
      l = map Some (xs ++ [chain_residue d xs]) /\
      w' = assigned (length xs) w
  | Raised l w' =>
      live w' = live w /\ news w' = news w /\
      exists l', l = map Some l' /\ length l' = S (length xs)
  | Undefined => False
  end.
Proof. simpl. apply move_chain_spec. Qed.

Lemma move_backward_spec (xs : list T) (d : T) (w : World) :
  match move_backward (map Some (xs ++ [d])) w with
  | Normal l w' =>
      l = map Some (chain_residue d (rev xs) :: xs) /\
      w' = assigned (length xs) w
  | Raised l w' =>
      live w' = live w /\ news w' = news w /\
      exists l', l = map Some l' /\ length l' = S (length xs)
  | Undefined => False
  end.
Proof.
  unfold move_backward.
  rewrite <- map_rev, rev_app_distr. simpl.
  pose proof (move_chain_spec (rev xs) d w) as H.
  destruct (move_chain (Some d) (map Some (rev xs)) w) as [l w'|l w'|];
    [| |exact H].
  - destruct H as [-> ->]. rewrite length_rev. split; [|reflexivity].
    rewrite <- map_rev, rev_app_distr, rev_involutive. reflexivity.
  - destruct H as (Hl & Hn & l' & -> & Hlen).
    split; [exact Hl|]. split; [exact Hn|].
    exists (rev l'). rewrite map_rev. split; [reflexivity|].
    rewrite length_rev in *. exact Hlen.
Qed.

Lemma PopBack_spec (xs : list T) (d : T) (cap : Z) (w : World) :
  Z.of_nat (length (xs ++ [d])) <= cap <= max_slots ->
  PopBack (vec (xs ++ [d]) cap) w = Normal (vec xs cap) (destroyed 1 w).
Proof.
  intros Hb. pose proof max_slots_lt as Hmax.
  rewrite length_app in Hb. cbn [length] in Hb.
  unfold PopBack. cbn [vec data_ size_].
  replace (wrap (Z.of_nat (length (xs ++ [d])) - 1))
    with (Z.of_nat (length xs)) by (rewrite wrap_small; lens).
  rewrite holding_app.
  rewrite (load_mid (map Some xs) (map Some [d])) by lens.
  rewrite destroy_n_live.
  rewrite (store_mid (map Some xs) (map Some [d])) by lens.
  f_equal. unfold vec. f_equal. f_equal.
  unfold holding. f_equal. apply repeat_join. lens.
Qed.

Lemma PopBack_empty (cap : Z) (w : World) :
  0 <= cap <= max_slots -> PopBack (vec [] cap) w = Undefined.
Proof.
  intros Hb. unfold PopBack, load, slice. cbn [vec data_ size_ length buffer_].
  replace (wrap (Z.of_nat 0 - 1)) with (2 ^ 64 - 1) by reflexivity.
  rewrite holding_nil, repeat_length.
  replace (2 ^ 64 - 1 + 1 <=? Z.of_nat (Z.to_nat cap)) with false.
  - rewrite andb_false_r. reflexivity.
  - symmetry. apply Z.leb_gt. pose proof max_slots_lt. lia.
Qed.

Lemma Erase_spec (l1 : list T) (d : T) (l2 : list T) (cap : Z) (w : World) :
  Z.of_nat (length (l1 ++ d :: l2)) <= cap <= max_slots ->
  match Erase (Z.of_nat (length l1)) (vec (l1 ++ d :: l2) cap) w with
  | Normal (v', r) w' =>
      v' = vec (l1 ++ l2) cap /\ r = Z.of_nat (length l1) /\
      live w' = live w - 1 /\ news w' = news w /\
      ops w' = (ops w + length l2)%nat
  | Raised v' w' =>
      live w' = live w /\
      exists xs', v' = vec xs' cap /\ length xs' = length (l1 ++ d :: l2)
  | Undefined => False
  end.
Proof.
  intros Hb. pose proof max_slots_lt as Hmax.
  assert (Hn : length (l1 ++ d :: l2) = (length l1 + S (length l2))%nat)
    by lens.
  unfold Erase. cbn [vec data_ size_].
  replace (wrap (Z.of_nat (length (l1 ++ d :: l2)) - Z.of_nat (length l1)))
    with (Z.of_nat (length (map Some (d :: l2))))
    by (rewrite wrap_small; lens).
  rewrite holding_app.
  rewrite (load_mid (map Some l1) (map Some (d :: l2))) by lens.
  pose proof (move_left_spec d l2 w) as H.
  destruct (move_left (map Some (d :: l2)) w) as [rng w1|rng w1|];
    [| |exact H].
  - destruct H as [-> ->].
    rewrite (store_mid (map Some l1) (map Some (d :: l2))) by lens.
    replace (wrap (Z.of_nat (length (l1 ++ d :: l2)) - 1))
      with (Z.of_nat (length (map Some l1 ++ map Some l2)))
      by (rewrite wrap_small; lens).
    rewrite map_app, <- app_assoc.
    rewrite (app_assoc (map Some l1) (map Some l2)).
    rewrite (load_mid (map Some l1 ++ map Some l2)
               (map Some [chain_residue d l2])) by lens.
    rewrite destroy_n_live.
    rewrite (store_mid (map Some l1 ++ map Some l2)
               (map Some [chain_residue d l2])) by lens.
    split; [|split; [reflexivity|split; [simpl; lia|split; reflexivity]]].
    unfold vec. f_equal.
    + f_equal. unfold holding. rewrite map_app, <- !app_assoc.
      do 2 f_equal. apply repeat_join. lens.
    + lens.
  - destruct H as (Hl & _ & l' & -> & Hlen).
    rewrite (store_mid (map Some l1) (map Some (d :: l2))) by lens.
    split; [exact Hl|]. exists (l1 ++ l'). split; [|lens].
    unfold vec. rewrite holding_app.
    replace (length (l1 ++ l')) with (length (l1 ++ d :: l2)) by lens.
    reflexivity.
Qed.

Lemma load_eq (buf a b c : list (option T)) (cap from n : Z) :
  buf = a ++ b ++ c -> from = Z.of_nat (length a) ->
  n = Z.of_nat (length b) ->
  load from n (mkRaw buf cap) = Some b.
Proof. intros ->. apply load_mid. Qed.

Lemma store_eq (buf a b c new : list (option T)) (cap from : Z) :
  buf = a ++ b ++ c -> from = Z.of_nat (length a) ->
  length new = length b ->
  store from new (mkRaw buf cap) = Some (mkRaw (a ++ new ++ c) cap).
Proof. intros ->. apply store_mid. Qed.

Lemma Emplace_spare_spec (k : special) (x : T) (l1 l2 : list T) (b : T)
  (cap : Z) (w : World) :
  Z.of_nat (length (l1 ++ l2 ++ [b])) < cap <= max_slots ->
  match Emplace (Z.of_nat (length l1)) k x (vec (l1 ++ l2 ++ [b]) cap) w with
  | Normal (v', r) w' =>
      v' = vec (l1 ++ x :: l2 ++ [b]) cap /\ r = Z.of_nat (length l1) /\
      live w' = live w + 1 /\ news w' = news w /\
      ops w' = (ops w + length l2 + 3)%nat
  | Raised v' w' =>
      Capacity v' = cap /\ size_ v' = Z.of_nat (length (l1 ++ l2 ++ [b]))
  | Undefined => False
  end.
Proof.
  intros Hb. pose proof max_slots_lt as Hmax.
  set (n := length (l1 ++ l2 ++ [b])) in *.
  assert (Hn : n = (length l1 + length l2 + 1)%nat) by (unfold n; lens).
  clearbody n.
  set (rest := repeat (@None T) (Z.to_nat (cap - Z.of_nat n - 1))).
  assert (Hbuf : holding (l1 ++ l2 ++ [b]) cap
                 = map Some l1 ++ map Some l2 ++ [Some b; None] ++ rest).
  { unfold holding. rewrite !map_app, <- !app_assoc. do 2 f_equal.
    cbn [map app]. f_equal.
    change (None :: rest) with (repeat (@None T) 1 ++ rest).
    unfold rest. symmetry. apply repeat_join. lens. }
  unfold Emplace, at_index. cbn [vec data_ size_ Capacity capacity_].
  replace (length (l1 ++ l2 ++ [b])) with n by lens.
  rewrite Hbuf.
  destruct (Z.eqb_spec (Z.of_nat (length l1)) (Z.of_nat n)) as [E|_]; [lia|].
  destruct (Z.eqb_spec (Z.of_nat n) cap) as [E|_]; [lia|].
  unfold construct at 1. destruct (fails k (ops w)).
  { split; [reflexivity|cbn [vec size_]; lens]. }
  replace (wrap (Z.of_nat n - 1))
    with (Z.of_nat (length l1 + length l2)) by (rewrite wrap_small; lia).
  rewrite (load_eq _ (map Some l1 ++ map Some l2) [Some b] (None :: rest))
    by first [solve [lens] | rewrite <- !app_assoc; reflexivity].
  rewrite (load_eq _ (map Some l1 ++ map Some l2 ++ [Some b]) [None] rest)
    by first [solve [lens] | rewrite <- !app_assoc; reflexivity].
  unfold construct. destruct (fails MoveCtor (ops (created (tick w)))).
  { split; [reflexivity|cbn [vec size_]; lens]. }
  rewrite (store_eq _ (map Some l1 ++ map Some l2) [Some b; None] rest)
    by first [solve [lens] | rewrite <- !app_assoc; reflexivity].
  replace (wrap (Z.of_nat n - Z.of_nat (length l1)))
    with (Z.of_nat (length l2 + 1)) by (rewrite wrap_small; lia).
  rewrite (load_eq _ (map Some l1) (map Some (l2 ++ [moved_from b]))
             (Some b :: rest))
    by first [solve [lens]
             | rewrite !map_app, <- !app_assoc; reflexivity].
  pose proof (move_backward_spec l2 (moved_from b)
                (created (tick (created (tick w))))) as H.
  destruct (move_backward (map Some (l2 ++ [moved_from b]))
              (created (tick (created (tick w))))) as [rng w3|rng w3|];
    [| |exact H].
  2:{ destruct H as (_ & _ & l' & -> & Hlen).
      rewrite (store_eq _ (map Some l1) (map Some (l2 ++ [moved_from b]))
                 (Some b :: rest))
        by first [solve [lens]
                 | rewrite !map_app, <- !app_assoc; reflexivity].
      split; [reflexivity|cbn [vec size_]; lens]. }
  destruct H as [-> ->].
  rewrite (store_eq _ (map Some l1) (map Some (l2 ++ [moved_from b]))
             (Some b :: rest))
    by first [solve [lens]
             | rewrite !map_app, <- !app_assoc; reflexivity].
  cbn [map].
  rewrite (load_eq _ (map Some l1)
             [Some (chain_residue (moved_from b) (rev l2))]
             (map Some l2 ++ Some b :: rest))
    by first [solve [lens] | reflexivity].
  unfold assign.
  destruct (fails MoveAssign
              (ops (assigned (length l2) (created (tick (created (tick w))))))).
  { split; [reflexivity|cbn [vec size_]; lens]. }
  rewrite (store_eq _ (map Some l1)
             [Some (chain_residue (moved_from b) (rev l2))]
             (map Some l2 ++ Some b :: rest))
    by first [solve [lens] | reflexivity].
  split; [|split; [reflexivity|split; [simpl; lia|split;
    [reflexivity|simpl; lia]]]].
  unfold vec. f_equal.
  - f_equal. unfold holding.
    change (l1 ++ x :: l2 ++ [b]) with (l1 ++ [x] ++ l2 ++ [b]).
    rewrite !map_app, <- !app_assoc. cbn [map app]. do 4 f_equal.
    unfold rest. f_equal. lens.
  - rewrite wrap_small by lia. lens.
Qed.

Lemma Emplace_spec (k : special) (x : T) (l1 l2 : list T) (cap : Z)
  (w : World) :
  Z.of_nat (length (l1 ++ l2)) <= cap <= max_slots ->
  match Emplace (Z.of_nat (length l1)) k x (vec (l1 ++ l2) cap) w with
  | Normal (v', r) w' =>
      v' = vec (l1 ++ x :: l2)
             (if Z.of_nat (length (l1 ++ l2)) =? cap
              then Z.max 1 (2 * Z.of_nat (length (l1 ++ l2))) else cap) /\
      r = Z.of_nat (length l1) /\
      Z.of_nat (length (l1 ++ x :: l2)) <= Capacity v' <= max_slots /\
      live w' = live w + 1
  | Raised v' w' =>
      Capacity v' = cap /\ size_ v' = Z.of_nat (length (l1 ++ l2))
  | Undefined => False
  end.
Proof.
  intros Hb.
  assert (Hlen : length (l1 ++ x :: l2) = S (length (l1 ++ l2))) by lens.
  destruct (Z.eqb_spec (Z.of_nat (length (l1 ++ l2))) cap) as [E|E].
  - rewrite Emplace_full by (cbn; exact E).
    pose proof (Realloc_spec k x l1 l2 cap w Hb) as H.
    destruct (ReallocateMemoryAddingNewElement (Z.of_nat (length l1)) k x
                (vec (l1 ++ l2) cap) w) as [[v' r] w'|v' w'|]; [| |exact H].
    + destruct H as (-> & -> & Hc & Hl & _).
      split; [reflexivity|]. split; [reflexivity|]. split; [|exact Hl].
      unfold Capacity, vec; cbn [data_ capacity_]. lia.
    + destruct H as (Hc & Hs & _). split; assumption.
  - destruct (exists_last_or_nil l2) as [->|(l2' & b & ->)].
    + rewrite app_nil_r in *.
      change (Z.of_nat (length l1)) with (size_ (vec l1 cap)) at 1.
      rewrite Emplace_end, EmplaceBack_spare_spec by lia.
      destruct (fails k (ops w)).
      * split; reflexivity.
      * split; [reflexivity|]. split; [reflexivity|]. split; [|simpl; lia].
        unfold Capacity, vec; cbn [data_ capacity_]. lens.
    + pose proof (Emplace_spare_spec k x l1 l2' b cap w ltac:(lia)) as H.
      destruct (Emplace (Z.of_nat (length l1)) k x
                  (vec (l1 ++ l2' ++ [b]) cap) w) as [[v' r] w'|v' w'|];
        [| |exact H].
      * destruct H as (-> & -> & Hl & _).
        split; [reflexivity|]. split; [reflexivity|]. split; [|exact Hl].
        unfold Capacity, vec; cbn [data_ capacity_]. lia.
      * exact H.
Qed.

End ShiftFacts.

(** ** Construction, destruction and capacity *)

Section CapacityFacts.
Context {Elem : ElementType} {Sched : Schedule}.

Lemma RawMemory_sized_any (c : Z) (w : World) :
  0 <= c -> c * sizeof_T < 2 ^ 64 ->
  match RawMemory_sized c w with
  | Normal d w' =>
      d = mkRaw (repeat None (Z.to_nat c)) c /\ c <= max_slots /\
      live w' = live w /\ ops w' = ops w /\
      news w' = (if c =? 0 then news w else S (news w))
  | Raised _ w' => live w' = live w /\ ops w' = ops w /\ 0 < c
  | Undefined => False
  end.
Proof.
  intros H Hfit. destruct (Z.eqb_spec c 0) as [->|Hc].
  - cbn. repeat split. apply max_slots_nonneg.
  - pose proof (RawMemory_sized_spec c w ltac:(lia) Hfit) as Ha.
    destruct (RawMemory_sized c w) as [d w'|e w'|]; [| |exact Ha].
    + destruct Ha as (-> & -> & Hm). repeat split. exact Hm.
    + subst w'. repeat split. lia.
Qed.

Lemma Vector_destroy_spec (xs : list T) (cap : Z) (w : World) :
  Vector_destroy (vec xs cap) w = Some (destroyed (Z.of_nat (length xs)) w).
Proof.
  unfold Vector_destroy. cbn [vec data_ size_]. unfold holding.
  rewrite (load_prefix (map Some xs)) by lens.
  rewrite destroy_n_live. reflexivity.
Qed.

Lemma Vector_sized_spec (n : Z) (w : World) :
  0 <= n -> n * sizeof_T < 2 ^ 64 ->
  match Vector_sized n w with
  | Normal v w' =>
      v = vec (repeat value_init (Z.to_nat n)) n /\ n <= max_slots /\
      live w' = live w + n
  | Raised _ w' => live w' = live w
  | Undefined => False
  end.
Proof.
  intros Hn Hfit. unfold Vector_sized.
  pose proof (RawMemory_sized_any n w Hn Hfit) as Ha.
  destruct (RawMemory_sized n w) as [d w1|e w1|]; [| |exact Ha].
  2:{ apply Ha. }
  destruct Ha as (-> & Hm & Hl & _).
  pose proof (uninitialized_value_construct_n_spec (Z.to_nat n) 0 w1) as Hc.
  destruct (uninitialized_value_construct_n (Z.to_nat n) 0 w1)
    as [xs w2|e w2|]; [| |exact Hc].
  2:{ lia. }
  destruct Hc as [-> ->].
  rewrite <- (app_nil_r (repeat None (Z.to_nat n))).
  rewrite (store_prefix (repeat None (Z.to_nat n))) by lens.
  split; [|split; [exact Hm|simpl; lia]].
  unfold vec, holding. rewrite repeat_length, Z2Nat.id, Z.sub_diag by lia.
  reflexivity.
Qed.

Lemma Vector_copy_spec (xs : list T) (cap : Z) (w : World) :
  Z.of_nat (length xs) <= cap <= max_slots ->
  match Vector_copy (vec xs cap) w with
  | Normal v w' =>
      v = vec xs (Z.of_nat (length xs)) /\
      live w' = live w + Z.of_nat (length xs) /\
      ops w' = (ops w + length xs)%nat
  | Raised _ w' => live w' = live w
  | Undefined => False
  end.
Proof.
  intros Hb. unfold Vector_copy. cbn [vec data_ size_].
  assert (Hfit : Z.of_nat (length xs) * sizeof_T < 2 ^ 64)
    by (apply within_representable; lia).
  pose proof (RawMemory_sized_any (Z.of_nat (length xs)) w ltac:(lia) Hfit)
    as Ha.
  destruct (RawMemory_sized (Z.of_nat (length xs)) w) as [d w1|e w1|];
    [| |exact Ha].
  2:{ apply Ha. }
  destruct Ha as (-> & Hm & Hl & Ho & _).
  unfold holding at 1.
  rewrite (load_prefix (map Some xs)) by lens.
  pose proof (uninitialized_copy_n_spec xs 0 w1) as Hc.
  destruct (uninitialized_copy_n (map Some xs) 0 w1) as [ys w2|e w2|];
    [| |exact Hc].
  2:{ lia. }
  destruct Hc as [-> ->].
  rewrite <- (app_nil_r (repeat None (Z.to_nat (Z.of_nat (length xs))))).
  rewrite (store_prefix (repeat None (Z.to_nat (Z.of_nat (length xs)))))
    by lens.
  split; [|split; simpl; lia].
  unfold vec, holding. rewrite Z.sub_diag. reflexivity.
Qed.

Lemma Reserve_noop (c : Z) (v : Vector) (w : World) :
  c <= Capacity v -> Reserve c v w = Normal v w.
Proof.
  intros H. unfold Reserve.
  destruct (Z.leb_spec c (Capacity v)); [reflexivity|lia].
Qed.

(** [Reserve(c)] beyond the capacity.  A request whose byte count wraps
    around gets a block that is too small: the call then overruns the
    block, or returns a vector whose capacity exceeds its storage. *)
Lemma Reserve_grow_spec (c : Z) (xs : list T) (cap : Z) (w : World) :
  Z.of_nat (length xs) <= cap <= max_slots -> cap < c ->
  match Reserve c (vec xs cap) w with
  | Normal v' w' =>
      size_ v' = Z.of_nat (length xs) /\ Capacity v' = c /\
      live w' = live w /\ news w' = S (news w) /\
      (c * sizeof_T < 2 ^ 64 -> v' = vec xs c /\ c <= max_slots)
  | Raised v' w' =>
      live w' = live w /\
      (transfers_by_move = false \/ nothrow_move_constructible = true ->
       v' = vec xs cap) /\
      exists xs', v' = vec xs' cap /\ length xs' = length xs
  | Undefined => 2 ^ 64 <= c * sizeof_T
  end.
Proof.
  intros Hb Hc. unfold Reserve. cbn [vec data_ size_ Capacity capacity_].
  destruct (Z.leb_spec c cap); [lia|].
  pose proof (RawMemory_sized_block c w ltac:(lia)) as Ha.
  destruct (RawMemory_sized c w) as [nd w1|e w1|]; [| |destruct Ha].
  2:{ subst w1. split; [reflexivity|]. split; [reflexivity|].
      exists xs. split; reflexivity. }
  destruct Ha as (-> & k & -> & Hk).
  unfold holding at 1.
  rewrite (load_prefix (map Some xs)) by lens.
  pose proof (CopyOrMoveToNewBuffer_spec xs (requested w)) as Ht.
  destruct (CopyOrMoveToNewBuffer (map Some xs) (requested w))
    as [[src ys] w2|src w2|]; [| |destruct Ht].
  - destruct Ht as (-> & -> & ->).
    destruct (Z_lt_le_dec (c * sizeof_T) (2 ^ 64)) as [Hfit|Hwrap].
    + destruct (Hk Hfit) as (-> & Hm).
      replace (repeat (@None T) (Z.to_nat c))
        with (repeat (@None T) (length xs)
              ++ repeat None (Z.to_nat (c - Z.of_nat (length xs))))
        by (apply repeat_join; lia).
      rewrite (store_prefix (repeat None (length xs))) by lens.
      rewrite destroy_n_live.
      split; [reflexivity|]. split; [reflexivity|].
      split; [destruct transfers_by_move; rewrite ?length_map; simpl; lia|].
      split; [reflexivity|]. intros _. split; [reflexivity|exact Hm].
    + destruct (store 0 (map Some xs) (mkRaw (repeat None k) c))
        as [nd1|] eqn:Est; [|exact Hwrap].
      rewrite destroy_n_live. apply store_capacity in Est.
      split; [reflexivity|]. split; [exact Est|].
      split; [destruct transfers_by_move; rewrite ?length_map; simpl; lia|].
      split; [reflexivity|]. intros Hfit. lia.
  - destruct Ht as (Hl & Hn & Ho & Hnt & Hcopy & xs' & -> & Hlen).
    unfold holding.
    rewrite (store_prefix (map Some xs)) by lens.
    split; [exact Hl|]. split.
    + intros [Hm'|Hm']; [|congruence].
      rewrite (Hcopy Hm'). reflexivity.
    + exists xs'. split; [|exact Hlen].
      unfold vec, holding. rewrite Hlen. reflexivity.
Qed.

Lemma Resize_shrink_spec (l1 l2 : list T) (cap : Z) (w : World) :
  Z.of_nat (length (l1 ++ l2)) <= cap <= max_slots -> l2 <> [] ->
  Resize (Z.of_nat (length l1)) (vec (l1 ++ l2) cap) w
  = Normal (vec l1 cap) (destroyed (Z.of_nat (length l2)) w).
Proof.
  intros Hb Hl2. pose proof max_slots_lt as Hmax.
  assert (Hpos : (0 < length l2)%nat)
    by (destruct l2; [congruence|simpl; lia]).
  assert (Hn : length (l1 ++ l2) = (length l1 + length l2)%nat) by lens.
  unfold Resize. cbn [vec data_ size_].
  destruct (Z.ltb_spec (Z.of_nat (length l1)) (Z.of_nat (length (l1 ++ l2))));
    [|lia].
  replace (wrap (Z.of_nat (length (l1 ++ l2)) - Z.of_nat (length l1)))
    with (Z.of_nat (length l2)) by (rewrite wrap_small; lia).
  rewrite holding_app.
  rewrite (load_mid (map Some l1) (map Some l2)) by lens.
  rewrite destroy_n_live.
  rewrite (store_mid (map Some l1) (map Some l2)) by lens.
  f_equal. unfold vec. f_equal. f_equal. unfold holding. f_equal.
  apply repeat_join. lia.
Qed.

(** [Resize(n)] to at least the size.  The storage is asked for by
    [Reserve(n)]; when the byte count of the request wraps around, the
    block is too small and the call overruns it, or leaves a vector
    whose capacity exceeds its storage. *)
Lemma Resize_grow_spec (n : Z) (xs : list T) (cap : Z) (w : World) :
  Z.of_nat (length xs) <= cap <= max_slots -> Z.of_nat (length xs) <= n ->
  n < 2 ^ 64 ->
  match Resize n (vec xs cap) w with
  | Normal v' w' =>
      size_ v' = n /\ Capacity v' = Z.max cap n /\
      live w' = live w + (n - Z.of_nat (length xs)) /\
      (n * sizeof_T < 2 ^ 64 ->
       v' = vec (xs ++ repeat value_init (Z.to_nat n - length xs))
              (Z.max cap n) /\
       Z.max cap n <= max_slots)
  | Raised v' w' =>
      live w' = live w /\ size_ v' = Z.of_nat (length xs) /\
      (Capacity v' = cap \/ Capacity v' = Z.max cap n) /\
      (n * sizeof_T < 2 ^ 64 ->
       Capacity v' <= max_slots /\
       (transfers_by_move = false \/ nothrow_move_constructible = true ->
        v' = vec xs (Capacity v')) /\
       exists xs', v' = vec xs' (Capacity v') /\ length xs' = length xs)
  | Undefined => 2 ^ 64 <= n * sizeof_T
  end.
Proof.
  intros Hb Hn Hlt. pose proof max_slots_lt as Hmax.
  unfold Resize. cbn [vec data_ size_].
  destruct (Z.ltb_spec n (Z.of_nat (length xs))); [lia|].
  fold (vec xs cap).
  assert (Hres :
    match Reserve n (vec xs cap) w with
    | Normal v1 w1 =>
        size_ v1 = Z.of_nat (length xs) /\ Capacity v1 = Z.max cap n /\
        live w1 = live w /\
        (n * sizeof_T < 2 ^ 64 ->
         v1 = vec xs (Z.max cap n) /\ Z.max cap n <= max_slots)
    | Raised v' w' =>
        live w' = live w /\
        (transfers_by_move = false \/ nothrow_move_constructible = true ->
         v' = vec xs cap) /\
        exists xs', v' = vec xs' cap /\ length xs' = length xs
    | Undefined => 2 ^ 64 <= n * sizeof_T
    end).
  { destruct (Z.le_gt_cases n cap) as [Hle|Hgt].
    - rewrite Reserve_noop by exact Hle.
      rewrite Z.max_l by lia.
      split; [reflexivity|]. split; [reflexivity|]. split; [reflexivity|].
      intros _. split; [reflexivity|lia].
    - pose proof (Reserve_grow_spec n xs cap w Hb ltac:(lia)) as Hr.
      destruct (Reserve n (vec xs cap) w) as [v1 w1|v1 w1|]; [| |exact Hr].
      + destruct Hr as (Hs & Hc & Hl & _ & Hfit). rewrite Z.max_r by lia.
        split; [exact Hs|]. split; [exact Hc|]. split; [exact Hl|exact Hfit].
      + exact Hr. }
  destruct (Reserve n (vec xs cap) w) as [v1 w1|v1 w1|]; [| |exact Hres].
  2:{ destruct Hres as (Hl & Hsame & xs' & -> & Hlen).
      split; [exact Hl|]. split; [cbn [vec size_]; lia|].
      split; [left; reflexivity|]. intros _.
      split; [cbn; lia|]. split.
      - intros Hm. rewrite (Hsame Hm). reflexivity.
      - exists xs'. split; [reflexivity|exact Hlen]. }
  destruct Hres as (Hs1 & Hc1 & Hl1 & Hfit1).
  rewrite Hs1.
  replace (wrap (n - Z.of_nat (length xs)))
    with (n - Z.of_nat (length xs)) by (rewrite wrap_small; lia).
  set (m := Z.to_nat (n - Z.of_nat (length xs))).
  pose proof (uninitialized_value_construct_n_spec m 0 w1) as Hc.
  destruct (uninitialized_value_construct_n m 0 w1) as [ys w2|e w2|];
    [| |destruct Hc].
  2:{ split; [lia|]. split; [exact Hs1|]. split; [right; exact Hc1|].
      intros Hfit. destruct (Hfit1 Hfit) as (-> & Hm).
      split; [exact Hm|]. split.
      - intros _. reflexivity.
      - exists xs. split; reflexivity. }
  destruct Hc as [-> ->].
  destruct (Z_lt_le_dec (n * sizeof_T) (2 ^ 64)) as [Hfit|Hwrap].
  - destruct (Hfit1 Hfit) as (-> & Hm).
    set (c := Z.max cap n) in *.
    cbn [vec data_ size_]. unfold holding.
    replace (repeat (@None T) (Z.to_nat (c - Z.of_nat (length xs))))
      with (repeat (@None T) m ++ repeat None (Z.to_nat (c - n)))
      by (apply repeat_join; unfold m; lia).
    rewrite (store_mid (map Some xs) (repeat None m)) by lens.
    split; [reflexivity|]. split; [reflexivity|].
    split; [simpl; unfold m; lia|]. intros _. split; [|exact Hm].
    replace (Z.to_nat n - length xs)%nat with m by (unfold m; lia).
    unfold vec. f_equal.
    + f_equal. unfold holding. rewrite map_app, <- app_assoc.
      do 3 f_equal. lens.
    + lens.
  - destruct (store (Z.of_nat (length xs))
                (map Some (repeat value_init m)) (data_ v1))
      as [d1|] eqn:Est; [|exact Hwrap].
    apply store_capacity in Est.
    split; [reflexivity|].
    split; [unfold Capacity in *; cbn [data_]; congruence|].
    split; [simpl; unfold m; lia|]. intros Hfit. lia.
Qed.

End CapacityFacts.

(** ** Copy assignment *)

Section AssignFacts.
Context {Elem : ElementType} {Sched : Schedule}.

(** The source does not fit: copy and swap. *)
Lemma copy_assign_swap_spec (xs ys : list T) (cap capr : Z) (w : World) :
  Z.of_nat (length xs) <= cap <= max_slots ->
  Z.of_nat (length ys) <= capr <= max_slots ->
  cap < Z.of_nat (length ys) ->
  match Vector_copy_assign (vec xs cap) (Other (vec ys capr)) w with
  | Normal v' w' =>
      v' = vec ys (Z.of_nat (length ys)) /\
      live w' = live w + Z.of_nat (length ys) - Z.of_nat (length xs)
  | Raised v' w' => v' = vec xs cap /\ live w' = live w
  | Undefined => False
  end.
Proof.
  intros Hb Hr Hgt. unfold Vector_copy_assign.
  cbn [vec data_ size_ Capacity capacity_].
  destruct (Z.gtb_spec (Z.of_nat (length ys)) cap); [|lia].
  fold (vec ys capr).
  pose proof (Vector_copy_spec ys capr w Hr) as Hc.
  destruct (Vector_copy (vec ys capr) w) as [c w1|e w1|]; [| |exact Hc].
  2:{ split; [reflexivity|exact Hc]. }
  destruct Hc as (-> & Hl & _).
  unfold Swap, RawMemory_Swap. cbn [vec data_ size_ buffer_ capacity_].
  fold (vec xs cap). rewrite Vector_destroy_spec.
  split; [reflexivity|]. simpl. lia.
Qed.

(** The source fits and is shorter than the destination. *)
Lemma copy_assign_shrink_spec (xa xb ys : list T) (cap capr : Z)
  (w : World) :
  Z.of_nat (length (xa ++ xb)) <= cap <= max_slots ->
  Z.of_nat (length ys) <= capr <= max_slots ->
  length ys = length xa -> xb <> [] ->
  match Vector_copy_assign (vec (xa ++ xb) cap) (Other (vec ys capr)) w with
  | Normal v' w' =>
      v' = vec ys cap /\
      w' = destroyed (Z.of_nat (length xb)) (assigned (length ys) w)
  | Raised v' w' =>
      live w' = live w /\ news w' = news w /\
      exists xs', v' = vec xs' cap /\ length xs' = length (xa ++ xb)
  | Undefined => False
  end.
Proof.
  intros Hb Hr Hlen Hxb. pose proof max_slots_lt as Hmax.
  assert (Hpos : (0 < length xb)%nat)
    by (destruct xb; [congruence|simpl; lia]).
  assert (Hn : length (xa ++ xb) = (length xa + length xb)%nat) by lens.
  unfold Vector_copy_assign. cbn [vec data_ size_ Capacity capacity_].
  destruct (Z.gtb_spec (Z.of_nat (length ys)) cap); [lia|].
  rewrite Z.min_r by lia.
  unfold holding at 1.
  rewrite (load_prefix (map Some ys)) by lens.
  rewrite holding_app.
  rewrite (load_prefix (map Some xa)) by lens.
  pose proof (copy_n_spec ys xa w ltac:(lia)) as Hc.
  destruct (copy_n (map Some ys) (map Some xa) w) as [d w1|d w1|];
    [| |exact Hc].
  - destruct Hc as [-> ->].
    rewrite (store_prefix (map Some xa)) by lens.
    destruct (Z.ltb_spec (Z.of_nat (length ys))
                (Z.of_nat (length (xa ++ xb)))); [|lia].
    replace (wrap (Z.of_nat (length (xa ++ xb)) - Z.of_nat (length ys)))
      with (Z.of_nat (length xb)) by (rewrite wrap_small; lia).
    rewrite (load_mid (map Some ys) (map Some xb)) by lens.
    rewrite destroy_n_live.
    rewrite (store_mid (map Some ys) (map Some xb)) by lens.
    split; [|reflexivity].
    unfold vec. f_equal. f_equal. unfold holding. f_equal.
    apply repeat_join. lia.
  - destruct Hc as (Hl & Hnw & ds' & -> & Hlen').
    rewrite (store_prefix (map Some xa)) by lens.
    split; [exact Hl|]. split; [exact Hnw|].
    exists (ds' ++ xb). split; [|lens].
    unfold vec. rewrite holding_app.
    replace (length (ds' ++ xb)) with (length (xa ++ xb)) by lens.
    reflexivity.
Qed.

(** The source fits and is at least as long as the destination. *)
Lemma copy_assign_extend_spec (xs ya yb : list T) (cap capr : Z)
  (w : World) :
  Z.of_nat (length xs) <= cap <= max_slots ->
  Z.of_nat (length (ya ++ yb)) <= capr <= max_slots ->
  Z.of_nat (length (ya ++ yb)) <= cap ->
  length ya = length xs ->
  match Vector_copy_assign (vec xs cap) (Other (vec (ya ++ yb) capr)) w with
  | Normal v' w' =>
      v' = vec (ya ++ yb) cap /\
      w' = built (length yb) (assigned (length ya) w)
  | Raised v' w' =>
      live w' = live w /\ news w' = news w /\
      exists xs', v' = vec xs' cap /\ length xs' = length xs
  | Undefined => False
  end.
Proof.
  intros Hb Hr Hfit Hlen. pose proof max_slots_lt as Hmax.
  assert (Hn : length (ya ++ yb) = (length ya + length yb)%nat) by lens.
  unfold Vector_copy_assign. cbn [vec data_ size_ Capacity capacity_].
  destruct (Z.gtb_spec (Z.of_nat (length (ya ++ yb))) cap); [lia|].
  rewrite Z.min_l by lia.
  rewrite holding_app.
  rewrite (load_prefix (map Some ya)) by lens.
  unfold holding.
  rewrite (load_prefix (map Some xs)) by lens.
  pose proof (copy_n_spec ya xs w ltac:(lia)) as Hc.
  destruct (copy_n (map Some ya) (map Some xs) w) as [d w1|d w1|];
    [| |exact Hc].
  - destruct Hc as [-> ->].
    rewrite (store_prefix (map Some xs)) by lens.
    destruct (Z.ltb_spec (Z.of_nat (length (ya ++ yb)))
                (Z.of_nat (length xs))); [lia|].
    replace (wrap (Z.of_nat (length (ya ++ yb)) - Z.of_nat (length xs)))
      with (Z.of_nat (length yb)) by (rewrite wrap_small; lia).
    rewrite (load_mid (map Some ya) (map Some yb)) by lens.
    pose proof (uninitialized_copy_n_spec yb 0 (assigned (length ya) w))
      as Hu.
    destruct (uninitialized_copy_n (map Some yb) 0 (assigned (length ya) w))
      as [zs w2|e w2|]; [| |exact Hu].
    + destruct Hu as [-> ->].
      replace (repeat (@None T) (Z.to_nat (cap - Z.of_nat (length xs))))
        with (repeat (@None T) (length yb)
              ++ repeat None (Z.to_nat (cap - Z.of_nat (length (ya ++ yb)))))
        by (apply repeat_join; lia).
      rewrite (store_mid (map Some ya) (repeat None (length yb))) by lens.
      split; [|reflexivity].
      unfold vec. rewrite holding_app. reflexivity.
    + destruct Hu as (Hl & Hnw & _). simpl in Hl, Hnw.
      split; [lia|]. split; [exact Hnw|].
      exists ya. split; [|exact Hlen].
      unfold vec, holding. rewrite Hlen. reflexivity.
  - destruct Hc as (Hl & Hnw & ds' & -> & Hlen').
    rewrite (store_prefix (map Some xs)) by lens.
    split; [exact Hl|]. split; [exact Hnw|].
    exists ds'. split; [|lia].
    unfold vec, holding. replace (length ds') with (length xs) by lia.
    reflexivity.
Qed.

End AssignFacts.

(** ** The operations on well-formed vectors *)

Lemma split_at {A : Type} (xs : list A) (i : Z) :
  0 <= i <= Z.of_nat (length xs) ->
  Z.of_nat (length (firstn (Z.to_nat i) xs)) = i.
Proof. intros H. rewrite length_firstn. lia. Qed.

Lemma elem_split {A : Type} (xs : list A) (i : Z) :
  0 <= i < Z.of_nat (length xs) ->
  exists l1 d l2,
    xs = l1 ++ d :: l2 /\ i = Z.of_nat (length l1) /\
    nth_error xs (Z.to_nat i) = Some d /\
    firstn (Z.to_nat i) xs = l1 /\ skipn (S (Z.to_nat i)) xs = l2.
Proof.
  intros H.
  destruct (nth_error xs (Z.to_nat i)) as [d|] eqn:E.
  - destruct (nth_error_split xs (Z.to_nat i) E) as (l1 & l2 & -> & Hl).
    exists l1, d, l2. split; [reflexivity|]. split; [lia|].
    split; [reflexivity|]. rewrite <- Hl. split.
    + rewrite firstn_app, firstn_all, Nat.sub_diag. simpl. apply app_nil_r.
    + change (l1 ++ d :: l2) with (l1 ++ [d] ++ l2).
      rewrite app_assoc.
      replace (S (length l1)) with (length (l1 ++ [d])) by lens.
      rewrite skipn_app, skipn_all, Nat.sub_diag. reflexivity.
  - apply nth_error_None in E. lia.
Qed.

Section AbsFacts.
Context {Elem : ElementType} {Sched : Schedule}.

Lemma Abs_elim (v : Vector) (xs : list T) :
  Abs v xs ->
  exists cap, v = vec xs cap /\ Z.of_nat (length xs) <= cap <= max_slots.
Proof. intros [Hv Hb]. exists (Capacity v). split; assumption. Qed.

Lemma Abs_size (v : Vector) (xs : list T) :
  Abs v xs -> size_ v = Z.of_nat (length xs).
Proof. intros H. destruct (Abs_elim v xs H) as (cap & -> & _). reflexivity. Qed.

Lemma Abs_capacity (v : Vector) (xs : list T) :
  Abs v xs -> size_ v <= Capacity v <= max_slots.
Proof.
  intros H. destruct (Abs_elim v xs H) as (cap & -> & Hb). exact Hb.
Qed.

Lemma map_Some_inj (xs ys : list T) : map Some xs = map Some ys -> xs = ys.
Proof.
  revert ys. induction xs as [|x xs IH]; intros [|y ys] H;
    try discriminate; [reflexivity|].
  simpl in H. injection H as -> H. f_equal. apply IH. exact H.
Qed.

Lemma Abs_unique (v : Vector) (xs ys : list T) :
  Abs v xs -> Abs v ys -> xs = ys.
Proof.
  intros Hx Hy.
  destruct (Abs_elim v xs Hx) as (cap & -> & _).
  destruct (Abs_elim _ ys Hy) as (cap' & E & _).
  unfold vec in E. injection E as Hbuf Hcap Hlen. subst cap'.
  apply Nat2Z.inj in Hlen. unfold holding in Hbuf. rewrite Hlen in Hbuf.
  apply app_inv_tail in Hbuf. apply map_Some_inj. exact Hbuf.
Qed.

Lemma Abs_at_index (v : Vector) (xs : list T) (i : Z) :
  Abs v xs -> 0 <= i < Z.of_nat (length xs) ->
  at_index v i = nth_error xs (Z.to_nat i).
Proof.
  intros H Hi. destruct (Abs_elim v xs H) as (cap & -> & Hb).
  destruct (elem_split xs i Hi) as (l1 & d & l2 & Hx & Hl & Hn & _).
  rewrite Hn. subst xs. unfold at_index. cbn [vec data_].
  change (l1 ++ d :: l2) with (l1 ++ [d] ++ l2).
  unfold holding. rewrite !map_app, <- !app_assoc.
  rewrite (load_mid (map Some l1) (map Some [d])) by lens.
  reflexivity.
Qed.

Lemma Abs_Invariant (v : Vector) (xs : list T) : Abs v xs -> Invariant v.
Proof.
  intros H. pose proof (Abs_size v xs H) as Hs.
  pose proof (Abs_capacity v xs H) as Hc.
  split; [lia|]. intros i Hi.
  rewrite (Abs_at_index v xs i H) by lia.
  destruct (nth_error xs (Z.to_nat i)) as [x|] eqn:E; [exists x; reflexivity|].
  apply nth_error_None in E. lia.
Qed.

Lemma Abs_default : Abs Vector_default [].
Proof.
  split; [reflexivity|]. split; [apply Z.le_refl|apply max_slots_nonneg].
Qed.

Lemma EmplaceBack_Abs (k : special) (x : T) (v : Vector) (xs : list T)
  (w : World) :
  Abs v xs ->
  match EmplaceBack k x v w with
  | Normal (v', r) w' =>
      Abs v' (xs ++ [x]) /\ r = size_ v /\
      Capacity v' = (if size_ v =? Capacity v
                     then Z.max 1 (2 * size_ v) else Capacity v) /\
      live w' = live w + 1
  | Raised v' w' =>
      live w' = live w /\
      (transfers_by_move = false \/ nothrow_move_constructible = true ->
       v' = v) /\
      exists xs', Abs v' xs' /\ length xs' = length xs
  | Undefined => False
  end.
Proof.
  intros H. destruct (Abs_elim v xs H) as (cap & -> & Hb).
  pose proof (EmplaceBack_spec k x xs cap w Hb) as Hs.
  destruct (EmplaceBack k x (vec xs cap) w) as [[v' r] w'|v' w'|];
    [| |exact Hs].
  - destruct Hs as (-> & -> & Hc & Hl).
    split; [apply Abs_vec; exact Hc|].
    split; [reflexivity|]. split; [reflexivity|exact Hl].
  - destruct Hs as (Hl & Hsame & xs' & -> & Hlen).
    split; [exact Hl|]. split; [exact Hsame|].
    exists xs'. split; [apply Abs_vec; lia|exact Hlen].
Qed.

Lemma PushBack_Abs (m : bool) (x : T) (v : Vector) (xs : list T)
  (w : World) :
  Abs v xs ->
  match PushBack m x v w with
  | Normal v' w' =>
      Abs v' (xs ++ [x]) /\
      Capacity v' = (if size_ v =? Capacity v
                     then Z.max 1 (2 * size_ v) else Capacity v) /\
      live w' = live w + 1
  | Raised v' w' =>
      live w' = live w /\
      (transfers_by_move = false \/ nothrow_move_constructible = true ->
       v' = v) /\
      exists xs', Abs v' xs' /\ length xs' = length xs
  | Undefined => False
  end.
Proof.
  intros H. unfold PushBack.
  pose proof (EmplaceBack_Abs (if m then MoveCtor else CopyCtor) x v xs w H)
    as Hs.
  destruct (EmplaceBack (if m then MoveCtor else CopyCtor) x v w)
    as [[v' r] w'|v' w'|]; [| |exact Hs].
  - destruct Hs as (Ha & _ & Hc & Hl).
    split; [exact Ha|]. split; [exact Hc|exact Hl].
  - exact Hs.
Qed.

Lemma Emplace_Abs (i : Z) (k : special) (x : T) (v : Vector) (xs : list T)
  (w : World) :
  Abs v xs -> 0 <= i <= size_ v ->
  match Emplace i k x v w with
  | Normal (v', r) w' =>
      Abs v' (firstn (Z.to_nat i) xs ++ x :: skipn (Z.to_nat i) xs) /\
      r = i /\
      Capacity v' = (if size_ v =? Capacity v
                     then Z.max 1 (2 * size_ v) else Capacity v) /\
      live w' = live w + 1
  | Raised v' w' => Capacity v' = Capacity v /\ size_ v' = size_ v
  | Undefined => False
  end.
Proof.
  intros H Hi. destruct (Abs_elim v xs H) as (cap & -> & Hb).
  cbn [vec size_ Capacity data_ capacity_] in *.
  pose proof (split_at xs i Hi) as Hl.
  set (l1 := firstn (Z.to_nat i) xs) in *.
  set (l2 := skipn (Z.to_nat i) xs).
  assert (Hx : xs = l1 ++ l2) by (symmetry; apply firstn_skipn).
  clearbody l1 l2. subst xs i.
  pose proof (Emplace_spec k x l1 l2 cap w Hb) as Hs.
  destruct (Emplace (Z.of_nat (length l1)) k x (vec (l1 ++ l2) cap) w)
    as [[v' r] w'|v' w'|]; [| |exact Hs].
  - destruct Hs as (-> & -> & Hc & Hlv).
    split; [apply Abs_vec; exact Hc|].
    split; [reflexivity|]. split; [reflexivity|exact Hlv].
  - exact Hs.
Qed.

Lemma Erase_Abs (i : Z) (v : Vector) (xs : list T) (w : World) :
  Abs v xs -> 0 <= i < size_ v ->
  match Erase i v w with
  | Normal (v', r) w' =>
      Abs v' (firstn (Z.to_nat i) xs ++ skipn (S (Z.to_nat i)) xs) /\
      r = i /\ Capacity v' = Capacity v /\ live w' = live w - 1
  | Raised v' w' =>
      live w' = live w /\ Capacity v' = Capacity v /\
      exists xs', Abs v' xs' /\ length xs' = length xs
  | Undefined => False
  end.
Proof.
  intros H Hi. destruct (Abs_elim v xs H) as (cap & -> & Hb).
  cbn [vec size_ Capacity data_ capacity_] in *.
  destruct (elem_split xs i Hi) as (l1 & d & l2 & Hx & Hl & _ & -> & ->).
  rewrite Hx, Hl in *.
  pose proof (Erase_spec l1 d l2 cap w Hb) as Hs.
  destruct (Erase (Z.of_nat (length l1)) (vec (l1 ++ d :: l2) cap) w)
    as [[v' r] w'|v' w'|]; [| |exact Hs].
  - destruct Hs as (-> & -> & Hlv & _).
    assert (Hlen : length (l1 ++ d :: l2) = S (length (l1 ++ l2))) by lens.
    split; [apply Abs_vec; lia|].
    split; [reflexivity|]. split; [reflexivity|exact Hlv].
  - destruct Hs as (Hlv & xs' & -> & Hlen).
    split; [exact Hlv|]. split; [reflexivity|].
    exists xs'. split; [apply Abs_vec; lia|exact Hlen].
Qed.

Lemma PopBack_Abs (v : Vector) (xs : list T) (w : World) :
  Abs v xs -> 0 < size_ v ->
  exists v', PopBack v w = Normal v' (destroyed 1 w) /\
             Abs v' (removelast xs) /\ Capacity v' = Capacity v.
Proof.
  intros H Hpos. destruct (Abs_elim v xs H) as (cap & -> & Hb).
  cbn [vec size_] in Hpos.
  destruct (exists_last_or_nil xs) as [->|(l & d & ->)]; [simpl in Hpos; lia|].
  exists (vec l cap). rewrite PopBack_spec by exact Hb.
  rewrite removelast_last. split; [reflexivity|].
  split; [|reflexivity]. apply Abs_vec.
  rewrite length_app in Hb. simpl in Hb. lia.
Qed.

Lemma Reserve_Abs (c : Z) (v : Vector) (xs : list T) (w : World) :
  Abs v xs -> c * sizeof_T < 2 ^ 64 ->
  match Reserve c v w with
  | Normal v' w' =>
      Abs v' xs /\
      if c <=? Capacity v then v' = v /\ w' = w
      else Capacity v' = c /\ live w' = live w
  | Raised v' w' =>
      Capacity v < c /\ live w' = live w /\
      (transfers_by_move = false \/ nothrow_move_constructible = true ->
       v' = v) /\
      exists xs', Abs v' xs' /\ length xs' = length xs
  | Undefined => False
  end.
Proof.
  intros H Hfit. destruct (Z.leb_spec c (Capacity v)) as [Hle|Hgt].
  - rewrite Reserve_noop by exact Hle.
    split; [exact H|]. split; reflexivity.
  - destruct (Abs_elim v xs H) as (cap & -> & Hb).
    cbn [vec Capacity data_ capacity_] in *.
    pose proof (Reserve_grow_spec c xs cap w Hb Hgt) as Hs.
    destruct (Reserve c (vec xs cap) w) as [v' w'|v' w'|]; [| |lia].
    + destruct Hs as (_ & _ & Hl & _ & Hs). destruct (Hs Hfit) as (-> & Hm).
      split; [apply Abs_vec; lia|]. split; [reflexivity|exact Hl].
    + destruct Hs as (Hl & Hsame & xs' & -> & Hlen).
      split; [exact Hgt|]. split; [exact Hl|]. split; [exact Hsame|].
      exists xs'. split; [apply Abs_vec; lia|exact Hlen].
Qed.

(** A [Reserve] that throws, whatever it asked for. *)
Lemma Reserve_raised (c : Z) (v : Vector) (xs : list T) (w : World)
  (v' : Vector) (w' : World) :
  Abs v xs -> Reserve c v w = Raised v' w' ->
  Capacity v < c /\ live w' = live w /\
  (transfers_by_move = false \/ nothrow_move_constructible = true ->
   v' = v) /\
  exists xs', Abs v' xs' /\ length xs' = length xs.
Proof.
  intros H Hrun. destruct (Z.leb_spec c (Capacity v)) as [Hle|Hgt].
  - rewrite Reserve_noop in Hrun by exact Hle. discriminate.
  - destruct (Abs_elim v xs H) as (cap & -> & Hb).
    cbn [vec Capacity data_ capacity_] in *.
    pose proof (Reserve_grow_spec c xs cap w Hb Hgt) as Hs.
    rewrite Hrun in Hs. destruct Hs as (Hl & Hsame & xs' & -> & Hlen).
    split; [exact Hgt|]. split; [exact Hl|]. split; [exact Hsame|].
    exists xs'. split; [apply Abs_vec; lia|exact Hlen].
Qed.

(** A [Reserve] that returns, whatever it asked for. *)
Lemma Reserve_returns (c : Z) (v : Vector) (xs : list T) (w : World)
  (v' : Vector) (w' : World) :
  Abs v xs -> Reserve c v w = Normal v' w' ->
  size_ v' = size_ v /\ Capacity v' = Z.max (Capacity v) c /\
  live w' = live w.
Proof.
  intros H Hrun. destruct (Z.leb_spec c (Capacity v)) as [Hle|Hgt].
  - rewrite Reserve_noop in Hrun by exact Hle. injection Hrun as <- <-.
    split; [reflexivity|]. split; [lia|reflexivity].
  - destruct (Abs_elim v xs H) as (cap & -> & Hb).
    cbn [vec Capacity data_ capacity_ size_] in *.
    pose proof (Reserve_grow_spec c xs cap w Hb Hgt) as Hs.
    rewrite Hrun in Hs. destruct Hs as (Hs & Hc & Hl & _).
    split; [exact Hs|]. split; [rewrite Hc; lia|exact Hl].
Qed.

Lemma Resize_Abs (n : Z) (v : Vector) (xs : list T) (w : World) :
  Abs v xs -> 0 <= n -> n * sizeof_T < 2 ^ 64 ->
  match Resize n v w with
  | Normal v' w' =>
      size_ v' = n /\
      if n <? size_ v
      then Abs v' (firstn (Z.to_nat n) xs) /\ Capacity v' = Capacity v /\
           live w' = live w - (size_ v - n)
      else Abs v' (xs ++ repeat value_init (Z.to_nat n - length xs)) /\
           Capacity v' = Z.max (Capacity v) n /\
           live w' = live w + (n - size_ v)
  | Raised v' w' =>
      size_ v <= n /\ size_ v' = size_ v /\ live w' = live w /\
      (Capacity v' = Capacity v \/ Capacity v' = Z.max (Capacity v) n) /\
      exists xs', Abs v' xs' /\ length xs' = length xs
  | Undefined => False
  end.
Proof.
  intros H Hn Hfit. destruct (Abs_elim v xs H) as (cap & -> & Hb).
  cbn [vec size_ Capacity data_ capacity_] in *.
  destruct (Z.ltb_spec n (Z.of_nat (length xs))) as [Hlt|Hge].
  - pose proof (split_at xs n ltac:(lia)) as Hl.
    set (l1 := firstn (Z.to_nat n) xs) in *.
    set (l2 := skipn (Z.to_nat n) xs).
    assert (Hx : xs = l1 ++ l2) by (symmetry; apply firstn_skipn).
    clearbody l1 l2. subst xs n.
    assert (Hl2 : l2 <> []).
    { intros ->. rewrite app_nil_r in Hlt. lia. }
    rewrite Resize_shrink_spec by assumption.
    rewrite length_app in *.
    split; [reflexivity|]. split; [apply Abs_vec; lia|].
    split; [reflexivity|]. simpl. lia.
  - assert (Hlt : n < 2 ^ 64) by (pose proof sizeof_pos; nia).
    pose proof (Resize_grow_spec n xs cap w Hb Hge Hlt) as Hs.
    destruct (Resize n (vec xs cap) w) as [v' w'|v' w'|]; [| |lia].
    + destruct Hs as (_ & _ & Hl & Hs). destruct (Hs Hfit) as (-> & Hm).
      split; [cbn [vec size_]; lens|].
      split; [apply Abs_vec; lens|]. split; [reflexivity|exact Hl].
    + destruct Hs as (Hl & Hsz & Hc & Hs).
      destruct (Hs Hfit) as (Hcm & _ & xs' & Hv & Hlen).
      split; [exact Hge|]. split; [exact Hsz|].
      split; [exact Hl|]. split; [exact Hc|].
      exists xs'. split; [|exact Hlen].
      rewrite Hv at 1. apply Abs_vec.
      destruct Hc as [Hc|Hc]; rewrite Hc in *; lia.
Qed.

(** A [Resize] that returns, whatever it asked for. *)
Lemma Resize_returns (n : Z) (v : Vector) (xs : list T) (w : World)
  (v' : Vector) (w' : World) :
  Abs v xs -> 0 <= n < 2 ^ 64 -> Resize n v w = Normal v' w' ->
  size_ v' = n /\ Capacity v' = Z.max (Capacity v) n /\
  live w' = live w + (n - size_ v).
Proof.
  intros H Hn Hrun. destruct (Abs_elim v xs H) as (cap & -> & Hb).
  cbn [vec size_ Capacity data_ capacity_] in *.
  destruct (Z.ltb_spec n (Z.of_nat (length xs))) as [Hlt|Hge].
  - pose proof (split_at xs n ltac:(lia)) as Hl.
    set (l1 := firstn (Z.to_nat n) xs) in *.
    set (l2 := skipn (Z.to_nat n) xs).
    assert (Hx : xs = l1 ++ l2) by (symmetry; apply firstn_skipn).
    clearbody l1 l2. subst xs n.
    assert (Hl2 : l2 <> []).
    { intros ->. rewrite app_nil_r in Hlt. lia. }
    rewrite Resize_shrink_spec in Hrun by assumption.
    injection Hrun as <- <-. rewrite length_app in *.
    split; [reflexivity|]. split; [cbn; lia|]. simpl. lia.
  - pose proof (Resize_grow_spec n xs cap w Hb Hge ltac:(lia)) as Hs.
    rewrite Hrun in Hs. destruct Hs as (Hs & Hc & Hl & _).
    split; [exact Hs|]. split; [exact Hc|exact Hl].
Qed.

Lemma Vector_copy_Abs (o : Vector) (xs : list T) (w : World) :
  Abs o xs ->
  match Vector_copy o w with
  | Normal v w' =>
      Abs v xs /\ Capacity v = size_ o /\ live w' = live w + size_ o
  | Raised _ w' => live w' = live w
  | Undefined => False
  end.
Proof.
  intros H. destruct (Abs_elim o xs H) as (cap & -> & Hb).
  pose proof (Vector_copy_spec xs cap w Hb) as Hs.
  destruct (Vector_copy (vec xs cap) w) as [v w'|e w'|]; [| |exact Hs].
  - destruct Hs as (-> & Hl & _).
    split; [apply Abs_vec; lia|]. split; [reflexivity|exact Hl].
  - exact Hs.
Qed.

Lemma Vector_sized_Abs (n : Z) (w : World) :
  0 <= n -> n * sizeof_T < 2 ^ 64 ->
  match Vector_sized n w with
  | Normal v w' =>
      Abs v (repeat value_init (Z.to_nat n)) /\ size_ v = n /\
      Capacity v = n /\ live w' = live w + n
  | Raised _ w' => live w' = live w
  | Undefined => False
  end.
Proof.
  intros Hn Hfit. pose proof (Vector_sized_spec n w Hn Hfit) as Hs.
  destruct (Vector_sized n w) as [v w'|e w'|]; [| |exact Hs].
  - destruct Hs as (-> & Hm & Hl).
    split; [apply Abs_vec; lens|].
    split; [cbn [vec size_]; lens|]. split; [reflexivity|exact Hl].
  - exact Hs.
Qed.

Lemma Vector_move_vec (xs : list T) (cap : Z) :
  Vector_move (vec xs cap) = (vec xs cap, Vector_default).
Proof. reflexivity. Qed.

Lemma Vector_move_assign_vec (xs ys : list T) (cap capr : Z) (w : World) :
  Vector_move_assign (vec xs cap) (Other (vec ys capr)) w
  = Normal (vec ys capr, Vector_default) w.
Proof. reflexivity. Qed.

Lemma Swap_vec (xs ys : list T) (cap capr : Z) :
  Swap (vec xs cap) (vec ys capr) = (vec ys capr, vec xs cap).
Proof. reflexivity. Qed.

Lemma copy_assign_Abs (a b : Vector) (xs ys : list T) (w : World) :
  Abs a xs -> Abs b ys ->
  match Vector_copy_assign a (Other b) w with
  | Normal a' w' =>
      Abs a' ys /\ live w' = live w + size_ b - size_ a /\
      if size_ b >? Capacity a then Capacity a' = size_ b
      else Capacity a' = Capacity a /\
           w' = if size_ b <? size_ a
                then destroyed (size_ a - size_ b) (assigned (length ys) w)
                else built (length ys - length xs) (assigned (length xs) w)
  | Raised a' w' =>
      live w' = live w /\ size_ a' = size_ a /\
      Capacity a' = Capacity a /\
      (Capacity a < size_ b -> a' = a) /\
      exists xs', Abs a' xs' /\ length xs' = length xs
  | Undefined => False
  end.
Proof.
  intros Ha Hb.
  destruct (Abs_elim a xs Ha) as (cap & -> & Hca).
  destruct (Abs_elim b ys Hb) as (capr & -> & Hcb).
  cbn [vec size_ Capacity data_ capacity_].
  destruct (Z.gtb_spec (Z.of_nat (length ys)) cap) as [Hgt|Hle].
  - pose proof (copy_assign_swap_spec xs ys cap capr w Hca Hcb ltac:(lia))
      as Hs.
    destruct (Vector_copy_assign (vec xs cap) (Other (vec ys capr)) w)
      as [a' w'|a' w'|]; [| |exact Hs].
    + destruct Hs as (-> & Hl).
      split; [apply Abs_vec; lia|]. split; [exact Hl|reflexivity].
    + destruct Hs as (-> & Hl).
      split; [exact Hl|]. split; [reflexivity|]. split; [reflexivity|].
      split; [reflexivity|]. exists xs. split; [exact Ha|reflexivity].
  - destruct (Z.lt_ge_cases (Z.of_nat (length ys)) (Z.of_nat (length xs)))
      as [Hlt|Hge].
    + pose proof (split_at xs (Z.of_nat (length ys)) ltac:(lia)) as Hl.
      rewrite Nat2Z.id in Hl.
      set (xa := firstn (length ys) xs) in *.
      set (xb := skipn (length ys) xs).
      assert (Hx : xs = xa ++ xb) by (symmetry; apply firstn_skipn).
      clearbody xa xb. subst xs.
      assert (Hxb : xb <> []).
      { intros ->. rewrite app_nil_r in Hlt. lia. }
      pose proof (copy_assign_shrink_spec xa xb ys cap capr w Hca Hcb
                    ltac:(lia) Hxb) as Hs.
      destruct (Vector_copy_assign (vec (xa ++ xb) cap)
                  (Other (vec ys capr)) w) as [a' w'|a' w'|]; [| |exact Hs].
      * destruct Hs as (-> & ->).
        split; [apply Abs_vec; lia|]. rewrite length_app in *.
        split; [simpl; lia|]. split; [reflexivity|].
        destruct (Z.ltb_spec (Z.of_nat (length ys))
                    (Z.of_nat (length xa + length xb))); [|lia].
        f_equal. lia.
      * destruct Hs as (Hlv & Hnw & xs' & -> & Hlen).
        split; [exact Hlv|]. split; [cbn [vec size_]; lia|].
        split; [reflexivity|]. split; [lia|].
        exists xs'. split; [apply Abs_vec; lia|exact Hlen].
    + pose proof (split_at ys (Z.of_nat (length xs)) ltac:(lia)) as Hl.
      rewrite Nat2Z.id in Hl.
      set (ya := firstn (length xs) ys) in *.
      set (yb := skipn (length xs) ys).
      assert (Hy : ys = ya ++ yb) by (symmetry; apply firstn_skipn).
      clearbody ya yb. subst ys.
      pose proof (copy_assign_extend_spec xs ya yb cap capr w Hca Hcb
                    ltac:(lia) ltac:(lia)) as Hs.
      destruct (Vector_copy_assign (vec xs cap)
                  (Other (vec (ya ++ yb) capr)) w) as [a' w'|a' w'|];
        [| |exact Hs].
      * destruct Hs as (-> & ->).
        split; [apply Abs_vec; lia|]. rewrite length_app in *.
        split; [simpl; lia|]. split; [reflexivity|].
        destruct (Z.ltb_spec (Z.of_nat (length ya + length yb))
                    (Z.of_nat (length xs))); [lia|].
        f_equal; [lia|]. f_equal. lia.
      * destruct Hs as (Hlv & Hnw & xs' & -> & Hlen).
        split; [exact Hlv|]. split; [cbn [vec size_]; lia|].
        split; [reflexivity|]. split; [lia|].
        exists xs'. split; [apply Abs_vec; lia|exact Hlen].
Qed.

Lemma drop_result_Normal (r : res (Vector * Z) Vector) (v : Vector)
  (w : World) :
  drop_result r = Normal v w -> exists i, r = Normal (v, i) w.
Proof.
  destruct r as [[v0 i] w0|v0 w0|]; simpl; intros H; try discriminate.
  injection H as -> ->. exists i. reflexivity.
Qed.

Lemma drop_result_Raised (r : res (Vector * Z) Vector) (v : Vector)
  (w : World) :
  drop_result r = Raised v w -> r = Raised v w.
Proof.
  destruct r as [[v0 i] w0|v0 w0|]; simpl; intros H; try discriminate.
  injection H as -> ->. reflexivity.
Qed.

(** A call that returns leaves a well-formed vector. *)
Lemma perform_Abs (op : operation) (v : Vector) (xs : list T) (w : World)
  (v' : Vector) (w' : World) :
  Abs v xs -> admissible op v -> representable op ->
  perform op v w = Normal v' w' ->
  exists xs', Abs v' xs'.
Proof.
  intros H Hadm Hfit Hrun. destruct op; simpl in Hadm, Hfit, Hrun.
  - pose proof (Reserve_Abs capacity v xs w H Hfit) as Hs.
    rewrite Hrun in Hs. exists xs. apply Hs.
  - pose proof (Resize_Abs new_size v xs w H ltac:(lia) Hfit) as Hs.
    rewrite Hrun in Hs. destruct Hs as (_ & Hs).
    destruct (new_size <? size_ v); eexists; apply Hs.
  - pose proof (PushBack_Abs by_move value v xs w H) as Hs.
    rewrite Hrun in Hs. eexists. apply Hs.
  - apply drop_result_Normal in Hrun as (i & Hrun).
    pose proof (EmplaceBack_Abs k x v xs w H) as Hs.
    rewrite Hrun in Hs. eexists. apply Hs.
  - destruct (PopBack_Abs v xs w H Hadm) as (v1 & Hp & Ha & _).
    rewrite Hp in Hrun. injection Hrun as -> _. eexists. exact Ha.
  - apply drop_result_Normal in Hrun as (i & Hrun). unfold Insert in Hrun.
    pose proof (Emplace_Abs index (if by_move then MoveCtor else CopyCtor)
                  value v xs w H Hadm) as Hs.
    rewrite Hrun in Hs. eexists. apply Hs.
  - apply drop_result_Normal in Hrun as (i & Hrun).
    pose proof (Emplace_Abs index k x v xs w H Hadm) as Hs.
    rewrite Hrun in Hs. eexists. apply Hs.
  - apply drop_result_Normal in Hrun as (i & Hrun).
    pose proof (Erase_Abs index v xs w H Hadm) as Hs.
    rewrite Hrun in Hs. eexists. apply Hs.
Qed.

(** Without exceptions every reachable vector is well-formed. *)
Lemma reachable_Abs (v : Vector) :
  reachable false v -> exists xs, Abs v xs.
Proof.
  intros H. induction H; try discriminate.
  - exists []. apply Abs_default.
  - pose proof (Vector_sized_Abs n w H H0) as Hs.
    rewrite H1 in Hs. eexists. apply Hs.
  - destruct IHreachable as (xs & Ha).
    pose proof (Vector_copy_Abs o xs w Ha) as Hs. rewrite H0 in Hs.
    exists xs. apply Hs.
  - destruct IHreachable as (xs & Ha).
    destruct (Abs_elim o xs Ha) as (cap & -> & Hb).
    exists xs. exact Ha.
  - exists []. destruct o as [[b c] s]. apply Abs_default.
  - destruct IHreachable as (xs & Ha).
    apply (perform_Abs op v xs w v' w' Ha H0 H1 H2).
  - destruct IHreachable as (xs & Ha).
    simpl in H0. injection H0 as -> _. exists xs. exact Ha.
  - destruct IHreachable1 as (xs & Ha).
    destruct IHreachable2 as (ys & Hb).
    pose proof (copy_assign_Abs v o xs ys w Ha Hb) as Hs.
    rewrite H1 in Hs. exists ys. apply Hs.
  - destruct IHreachable2 as (ys & Hb).
    simpl in H1. injection H1 as <- _ _.
    destruct (Abs_elim o ys Hb) as (cap & -> & Hc). exists ys. exact Hb.
  - simpl in H1. injection H1 as _ <- _. exists []. apply Abs_default.
  - destruct IHreachable2 as (ys & Hb).
    destruct (Abs_elim o ys Hb) as (cap & -> & Hc). exists ys. exact Hb.
  - destruct IHreachable1 as (xs & Ha).
    destruct (Abs_elim v xs Ha) as (cap & -> & Hc). exists xs. exact Ha.
Qed.

(** Without exceptions every reachable vector satisfies the invariant of
    the data model. *)
Lemma reachable_Invariant (v : Vector) :
  reachable false v -> Invariant v.
Proof.
  intros H. destruct (reachable_Abs v H) as (xs & Ha).
  apply (Abs_Invariant v xs Ha).
Qed.

End AbsFacts.

(** ** When nothing throws *)

Section QuietFacts.
Context {Elem : ElementType} {Sched : Schedule}.
Hypothesis Hquiet : quiet.

Lemma fails_quiet (k : special) (n : nat) : fails k n = false.
Proof.
  destruct Hquiet as [Ht _]. unfold fails.
  destruct k; rewrite ?Ht; try reflexivity. apply andb_false_r.
Qed.

Lemma construct_quiet (k : special) (x : T) (w : World) :
  construct k x w = Normal x (created (tick w)).
Proof. unfold construct. rewrite fails_quiet. reflexivity. Qed.

Lemma assign_quiet (k : special) (w : World) :
  assign k w = Normal tt (tick w).
Proof. unfold assign. rewrite fails_quiet. reflexivity. Qed.

Lemma uninitialized_value_construct_n_quiet (n : nat) :
  forall (done : Z) (w : World) (e : unit) (w' : World),
    uninitialized_value_construct_n n done w <> Raised e w'.
Proof.
  induction n as [|n IH]; intros done w e w'; simpl; [discriminate|].
  rewrite construct_quiet.
  destruct (uninitialized_value_construct_n n (done + 1) (created (tick w)))
    as [xs w2|e2 w2|] eqn:E; try discriminate.
  exfalso. exact (IH _ _ _ _ E).
Qed.

Lemma uninitialized_copy_n_quiet (src : list (option T)) :
  forall (done : Z) (w : World) (e : unit) (w' : World),
    uninitialized_copy_n src done w <> Raised e w'.
Proof.
  induction src as [|[x|] rest IH]; intros done w e w'; simpl;
    try discriminate.
  rewrite construct_quiet.
  destruct (uninitialized_copy_n rest (done + 1) (created (tick w)))
    as [ys w2|e2 w2|] eqn:E; try discriminate.
  exfalso. exact (IH _ _ _ _ E).
Qed.

Lemma uninitialized_move_n_quiet (src : list (option T)) :
  forall (done : Z) (w : World) (e : list (option T)) (w' : World),
    uninitialized_move_n src done w <> Raised e w'.
Proof.
  induction src as [|[x|] rest IH]; intros done w e w'; simpl;
    try discriminate.
  rewrite construct_quiet.
  destruct (uninitialized_move_n rest (done + 1) (created (tick w)))
    as [[src' ys] w2|e2 w2|] eqn:E; try discriminate.
  exfalso. exact (IH _ _ _ _ E).
Qed.

Lemma CopyOrMoveToNewBuffer_quiet (from : list (option T)) (w : World)
  (e : list (option T)) (w' : World) :
  CopyOrMoveToNewBuffer from w <> Raised e w'.
Proof.
  unfold CopyOrMoveToNewBuffer.
  destruct (nothrow_move_constructible || negb copy_constructible).
  - apply uninitialized_move_n_quiet.
  - destruct (uninitialized_copy_n from 0 w) as [ys w2|e2 w2|] eqn:E;
      try discriminate.
    exfalso. exact (uninitialized_copy_n_quiet _ _ _ _ _ E).
Qed.

Lemma move_chain_quiet (rest : list (option T)) :
  forall (d : option T) (w : World) (e : list (option T)) (w' : World),
    move_chain d rest w <> Raised e w'.
Proof.
  induction rest as [|s rest IH]; intros d w e w'; simpl; [discriminate|].
  destruct d as [d|]; [|discriminate]. destruct s as [x|]; [|discriminate].
  rewrite assign_quiet.
  destruct (move_chain (Some (moved_from x)) rest (tick w))
    as [l w2|l w2|] eqn:E; try discriminate.
  exfalso. exact (IH _ _ _ _ E).
Qed.

Lemma move_left_quiet (rng : list (option T)) (w : World)
  (e : list (option T)) (w' : World) :
  move_left rng w <> Raised e w'.
Proof.
  unfold move_left. destruct rng; [discriminate|apply move_chain_quiet].
Qed.

Lemma move_backward_quiet (rng : list (option T)) (w : World)
  (e : list (option T)) (w' : World) :
  move_backward rng w <> Raised e w'.
Proof.
  unfold move_backward. destruct (rev rng) as [|d rest]; [discriminate|].
  destruct (move_chain d rest w) as [l w2|l w2|] eqn:E; try discriminate.
  exfalso. exact (move_chain_quiet _ _ _ _ _ E).
Qed.

(** A request of at most [max_size] bytes is satisfied. *)
Lemma RawMemory_sized_quiet (c : Z) (w : World) (e : unit) (w' : World) :
  wrap (c * sizeof_T) <= max_size -> RawMemory_sized c w <> Raised e w'.
Proof.
  intros Hc. destruct Hquiet as [_ Hn]. unfold RawMemory_sized, Allocate.
  destruct (c =? 0); [discriminate|]. cbv zeta.
  destruct (Z.leb_spec (wrap (c * sizeof_T)) max_size); [|lia].
  rewrite Hn. discriminate.
Qed.

(** The request of a reallocating insertion is satisfied when the
    doubled capacity is within [max_slots]. *)
Lemma growth_allowed (xs : list T) (cap : Z) :
  Z.of_nat (length xs) <= cap <= max_slots ->
  Z.max 1 (2 * Z.of_nat (length xs)) <= max_slots ->
  wrap (CalcNewCapacity (vec xs cap) * sizeof_T) <= max_size.
Proof.
  intros Hb Hg. rewrite CalcNewCapacity_vec by lia.
  pose proof sizeof_pos. pose proof max_size_lt.
  apply max_slots_bytes in Hg. rewrite wrap_small; [exact Hg|nia].
Qed.

Lemma Realloc_quiet (index : Z) (k : special) (x : T) (v : Vector)
  (w : World) (e : Vector) (w' : World) :
  wrap (CalcNewCapacity v * sizeof_T) <= max_size ->
  ReallocateMemoryAddingNewElement index k x v w <> Raised e w'.
Proof.
  intros Hc. unfold ReallocateMemoryAddingNewElement.
  destruct (RawMemory_sized (CalcNewCapacity v) w) as [nd w1|e1 w1|] eqn:Ea;
    [|exfalso; exact (RawMemory_sized_quiet _ _ _ _ Hc Ea)|discriminate].
  destruct (load index 1 nd); [|discriminate].
  rewrite construct_quiet.
  destruct (store index [Some x] nd) as [nd1|]; [|discriminate].
  destruct (load 0 index (data_ v)) as [lead|]; [|discriminate].
  destruct (CopyOrMoveToNewBuffer lead (created (tick w1)))
    as [[lead1 ys] w3|lead1 w3|] eqn:El;
    [|exfalso; exact (CopyOrMoveToNewBuffer_quiet _ _ _ _ El)|discriminate].
  destruct (store 0 (map Some ys) nd1) as [nd2|]; [|discriminate].
  destruct (destroy_n lead1 w3) as [[raw w4]|]; [|discriminate].
  destruct (store 0 raw (data_ v)) as [d1|]; [|discriminate].
  destruct (index <? size_ v); [|discriminate].
  destruct (load index (wrap (size_ v - index)) d1) as [trail|];
    [|discriminate].
  destruct (CopyOrMoveToNewBuffer trail w4)
    as [[trail1 zs] w5|trail1 w5|] eqn:Et;
    [|exfalso; exact (CopyOrMoveToNewBuffer_quiet _ _ _ _ Et)|discriminate].
  destruct (store (index + 1) (map Some zs) nd2); [|discriminate].
  destruct (destroy_n trail1 w5) as [[raw5 w6]|]; discriminate.
Qed.

Lemma EmplaceBack_quiet (k : special) (x : T) (v : Vector) (w : World)
  (e : Vector) (w' : World) :
  (size_ v = Capacity v ->
   wrap (CalcNewCapacity v * sizeof_T) <= max_size) ->
  EmplaceBack k x v w <> Raised e w'.
Proof.
  intros Hc. unfold EmplaceBack.
  destruct (Z.eqb_spec (size_ v) (Capacity v)) as [E|_];
    [apply Realloc_quiet; exact (Hc E)|].
  destruct (load (size_ v) 1 (data_ v)); [|discriminate].
  rewrite construct_quiet.
  destruct (store (size_ v) [Some x] (data_ v)); discriminate.
Qed.

Lemma PushBack_quiet (m : bool) (x : T) (v : Vector) (w : World)
  (e : Vector) (w' : World) :
  (size_ v = Capacity v ->
   wrap (CalcNewCapacity v * sizeof_T) <= max_size) ->
  PushBack m x v w <> Raised e w'.
Proof.
  intros Hc. unfold PushBack.
  destruct (EmplaceBack (if m then MoveCtor else CopyCtor) x v w)
    as [[v1 r] w1|v1 w1|] eqn:E; try discriminate.
  exfalso. exact (EmplaceBack_quiet _ _ _ _ _ _ Hc E).
Qed.

Lemma Emplace_quiet (index : Z) (k : special) (x : T) (v : Vector)
  (w : World) (e : Vector) (w' : World) :
  (size_ v = Capacity v ->
   wrap (CalcNewCapacity v * sizeof_T) <= max_size) ->
  Emplace index k x v w <> Raised e w'.
Proof.
  intros Hc. unfold Emplace.
  destruct (index =? size_ v); [apply EmplaceBack_quiet; exact Hc|].
  destruct (Z.eqb_spec (size_ v) (Capacity v)) as [E|_];
    [apply Realloc_quiet; exact (Hc E)|].
  rewrite construct_quiet.
  destruct (at_index v (wrap (size_ v - 1))) as [back|]; [|discriminate].
  destruct (load (size_ v) 1 (data_ v)); [|discriminate].
  rewrite construct_quiet.
  destruct (store (wrap (size_ v - 1)) [Some (moved_from back); Some back]
              (data_ v)) as [d1|]; [|discriminate].
  destruct (load index (wrap (size_ v - index)) d1) as [rng|];
    [|discriminate].
  destruct (move_backward rng (created (tick (created (tick w)))))
    as [rng1 w3|rng1 w3|] eqn:Eb;
    [|exfalso; exact (move_backward_quiet _ _ _ _ Eb)|discriminate].
  destruct (store index rng1 d1) as [d2|]; [|discriminate].
  destruct (at_index (mkVector d2 (size_ v)) index); [|discriminate].
  rewrite assign_quiet.
  destruct (store index [Some x] d2); discriminate.
Qed.

Lemma Erase_quiet (index : Z) (v : Vector) (w : World) (e : Vector)
  (w' : World) :
  Erase index v w <> Raised e w'.
Proof.
  unfold Erase.
  destruct (load index (wrap (size_ v - index)) (data_ v)) as [rng|];
    [|discriminate].
  destruct (move_left rng w) as [rng1 w1|rng1 w1|] eqn:Em;
    [|exfalso; exact (move_left_quiet _ _ _ _ Em)|discriminate].
  destruct (store index rng1 (data_ v)) as [d1|]; [|discriminate].
  destruct (load (wrap (size_ v - 1)) 1 d1) as [last|]; [|discriminate].
  destruct (destroy_n last w1) as [[raw w2]|]; [|discriminate].
  destruct (store (wrap (size_ v - 1)) raw d1); discriminate.
Qed.

End QuietFacts.

(** [PopBack] does not throw. *)
Lemma PopBack_no_throw {Elem : ElementType} (v : Vector) (w : World)
  (e : Vector) (w' : World) :
  PopBack v w <> Raised e w'.
Proof.
  unfold PopBack.
  destruct (load (wrap (size_ v - 1)) 1 (data_ v)) as [last|];
    [|discriminate].
  destruct (destroy_n last w) as [[raw w1]|]; [|discriminate].
  destruct (store (wrap (size_ v - 1)) raw (data_ v)); discriminate.
Qed.

(** * The claims *)

Section Claims.
Context {Elem : ElementType} {Sched : Schedule}.

Lemma PushBack_drop (m : bool) (x : T) (v : Vector) (w : World) :
  PushBack m x v w
  = drop_result (EmplaceBack (if m then MoveCtor else CopyCtor) x v w).
Proof.
  unfold PushBack, drop_result.
  destruct (EmplaceBack (if m then MoveCtor else CopyCtor) x v w)
    as [[v1 r] w1|v1 w1|]; reflexivity.
Qed.

(** The appending and inserting calls all are [Emplace] at their
    insertion index. *)
Lemma perform_insertion (op : operation) (i : Z) (v : Vector) (w : World) :
  insertion_index op v = Some i ->
  exists k x, perform op v w = drop_result (Emplace i k x v w).
Proof.
  destruct op; simpl; intros H; try discriminate; injection H as <-.
  - exists (if by_move then MoveCtor else CopyCtor), value.
    rewrite PushBack_drop, Emplace_end. reflexivity.
  - exists k, x. rewrite Emplace_end. reflexivity.
  - eexists. eexists. reflexivity.
  - eexists. eexists. reflexivity.
Qed.

Lemma inserted_length {A : Type} (xs : list A) (x : A) (i : Z) :
  0 <= i <= Z.of_nat (length xs) ->
  Z.of_nat (length (firstn (Z.to_nat i) xs ++ x :: skipn (Z.to_nat i) xs))
  = Z.of_nat (length xs) + 1.
Proof.
  intros H. rewrite length_app. cbn [length].
  rewrite length_firstn, length_skipn. lia.
Qed.

(** When nothing throws, an insertion returns provided the storage it
    may have to ask for is within [max_slots]. *)
Lemma Emplace_returns (i : Z) (k : special) (x : T) (v : Vector)
  (xs : list T) (w : World) :
  quiet -> Abs v xs -> 0 <= i <= size_ v ->
  (size_ v = Capacity v -> Z.max 1 (size_ v * 2) <= max_slots) ->
  exists v' w', Emplace i k x v w = Normal (v', i) w'.
Proof.
  intros Hq H Hi Hmax.
  pose proof (Emplace_Abs i k x v xs w H Hi) as Hs.
  destruct (Emplace i k x v w) as [[v' r] w'|v' w'|] eqn:E;
    [| |destruct Hs].
  - destruct Hs as (_ & -> & _). exists v', w'. reflexivity.
  - exfalso. revert E. apply (Emplace_quiet Hq). intros Hfull.
    specialize (Hmax Hfull).
    destruct (Abs_elim v xs H) as (cap & -> & Hb).
    apply growth_allowed; [exact Hb|]. cbn [vec size_] in Hmax. lia.
Qed.

(** C3: an append or insert ([EmplaceBack], [PushBack], [Emplace],
    [Insert]) on a vector whose size equals its capacity.  A call that
    returns has made the capacity exactly [max(1, old_size * 2)] and the
    size one more; a call that throws has left the capacity and the size
    as they were; no call runs into undefined behaviour.  When nothing
    throws and storage of the doubled capacity can be had, the call
    returns. *)
Theorem C3_growth_doubles_capacity (op : operation) (i : Z) (v : Vector)
  (xs : list T) (w : World) :
  Abs v xs -> Size v = Capacity v ->
  insertion_index op v = Some i -> 0 <= i <= Size v ->
  match perform op v w with
  | Normal v' w' =>
      Capacity v' = Z.max 1 (Size v * 2) /\ Size v' = Size v + 1
  | Raised v' w' => Capacity v' = Capacity v /\ Size v' = Size v
  | Undefined => False
  end /\
  (quiet -> Z.max 1 (Size v * 2) <= max_slots ->
   exists v' w', perform op v w = Normal v' w').
Proof.
  unfold Size. intros H Hfull Hop Hi.
  destruct (perform_insertion op i v w Hop) as (k & x & ->).
  pose proof (Emplace_Abs i k x v xs w H Hi) as Hs.
  pose proof (Abs_size v xs H) as Hsz.
  split.
  - destruct (Emplace i k x v w) as [[v' r] w'|v' w'|]; simpl;
      [| |exact Hs].
    + destruct Hs as (Ha & _ & Hc & _).
      rewrite <- Hfull, Z.eqb_refl in Hc.
      split; [rewrite Hc; lia|].
      rewrite (Abs_size v' _ Ha), inserted_length by lia. lia.
    + exact Hs.
  - intros Hq Hmax.
    destruct (Emplace_returns i k x v xs w Hq H Hi (fun _ => Hmax))
      as (v' & w' & ->).
    exists v', w'. reflexivity.
Qed.




(** [Erase] at the position of an element just inserted gives back
    the sequence there was. *)
Lemma Erase_inserted (i : Z) (x : T) (xs : list T) (v1 : Vector)
  (w1 : World) :
  0 <= i <= Z.of_nat (length xs) ->
  Abs v1 (firstn (Z.to_nat i) xs ++ x :: skipn (Z.to_nat i) xs) ->
  match Erase i v1 w1 with
  | Normal (v2, r2) w2 =>
      r2 = i /\ Abs v2 xs /\ live w2 = live w1 - 1
  | Raised v2 w2 =>
      size_ v2 = Z.of_nat (length xs) + 1 /\ live w2 = live w1
  | Undefined => False
  end.
Proof.
  intros Hi Ha.
  pose proof (Abs_size v1 _ Ha) as Hsz1. rewrite inserted_length in Hsz1
    by exact Hi.
  pose proof (split_at xs i Hi) as Hl.
  pose proof (firstn_skipn (Z.to_nat i) xs) as Hx.
  set (l1 := firstn (Z.to_nat i) xs) in *.
  set (l2 := skipn (Z.to_nat i) xs) in *.
  clearbody l1 l2.
  assert (Hlen : length xs = (length l1 + length l2)%nat)
    by (rewrite <- Hx; lens).
  pose proof (Erase_Abs i v1 _ w1 Ha ltac:(lia)) as He.
  assert (E : firstn (Z.to_nat i) (l1 ++ x :: l2)
              ++ skipn (S (Z.to_nat i)) (l1 ++ x :: l2) = xs).
  { replace (Z.to_nat i) with (length l1) by lia.
    rewrite firstn_app, firstn_all, Nat.sub_diag. simpl firstn.
    rewrite app_nil_r.
    change (l1 ++ x :: l2) with (l1 ++ [x] ++ l2). rewrite app_assoc.
    replace (S (length l1)) with (length (l1 ++ [x])) by lens.
    rewrite skipn_app, skipn_all, Nat.sub_diag. simpl. exact Hx. }
  rewrite E in He.
  destruct (Erase i v1 w1) as [[v2 r2] w2|v2 w2|]; [| |exact He].
  - destruct He as (Ha2 & -> & _ & Hlv).
    split; [reflexivity|]. split; [exact Ha2|exact Hlv].
  - destruct He as (Hlv & _ & xs' & Ha2 & Hlen').
    split; [|exact Hlv].
    rewrite (Abs_size v2 xs' Ha2), Hlen'. lens.
Qed.

(** C8: [Insert] of a value at a valid position [i], followed by
    [Erase] at the position it returned.  An [Insert] that returns has
    returned [i] and made the vector one longer; an [Erase] there that
    returns gives back the original sequence of elements, the original
    size and the original number of live objects.  A call that throws
    leaves the size as it found it, and neither call runs into undefined
    behaviour.  When nothing throws and the storage a full vector has
    to ask for can be had, both calls return. *)
Theorem C8_Insert_then_Erase (i : Z) (by_move : bool) (x : T) (v : Vector)
  (xs : list T) (w : World) :
  Abs v xs -> 0 <= i <= Size v ->
  match Insert i by_move x v w with
  | Normal (v1, r1) w1 =>
      r1 = i /\ Size v1 = Size v + 1 /\
      match Erase r1 v1 w1 with
      | Normal (v2, r2) w2 =>
          r2 = i /\ Abs v2 xs /\ Size v2 = Size v /\ live w2 = live w
      | Raised v2 w2 => Size v2 = Size v + 1 /\ live w2 = live w + 1
      | Undefined => False
      end
  | Raised v1 w1 => Size v1 = Size v /\ Capacity v1 = Capacity v
  | Undefined => False
  end /\
  (quiet ->
   (Size v = Capacity v -> Z.max 1 (Size v * 2) <= max_slots) ->
   exists v1 w1 v2 w2,
     Insert i by_move x v w = Normal (v1, i) w1 /\
     Erase i v1 w1 = Normal (v2, i) w2 /\ Abs v2 xs).
Proof.
  unfold Size, Insert. intros H Hi.
  set (k := if by_move then MoveCtor else CopyCtor).
  pose proof (Emplace_Abs i k x v xs w H Hi) as Hs.
  pose proof (Abs_size v xs H) as Hsz.
  split.
  - destruct (Emplace i k x v w) as [[v1 r1] w1|v1 w1|]; [| |exact Hs].
    + destruct Hs as (Ha & -> & _ & Hl).
      split; [reflexivity|].
      split; [rewrite (Abs_size v1 _ Ha), inserted_length by lia; lia|].
      pose proof (Erase_inserted i x xs v1 w1 ltac:(lia) Ha) as He.
      destruct (Erase i v1 w1) as [[v2 r2] w2|v2 w2|]; [| |exact He].
      * destruct He as (-> & Ha2 & Hl2).
        split; [reflexivity|]. split; [exact Ha2|].
        split; [rewrite (Abs_size v2 xs Ha2); lia|lia].
      * destruct He as (Hs2 & Hl2). split; lia.
    + destruct Hs as (Hc & Hs). split; assumption.
  - intros Hq Hmax.
    destruct (Emplace_returns i k x v xs w Hq H Hi Hmax) as (v1 & w1 & E).
    rewrite E in Hs. destruct Hs as (Ha & _).
    pose proof (Erase_inserted i x xs v1 w1 ltac:(lia) Ha) as He.
    destruct (Erase i v1 w1) as [[v2 r2] w2|v2 w2|] eqn:E2;
      [| |destruct He].
    + destruct He as (-> & Ha2 & _).
      exists v1, w1, v2, w2. split; [exact E|]. split; [exact E2|exact Ha2].
    + exfalso. exact (Erase_quiet Hq _ _ _ _ _ E2).
Qed.

Lemma removelast_length {A : Type} (l : list A) :
  length (removelast l) = (length l - 1)%nat.
Proof.
  destruct (exists_last_or_nil l) as [->|(l' & a & ->)]; [reflexivity|].
  rewrite removelast_last, length_app. simpl. lia.
Qed.

Lemma run_Abs (cmds : list command) :
  forall (v : Vector) (xs : list T) (w : World) (v' : Vector) (w' : World),
    Abs v xs -> run cmds v w = Normal v' w' ->
    Abs v' (replay cmds xs) /\
    Z.of_nat (length (replay cmds xs))
    = Z.of_nat (length xs) + pushes cmds - pops cmds.
Proof.
  induction cmds as [|c rest IH]; intros v xs w v' w' H Hrun.
  - simpl in *. injection Hrun as <- _. split; [exact H|lia].
  - simpl in Hrun. destruct c as [m x|]; simpl in Hrun.
    + pose proof (PushBack_Abs m x v xs w H) as Hs.
      destruct (PushBack m x v w) as [v1 w1|v1 w1|]; try discriminate.
      destruct Hs as (Ha & _).
      destruct (IH v1 _ w1 v' w' Ha Hrun) as (Ha' & Hlen).
      split; [exact Ha'|]. cbn [replay pushes pops].
      rewrite Hlen, length_app. cbn [length]. lia.
    + destruct (Z.lt_ge_cases 0 (size_ v)) as [Hpos|Hzero].
      * destruct (PopBack_Abs v xs w H Hpos) as (v1 & Hp & Ha & _).
        rewrite Hp in Hrun.
        destruct (IH v1 _ _ v' w' Ha Hrun) as (Ha' & Hlen).
        split; [exact Ha'|]. cbn [replay pushes pops].
        rewrite Hlen, removelast_length.
        rewrite (Abs_size v xs H) in Hpos. lia.
      * exfalso. pose proof (Abs_size v xs H) as Hsz.
        destruct (Abs_elim v xs H) as (cap & -> & Hb).
        destruct xs; [|simpl in Hsz, Hzero; lia].
        rewrite PopBack_empty in Hrun by (simpl in Hb; lia).
        discriminate.
Qed.

(** A sequence whose [PopBack] calls all meet a non-empty vector does
    not run into undefined behaviour. *)
Lemma run_defined (cmds : list command) :
  forall (v : Vector) (xs : list T) (w : World),
    Abs v xs -> pops_respected cmds (length xs) = true ->
    run cmds v w <> Undefined.
Proof.
  induction cmds as [|c rest IH]; intros v xs w H Hok; [discriminate|].
  simpl. destruct c as [m x|]; simpl in *.
  - pose proof (PushBack_Abs m x v xs w H) as Hs.
    destruct (PushBack m x v w) as [v1 w1|v1 w1|];
      [|discriminate|destruct Hs].
    destruct Hs as (Ha & _). apply (IH v1 _ w1 Ha).
    rewrite length_app. simpl. rewrite Nat.add_1_r. exact Hok.
  - destruct xs as [|x0 xs0] eqn:Exs; [discriminate|]. rewrite <- Exs in *.
    assert (Hpos : 0 < size_ v)
      by (rewrite (Abs_size v xs H), Exs; simpl; lia).
    destruct (PopBack_Abs v xs w H Hpos) as (v1 & Hp & Ha & _).
    rewrite Hp. apply (IH v1 _ _ Ha).
    rewrite removelast_length. rewrite Exs. simpl.
    rewrite Nat.sub_0_r. rewrite Exs in Hok. exact Hok.
Qed.

Lemma pops_nonneg (cmds : list command) : 0 <= pops cmds.
Proof.
  induction cmds as [|[m x|] rest IH]; cbn [pops]; lia.
Qed.

Lemma pushes_nonneg (cmds : list command) : 0 <= pushes cmds.
Proof.
  induction cmds as [|[m x|] rest IH]; cbn [pushes]; lia.
Qed.

(** A sequence that throws was stopped by a [PushBack] that threw:
    [PopBack] does not throw. *)
Lemma run_raised (cmds : list command) :
  forall (v : Vector) (w : World) (v' : Vector) (w' : World),
    run cmds v w = Raised v' w' ->
    exists pre m x post v1 w1,
      cmds = pre ++ Push m x :: post /\
      run pre v w = Normal v1 w1 /\
      PushBack m x v1 w1 = Raised v' w'.
Proof.
  induction cmds as [|c rest IH]; intros v w v' w' Hrun; [discriminate|].
  simpl in Hrun.
  destruct (execute c v w) as [v1 w1|v1 w1|] eqn:E; [| |discriminate].
  - destruct (IH v1 w1 v' w' Hrun)
      as (pre & m & x & post & v2 & w2 & -> & Hpre & Hthrow).
    exists (c :: pre), m, x, post, v2, w2.
    split; [reflexivity|]. split; [|exact Hthrow].
    simpl. rewrite E. exact Hpre.
  - injection Hrun as <- <-. destruct c as [m x|]; simpl in E.
    + exists [], m, x, rest, v, w.
      split; [reflexivity|]. split; [reflexivity|exact E].
    + exfalso. exact (PopBack_no_throw _ _ _ _ E).
Qed.

(** When nothing throws, a sequence whose [PopBack] calls all meet a
    non-empty vector returns, provided the storage it may have to ask
    for is within [max_slots]. *)
Lemma run_returns (cmds : list command) :
  quiet ->
  forall (v : Vector) (xs : list T) (w : World),
    Abs v xs -> pops_respected cmds (length xs) = true ->
    2 * (Z.of_nat (length xs) + pushes cmds) <= max_slots ->
    exists v' w', run cmds v w = Normal v' w'.
Proof.
  intros Hq. induction cmds as [|c rest IH]; intros v xs w H Hok Hmax.
  - exists v, w. reflexivity.
  - cbn [run]. destruct c as [m x|]; cbn [execute pushes pops_respected] in *.
    + pose proof (pushes_nonneg rest) as Hnn.
      pose proof (PushBack_Abs m x v xs w H) as Hs.
      destruct (PushBack m x v w) as [v1 w1|v1 w1|] eqn:E;
        [| |destruct Hs].
      * destruct Hs as (Ha & _). apply (IH v1 _ w1 Ha).
        -- rewrite length_app. simpl. rewrite Nat.add_1_r. exact Hok.
        -- rewrite length_app. cbn [length]. lia.
      * exfalso. revert E. apply (PushBack_quiet Hq). intros _.
        destruct (Abs_elim v xs H) as (cap & -> & Hb).
        apply growth_allowed; [exact Hb|lia].
    + destruct xs as [|x0 xs0] eqn:Exs; [discriminate|]. rewrite <- Exs in *.
      assert (Hpos : 0 < size_ v)
        by (rewrite (Abs_size v xs H), Exs; simpl; lia).
      destruct (PopBack_Abs v xs w H Hpos) as (v1 & Hp & Ha & _).
      rewrite Hp. apply (IH v1 _ _ Ha).
      * rewrite removelast_length. rewrite Exs. simpl.
        rewrite Nat.sub_0_r. rewrite Exs in Hok. exact Hok.
      * rewrite removelast_length. lia.
Qed.

(** C7: any sequence of [PushBack] and [PopBack] calls on an initially
    empty vector, every [PopBack] meeting a non-empty vector.  The
    sequence does not run into undefined behaviour.  When it returns,
    [Size()] is the number of pushes minus the number of pops, and
    reading the elements in index order gives the pushed values not yet
    popped, in push order.  When it throws, it is a [PushBack] that
    threw, after the calls before it had returned: [PopBack] does not
    throw.  When nothing throws and the storage to ask for can be had,
    the sequence returns.  The sequence is arbitrary, so this holds
    after every call of a longer sequence as well. *)
Theorem C7_PushBack_PopBack_sequences (cmds : list command) (w : World) :
  pops_respected cmds 0 = true ->
  match run cmds Vector_default w with
  | Normal v w' =>
      Size v = pushes cmds - pops cmds /\
      Abs v (replay cmds []) /\
      forall i, 0 <= i < Size v ->
                at_index v i = nth_error (replay cmds []) (Z.to_nat i)
  | Raised v' w' =>
      exists pre m x post v1 w1,
        cmds = pre ++ Push m x :: post /\
        run pre Vector_default w = Normal v1 w1 /\
        PushBack m x v1 w1 = Raised v' w'
  | Undefined => False
  end /\
  (quiet -> 2 * pushes cmds <= max_slots ->
   exists v w', run cmds Vector_default w = Normal v w').
Proof.
  unfold Size. intros Hok. split.
  - destruct (run cmds Vector_default w) as [v w'|v' w'|] eqn:Hrun.
    + destruct (run_Abs cmds Vector_default [] w v w' Abs_default Hrun)
        as (Ha & Hlen).
      pose proof (Abs_size v _ Ha) as Hsz. simpl in Hlen.
      split; [lia|]. split; [exact Ha|].
      intros i Hi. apply Abs_at_index; [exact Ha|lia].
    + apply run_raised. exact Hrun.
    + exact (run_defined cmds Vector_default [] w Abs_default Hok Hrun).
  - intros Hq Hmax.
    apply (run_returns cmds Hq Vector_default [] w Abs_default Hok).
    cbn [length]. lia.
Qed.


Lemma copy_mode (H : copy_constructible = true \/
                     nothrow_move_constructible = true) :
  transfers_by_move = false \/ nothrow_move_constructible = true.
Proof.
  destruct H as [H|H]; [|right; exact H].
  unfold transfers_by_move. rewrite H.
  destruct nothrow_move_constructible; [right|left]; reflexivity.
Qed.

(** What a reallocating insertion leaves behind when it throws before
    the transfer of the elements after the insertion index has begun,
    or when one of the two segments is empty. *)
Lemma Realloc_raised (i : Z) (k : special) (x : T) (v : Vector)
  (xs : list T) (w : World) (v' : Vector) (w' : World) :
  Abs v xs -> 0 <= i <= size_ v ->
  ReallocateMemoryAddingNewElement i k x v w = Raised v' w' ->
  i = 0 \/ i = size_ v \/ (ops w' <= ops w + 1 + Z.to_nat i)%nat ->
  live w' = live w /\
  (transfers_by_move = false \/ nothrow_move_constructible = true ->
   v' = v).
Proof.
  intros H Hi Hrun Hwhere.
  pose proof (Abs_size v xs H) as Hsz.
  destruct (Abs_elim v xs H) as (cap & -> & Hb).
  cbn [vec size_] in *.
  pose proof (split_at xs i ltac:(lia)) as Hl.
  pose proof (firstn_skipn (Z.to_nat i) xs) as Hx.
  set (l1 := firstn (Z.to_nat i) xs) in *.
  set (l2 := skipn (Z.to_nat i) xs) in *.
  clearbody l1 l2. subst xs i.
  pose proof (Realloc_spec k x l1 l2 cap w Hb) as Hs.
  rewrite Hrun in Hs. destruct Hs as (_ & _ & Hs).
  rewrite Nat2Z.id in Hwhere.
  assert (Hcase : l1 = [] \/ l2 = [] \/
                  (ops w' <= ops w + 1 + length l1)%nat).
  { destruct Hwhere as [E|[E|E]].
    - left. destruct l1; [reflexivity|simpl in E; lia].
    - right. left. rewrite length_app in E.
      destruct l2; [reflexivity|simpl in E; lia].
    - right. right. exact E. }
  destruct (Hs Hcase) as (Hlive & Hsame & _).
  split; assumption.
Qed.

(** C1, as amended: the strong guarantee of a growth-triggered
    [EmplaceBack], [PushBack], [Emplace] or [Insert].  [T] is
    copy-constructible or its move constructor does not throw.  If the
    call throws while the new element is constructed or while the
    elements before the insertion index are transferred - which is
    every failure when the new element goes to the end or to the front -
    or because the allocation fails, then the vector is exactly as it
    was (size, capacity, storage, every element) and the number of live
    objects of [T] is what it was before the call. *)
Theorem C1_strong_guarantee_on_growth (op : operation) (i : Z)
  (v : Vector) (xs : list T) (w : World) (v' : Vector) (w' : World) :
  Abs v xs -> Size v = Capacity v ->
  insertion_index op v = Some i -> 0 <= i <= Size v ->
  copy_constructible = true \/ nothrow_move_constructible = true ->
  perform op v w = Raised v' w' ->
  i = 0 \/ i = Size v \/ (ops w' <= ops w + 1 + Z.to_nat i)%nat ->
  v' = v /\ live w' = live w.
Proof.
  unfold Size. intros H Hfull Hop Hi Hmode Hrun Hwhere.
  apply copy_mode in Hmode.
  assert (Hre : exists k x,
             ReallocateMemoryAddingNewElement i k x v w = Raised v' w').
  { destruct op; simpl in Hop, Hrun; try discriminate;
      injection Hop as <-.
    - unfold PushBack in Hrun. rewrite EmplaceBack_full in Hrun by exact Hfull.
      exists (if by_move then MoveCtor else CopyCtor), value.
      destruct (ReallocateMemoryAddingNewElement (size_ v)
                  (if by_move then MoveCtor else CopyCtor) value v w)
        as [[v1 r] w1|v1 w1|] eqn:E; try discriminate.
      injection Hrun as <- <-. reflexivity.
    - apply drop_result_Raised in Hrun.
      rewrite EmplaceBack_full in Hrun by exact Hfull.
      eexists. eexists. exact Hrun.
    - apply drop_result_Raised in Hrun. unfold Insert in Hrun.
      rewrite Emplace_full in Hrun by exact Hfull.
      eexists. eexists. exact Hrun.
    - apply drop_result_Raised in Hrun.
      rewrite Emplace_full in Hrun by exact Hfull.
      eexists. eexists. exact Hrun. }
  destruct Hre as (k & x & Hre).
  destruct (Realloc_raised i k x v xs w v' w' H Hi Hre Hwhere)
    as (Hlive & Hsame).
  split; [apply Hsame; exact Hmode|exact Hlive].
Qed.

End Claims.

(** * The claims on concrete vectors *)

Lemma Abs_cvec (xs : list nat) (cap : Z) :
  Z.of_nat (length xs) <= cap <= max_slots (Elem:=copyable_nat) ->
  Abs (Elem:=copyable_nat) (cvec xs cap) xs.
Proof. apply (Abs_vec (Elem:=copyable_nat)). Qed.

(** C1, as stated, fails for a move-only element type whose move
    constructor throws: [CopyOrMoveToNewBuffer] moves such elements, and
    the second move throwing during a growth-triggered [EmplaceBack]
    leaves the first element of the vector in its moved-from state. *)
Lemma C1_counterexample :
  let v := mvec [1%nat; 2%nat] 2 in
  Size v = Capacity v /\
  perform (Sched:=throw_at 2)
    (CallEmplaceBack (Elem:=move_only_nat) ArgsCtor 3%nat) v (mkWorld 2 0 0)
  = Raised (mvec [0%nat; 2%nat] 2) (mkWorld 2 3 1) /\
  at_index v 0 = Some 1%nat /\
  at_index (mvec [0%nat; 2%nat] 2) 0 = Some 0%nat.
Proof. repeat split. Qed.

Lemma C1_witness :
  let v := cvec [1%nat; 2%nat] 2 in
  perform (Sched:=throw_at 1)
    (CallInsert (Elem:=copyable_nat) 1 false 5%nat) v (mkWorld 2 0 0)
  = Raised v (mkWorld 2 2 1) /\
  (v = v /\ live (mkWorld 2 2 1) = live (mkWorld 2 0 0)).
Proof.
  split; [reflexivity|].
  apply (C1_strong_guarantee_on_growth (Sched:=throw_at 1)
           (CallInsert (Elem:=copyable_nat) 1 false 5%nat) 1
           (cvec [1%nat; 2%nat] 2) [1%nat; 2%nat] (mkWorld 2 0 0)).
  - apply Abs_cvec. bounds.
  - reflexivity.
  - reflexivity.
  - cbn. lia.
  - left. reflexivity.
  - reflexivity.
  - right. right. cbn. lia.
Defined.

(** C2: move assignment takes over the storage and the size of the
    source, empties the source and does not throw, but it releases the
    storage of the destination without destroying the elements in it: the
    element [7] of the destination is still counted as live afterwards,
    although neither vector holds an element any more. *)
Theorem C2_move_assignment_skips_destructors :
  let this := cvec [7%nat] 1 in
  let rhs := cvec [] 0 in
  Vector_move_assign this (Other rhs) (mkWorld 1 0 0)
  = Normal (cvec [] 0, Vector_default) (mkWorld 1 0 0) /\
  Size (cvec [] 0) + Size (Vector_default (Elem:=copyable_nat)) = 0 /\
  live (mkWorld 1 0 0) = 1.
Proof. repeat split. Qed.

(** The vector [Vector(2)] of two value-initialised elements. *)
Lemma reachable_two :
  reachable (Elem:=copyable_nat) (Sched:=throw_at 2) true
    (cvec [0%nat; 0%nat] 2).
Proof.
  apply (reach_sized true 2 (mkWorld 0 10 0) _ (mkWorld 2 12 1)).
  - lia.
  - reflexivity.
  - reflexivity.
Qed.

(** C6: the invariant does not survive a reallocating insertion that
    throws while the elements after the insertion index are copied.
    [Emplace] at index 1 of the full vector [Vector(2)], with the copy of
    the element at index 1 throwing, leaves a vector of size 2 whose slot
    0 has been destroyed; destroying that vector destroys the slot
    again. *)
Theorem C6_invariant_lost_after_failed_insertion :
  let v := cvec [0%nat; 0%nat] 2 in
  let v' := mkVector (mkRaw (Elem:=copyable_nat) [None; Some 0%nat] 2) 2 in
  Invariant v /\
  perform (Sched:=throw_at 2)
    (CallEmplace (Elem:=copyable_nat) 1 ArgsCtor 5%nat) v (mkWorld 2 0 0)
  = Raised v' (mkWorld 1 3 1) /\
  reachable (Sched:=throw_at 2) true v' /\
  ~ Invariant v' /\
  Vector_destroy v' (mkWorld 1 3 1) = None.
Proof.
  intros v v'.
  split.
  { apply (Abs_Invariant v [0%nat; 0%nat]).
    apply Abs_cvec. bounds. }
  split; [reflexivity|].
  split.
  { apply (reach_call_throw true
             (CallEmplace (Elem:=copyable_nat) 1 ArgsCtor 5%nat)
             v (mkWorld 2 0 0) v' (mkWorld 1 3 1)).
    - reflexivity.
    - exact reachable_two.
    - cbn. lia.
    - exact I.
    - reflexivity. }
  split; [|reflexivity].
  intros [_ Hlive]. destruct (Hlive 0) as (x & Hx); [unfold v'; cbn; lia|].
  discriminate Hx.
Qed.

Lemma C3_witness :
  let v := cvec [5%nat] 1 in
  let v' := cvec [5%nat; 6%nat] 2 in
  perform (Sched:=calm) (CallPushBack (Elem:=copyable_nat) false 6%nat) v
    (mkWorld 1 0 0) = Normal v' (mkWorld 2 2 1) /\
  (Capacity v' = Z.max 1 (Size v * 2) /\ Size v' = Size v + 1).
Proof.
  split; [reflexivity|].
  exact (proj1 (C3_growth_doubles_capacity (Sched:=calm)
                  (CallPushBack (Elem:=copyable_nat) false 6%nat) 1
                  (cvec [5%nat] 1) [5%nat] (mkWorld 1 0 0)
                  (Abs_cvec [5%nat] 1 ltac:(bounds))
                  eq_refl eq_refl ltac:(cbn; lia))).
Defined.




(** A request whose byte count wraps around, on an empty vector: with
    elements of four bytes [Reserve(2^62)] returns, leaving a capacity of
    [2^62] over a block of zero bytes; the next [PushBack] writes outside
    the block. *)
Example scenario_reserve_wraps_around :
  let v := mkVector (mkRaw (Elem:=copyable_nat) [] (2 ^ 62)) 0 in
  Reserve (Sched:=calm) (2 ^ 62) (Vector_default (Elem:=copyable_nat)) world0
  = Normal v (mkWorld 0 0 1) /\
  PushBack (Elem:=copyable_nat) (Sched:=calm) false 7%nat v (mkWorld 0 0 1)
  = Undefined.
Proof. split; reflexivity. Qed.



Lemma C8_witness :
  let v := cvec [1%nat; 2%nat; 4%nat] 3 in
  let v1 := cvec [1%nat; 2%nat; 3%nat; 4%nat] 6 in
  let v2 := cvec [1%nat; 2%nat; 4%nat] 6 in
  Size v = Capacity v /\
  Insert (Elem:=copyable_nat) (Sched:=calm) 2 false 3%nat v (mkWorld 3 0 0)
  = Normal (v1, 2) (mkWorld 4 4 1) /\
  Erase (Sched:=calm) 2 v1 (mkWorld 4 4 1) = Normal (v2, 2) (mkWorld 3 5 1) /\
  (2 = 2 /\ Size v1 = Size v + 1 /\
   (2 = 2 /\ Abs v2 [1%nat; 2%nat; 4%nat] /\ Size v2 = Size v /\
    live (mkWorld 3 5 1) = live (mkWorld 3 0 0))).
Proof.
  split; [reflexivity|]. split; [reflexivity|]. split; [reflexivity|].
  exact (proj1 (C8_Insert_then_Erase (Elem:=copyable_nat) (Sched:=calm)
                  2 false 3%nat
                  (cvec [1%nat; 2%nat; 4%nat] 3) [1%nat; 2%nat; 4%nat]
                  (mkWorld 3 0 0)
                  (Abs_cvec [1%nat; 2%nat; 4%nat] 3 ltac:(bounds))
                  ltac:(cbn; lia))).
Defined.

Lemma C7_witness :
  let cmds := [Push (Elem:=copyable_nat) false 0%nat;
               Push (Elem:=copyable_nat) false 1%nat;
               Push (Elem:=copyable_nat) false 2%nat;
               Pop;
               Push (Elem:=copyable_nat) true 7%nat] in
  let v := cvec [0%nat; 1%nat; 7%nat] 4 in
  run (Sched:=calm) cmds Vector_default world0 = Normal v (mkWorld 3 7 3) /\
  (Size v = pushes cmds - pops cmds /\
   Abs v (replay cmds []) /\
   forall i, 0 <= i < Size v ->
             at_index v i = nth_error (replay cmds []) (Z.to_nat i)).
Proof.
  intros cmds v.
  assert (Hrun : run (Sched:=calm) cmds Vector_default world0
                 = Normal v (mkWorld 3 7 3)) by reflexivity.
  assert (Hok : pops_respected cmds 0 = true) by reflexivity.
  split; [exact Hrun|].
  pose proof (C7_PushBack_PopBack_sequences (Sched:=calm) cmds world0 Hok)
    as [H _].
  rewrite Hrun in H. exact H.
Defined.


(** ** The example scenarios of the specification *)

Example scenario_push_three :
  run (Sched:=calm)
    [Push (Elem:=copyable_nat) false 0%nat;
     Push (Elem:=copyable_nat) false 1%nat;
     Push (Elem:=copyable_nat) false 2%nat]
    Vector_default world0
  = Normal (cvec [0%nat; 1%nat; 2%nat] 4) (mkWorld 3 6 3).
Proof. reflexivity. Qed.

Example scenario_push_on_full :
  PushBack (Elem:=copyable_nat) (Sched:=calm) false 6%nat (cvec [5%nat] 1) (mkWorld 1 0 0)
  = Normal (cvec [5%nat; 6%nat] 2) (mkWorld 2 2 1).
Proof. reflexivity. Qed.

Example scenario_reserve_on_empty :
  Reserve (Sched:=calm) 10 (Vector_default (Elem:=copyable_nat)) world0
  = Normal (cvec [] 10) (mkWorld 0 0 1).
Proof. reflexivity. Qed.

Example scenario_resize_on_empty :
  Resize (Sched:=calm) 5 (Vector_default (Elem:=copyable_nat)) world0
  = Normal (cvec [0%nat; 0%nat; 0%nat; 0%nat; 0%nat] 5) (mkWorld 5 5 1).
Proof. reflexivity. Qed.

Example scenario_insert :
  Insert (Elem:=copyable_nat) (Sched:=calm) 2 false 3%nat
    (cvec [1%nat; 2%nat; 4%nat] 4) (mkWorld 3 0 0)
  = Normal (cvec [1%nat; 2%nat; 3%nat; 4%nat] 4, 2) (mkWorld 4 3 0).
Proof. reflexivity. Qed.

Example scenario_erase :
  Erase (Sched:=calm) 1 (cvec [1%nat; 2%nat; 3%nat; 4%nat] 4) (mkWorld 4 0 0)
  = Normal (cvec [1%nat; 3%nat; 4%nat] 4, 1) (mkWorld 3 2 0).
Proof. reflexivity. Qed.

(** * Further properties of the code *)

(** ** Constructors, destructor and [Reserve] *)

Section Construction.
Context {Elem : ElementType} {Sched : Schedule}.

(** X1: [Vector(n)], for an [n] whose byte count [n * sizeof(T)] is a
    [size_t] value, either returns a vector of size and capacity [n]
    holding [n] value-initialised elements, or throws with the number of
    live objects back at what it was.  [Vector(0)] requests no storage
    and cannot throw. *)
Theorem X1_sized_constructor (n : Z) (w : World) :
  0 <= n -> n * sizeof_T < 2 ^ 64 ->
  match Vector_sized n w with
  | Normal v w' =>
      Abs v (repeat value_init (Z.to_nat n)) /\ Size v = n /\
      Capacity v = n /\ live w' = live w + n /\
      news w' = if n =? 0 then news w else S (news w)
  | Raised _ w' => 0 < n /\ live w' = live w
  | Undefined => False
  end.
Proof.
  intros Hn Hfit. unfold Vector_sized.
  pose proof (RawMemory_sized_any n w Hn Hfit) as Ha.
  destruct (RawMemory_sized n w) as [d w1|e w1|]; [| |exact Ha].
  2:{ destruct Ha as (Hl & _ & Hpos). split; assumption. }
  destruct Ha as (-> & Hm & Hl & _ & Hnews).
  pose proof (uninitialized_value_construct_n_spec (Z.to_nat n) 0 w1) as Hc.
  destruct (uninitialized_value_construct_n (Z.to_nat n) 0 w1)
    as [xs w2|e w2|]; [| |exact Hc].
  2:{ split; lia. }
  destruct Hc as [-> ->].
  rewrite <- (app_nil_r (repeat None (Z.to_nat n))).
  rewrite (store_prefix (repeat None (Z.to_nat n))) by lens.
  assert (E : mkVector (mkRaw (map Some (repeat value_init (Z.to_nat n))
                               ++ []) n) n
              = vec (repeat value_init (Z.to_nat n)) n).
  { unfold vec, holding.
    rewrite repeat_length, Z2Nat.id, Z.sub_diag by lia. reflexivity. }
  rewrite E.
  split; [apply Abs_vec; lens|].
  split; [unfold Size; cbn [vec size_]; lens|].
  split; [reflexivity|]. split; [simpl; lia|exact Hnews].
Qed.

(** X2: the copy constructor either returns a vector holding the
    elements of the source in order, with a capacity equal to the size
    (not the capacity) of the source and one copy construction per
    element, or throws with the number of live objects back at what it
    was.  Copying an empty vector cannot throw. *)
Theorem X2_copy_constructor (o : Vector) (xs : list T) (w : World) :
  Abs o xs ->
  match Vector_copy o w with
  | Normal v w' =>
      Abs v xs /\ Capacity v = Size o /\ live w' = live w + Size o /\
      ops w' = (ops w + length xs)%nat
  | Raised _ w' => 0 < Size o /\ live w' = live w
  | Undefined => False
  end.
Proof.
  intros H. destruct (Abs_elim o xs H) as (cap & -> & Hb).
  unfold Vector_copy, Size. cbn [vec data_ size_].
  assert (Hfit : Z.of_nat (length xs) * sizeof_T < 2 ^ 64)
    by (apply within_representable; lia).
  pose proof (RawMemory_sized_any (Z.of_nat (length xs)) w ltac:(lia) Hfit)
    as Ha.
  destruct (RawMemory_sized (Z.of_nat (length xs)) w) as [d w1|e w1|];
    [| |exact Ha].
  2:{ destruct Ha as (Hl & _ & Hpos). split; assumption. }
  destruct Ha as (-> & Hm & Hl & Ho & _).
  unfold holding at 1.
  rewrite (load_prefix (map Some xs)) by lens.
  pose proof (uninitialized_copy_n_spec xs 0 w1) as Hc.
  destruct (uninitialized_copy_n (map Some xs) 0 w1) as [ys w2|e w2|];
    [| |exact Hc].
  2:{ split; lia. }
  destruct Hc as [-> ->].
  rewrite <- (app_nil_r (repeat None (Z.to_nat (Z.of_nat (length xs))))).
  rewrite (store_prefix (repeat None (Z.to_nat (Z.of_nat (length xs)))))
    by lens.
  assert (E : mkVector (mkRaw (map Some xs ++ []) (Z.of_nat (length xs)))
                (Z.of_nat (length xs))
              = vec xs (Z.of_nat (length xs))).
  { unfold vec, holding. rewrite Z.sub_diag. reflexivity. }
  rewrite E.
  split; [apply Abs_vec; lia|]. split; [reflexivity|].
  split; simpl; lia.
Qed.

(** X3: the move constructor hands the storage, the capacity and the
    elements of the source over to the new vector and leaves the source
    empty with no storage; destroying both objects afterwards destroys
    every element exactly once. *)
Theorem X3_move_constructor (o : Vector) (xs : list T) (w : World) :
  Abs o xs ->
  Vector_move o = (o, Vector_default) /\
  Vector_destroy (snd (Vector_move o)) w = Some (destroyed 0 w) /\
  Vector_destroy (fst (Vector_move o)) (destroyed 0 w)
  = Some (destroyed (Size o) (destroyed 0 w)).
Proof.
  intros H. destruct (Abs_elim o xs H) as (cap & -> & Hb).
  rewrite Vector_move_vec. cbn [fst snd].
  split; [reflexivity|]. split; [reflexivity|].
  apply Vector_destroy_spec.
Qed.

(** X4: [CopyOrMoveToNewBuffer] on a range of live elements builds
    objects holding the values of the range.  It throws only if the move
    constructor of [T] may throw, and then every object it built has
    been destroyed again.  When it copies (a copy-constructible [T]
    whose move may throw) the source range is left untouched whether it
    returns or throws; when it moves, the source elements are left
    moved-from. *)
Theorem X4_CopyOrMoveToNewBuffer (xs : list T) (w : World) :
  match CopyOrMoveToNewBuffer (map Some xs) w with
  | Normal (src, ys) w' =>
      ys = xs /\ live w' = live w + Z.of_nat (length xs) /\
      ops w' = (ops w + length xs)%nat /\
      src = map Some (if nothrow_move_constructible
                         || negb copy_constructible
                      then map moved_from xs else xs)
  | Raised src w' =>
      nothrow_move_constructible = false /\ live w' = live w /\
      (copy_constructible = true -> src = map Some xs)
  | Undefined => False
  end.
Proof.
  pose proof (CopyOrMoveToNewBuffer_spec xs w) as H.
  destruct (CopyOrMoveToNewBuffer (map Some xs) w)
    as [[src ys] w'|src w'|]; [| |exact H].
  - destruct H as (-> & -> & ->). repeat split.
  - destruct H as (Hl & _ & _ & Hnt & Hcopy & _).
    split; [exact Hnt|]. split; [exact Hl|].
    intros Hc. apply Hcopy. unfold transfers_by_move.
    rewrite Hnt, Hc. reflexivity.
Qed.

(** X5: [Reserve] gives the strong guarantee when [T] is
    copy-constructible or its move constructor does not throw: a call
    that throws, because the allocation failed or a copy threw, leaves
    the vector exactly as it was and the number of live objects
    unchanged.  Only a call asking for more than the capacity throws. *)
Theorem X5_Reserve_strong_guarantee (c : Z) (v : Vector) (xs : list T)
  (w : World) (v' : Vector) (w' : World) :
  Abs v xs ->
  copy_constructible = true \/ nothrow_move_constructible = true ->
  Reserve c v w = Raised v' w' ->
  v' = v /\ live w' = live w /\ Capacity v < c.
Proof.
  intros H Hmode Hrun.
  destruct (Reserve_raised c v xs w v' w' H Hrun) as (Hc & Hl & Hsame & _).
  split; [apply Hsame, copy_mode, Hmode|]. split; assumption.
Qed.

End Construction.

(** ** Insertion and removal without reallocation *)

Section InPlace.
Context {Elem : ElementType} {Sched : Schedule}.

(** X6: [EmplaceBack] on a vector with spare capacity makes exactly one
    constructor call and no allocation.  If the constructor returns, the
    element is appended and the capacity is unchanged; if it throws, the
    vector is exactly as it was, whatever the traits of [T]. *)
Theorem X6_append_with_spare_capacity (k : special) (x : T) (v : Vector)
  (xs : list T) (w : World) :
  Abs v xs -> Size v < Capacity v ->
  match EmplaceBack k x v w with
  | Normal (v', r) w' =>
      Abs v' (xs ++ [x]) /\ r = Size v /\ Capacity v' = Capacity v /\
      w' = created (tick w)
  | Raised v' w' => v' = v /\ w' = tick w
  | Undefined => False
  end.
Proof.
  unfold Size. intros H Hlt. destruct (Abs_elim v xs H) as (cap & -> & Hb).
  cbn [vec size_ Capacity data_ capacity_] in *.
  rewrite EmplaceBack_spare_spec by lia.
  destruct (fails k (ops w)).
  - split; reflexivity.
  - split; [apply Abs_vec; lens|]. repeat split.
Qed.

(** X7: [Emplace] before an element of a vector with spare capacity,
    when it returns, has inserted the element without any allocation
    and with the capacity unchanged, through exactly
    [Size() - index + 2] constructor and assignment calls: the
    temporary, the move construction of the new last slot, one move
    assignment per shifted element and the move assignment of the
    temporary.  One more object is live afterwards, the temporary having
    been destroyed. *)
Theorem X7_insertion_with_spare_capacity (i : Z) (k : special) (x : T)
  (v : Vector) (xs : list T) (w : World) (v' : Vector) (r : Z)
  (w' : World) :
  Abs v xs -> 0 <= i < Size v -> Size v < Capacity v ->
  Emplace i k x v w = Normal (v', r) w' ->
  Abs v' (firstn (Z.to_nat i) xs ++ x :: skipn (Z.to_nat i) xs) /\
  Capacity v' = Capacity v /\ news w' = news w /\
  live w' = live w + 1 /\
  Z.of_nat (ops w') = Z.of_nat (ops w) + (Size v - i) + 2.
Proof.
  unfold Size. intros H Hi Hlt Hrun.
  destruct (Abs_elim v xs H) as (cap & -> & Hb).
  cbn [vec size_ Capacity data_ capacity_] in *.
  pose proof (split_at xs i ltac:(lia)) as Hl.
  pose proof (firstn_skipn (Z.to_nat i) xs) as Hx.
  set (l1 := firstn (Z.to_nat i) xs) in *.
  set (l2 := skipn (Z.to_nat i) xs) in *.
  clearbody l1 l2. subst xs i.
  rewrite length_app in *.
  destruct (exists_last_or_nil l2) as [->|(l2' & b & ->)];
    [simpl in Hi; lia|].
  pose proof (Emplace_spare_spec k x l1 l2' b cap w
                ltac:(rewrite !length_app in *; lia)) as Hs.
  rewrite Hrun in Hs. destruct Hs as (-> & _ & Hlive & Hnews & Hops).
  rewrite length_app in *. cbn [length] in *.
  split; [apply Abs_vec; lens|].
  split; [reflexivity|]. split; [exact Hnews|]. split; [exact Hlive|].
  lia.
Qed.

(** Reading a vector after an insertion. *)
Lemma inserted_at_index (v' : Vector) (l1 l2 : list T) (x : T) :
  Abs v' (l1 ++ x :: l2) ->
  at_index v' (Z.of_nat (length l1)) = Some x /\
  (forall j, 0 <= j < Z.of_nat (length l1) ->
             at_index v' j = nth_error (l1 ++ l2) (Z.to_nat j)) /\
  (forall j, Z.of_nat (length l1) <= j < Z.of_nat (length (l1 ++ l2)) ->
             at_index v' (j + 1) = nth_error (l1 ++ l2) (Z.to_nat j)).
Proof.
  intros Ha.
  assert (Hlen : length (l1 ++ x :: l2) = S (length l1 + length l2))
    by lens.
  split; [|split].
  - rewrite (Abs_at_index v' _ _ Ha) by lia.
    rewrite Nat2Z.id, nth_error_app2, Nat.sub_diag by lia. reflexivity.
  - intros j Hj. rewrite (Abs_at_index v' _ _ Ha) by lia.
    rewrite !nth_error_app1 by lia. reflexivity.
  - intros j Hj. rewrite length_app in Hj.
    rewrite (Abs_at_index v' _ _ Ha) by lia.
    rewrite !nth_error_app2 by lia.
    replace (Z.to_nat (j + 1) - length l1)%nat
      with (S (Z.to_nat j - length l1)) by lia.
    reflexivity.
Qed.

(** X8: [Emplace] at a valid position [i], when it returns, gives back
    the iterator [begin() + i]; reading through it yields the new
    element, the elements before [i] are where they were and every
    element from [i] on is found one position further. *)
Theorem X8_Emplace_places_the_element (i : Z) (k : special) (x : T)
  (v : Vector) (xs : list T) (w : World) (v' : Vector) (r : Z)
  (w' : World) :
  Abs v xs -> 0 <= i <= Size v ->
  Emplace i k x v w = Normal (v', r) w' ->
  r = begin v' + i /\ Size v' = Size v + 1 /\
  at_index v' r = Some x /\
  (forall j, 0 <= j < i -> at_index v' j = at_index v j) /\
  (forall j, i <= j < Size v -> at_index v' (j + 1) = at_index v j).
Proof.
  unfold Size, begin. intros H Hi Hrun.
  pose proof (Emplace_Abs i k x v xs w H Hi) as Hs. rewrite Hrun in Hs.
  destruct Hs as (Ha & -> & _ & _).
  pose proof (Abs_size v xs H) as Hsz.
  pose proof (Abs_size v' _ Ha) as Hsz'.
  pose proof (split_at xs i ltac:(lia)) as Hl.
  pose proof (firstn_skipn (Z.to_nat i) xs) as Hx.
  set (l1 := firstn (Z.to_nat i) xs) in *.
  set (l2 := skipn (Z.to_nat i) xs) in *.
  clearbody l1 l2. subst xs i.
  rewrite length_app in *. cbn [length] in *.
  destruct (inserted_at_index v' l1 l2 x Ha) as (Hnew & Hbefore & Hafter).
  split; [reflexivity|]. split; [lia|]. split; [exact Hnew|]. split.
  - intros j Hj. rewrite (Hbefore j Hj).
    symmetry. apply Abs_at_index; [exact H|lens].
  - intros j Hj. rewrite (Hafter j) by lens.
    symmetry. apply Abs_at_index; [exact H|lens].
Qed.

(** X9: [EmplaceBack], when it returns, gives back a reference to the
    element at the old size; that element holds the value constructed,
    and the elements that were there are read back unchanged, with or
    without reallocation. *)
Theorem X9_EmplaceBack_returns_the_new_element (k : special) (x : T)
  (v : Vector) (xs : list T) (w : World) (v' : Vector) (r : Z)
  (w' : World) :
  Abs v xs -> EmplaceBack k x v w = Normal (v', r) w' ->
  r = Size v /\ Size v' = Size v + 1 /\ at_index v' r = Some x /\
  forall j, 0 <= j < Size v -> at_index v' j = at_index v j.
Proof.
  unfold Size. intros H Hrun.
  pose proof (EmplaceBack_Abs k x v xs w H) as Hs. rewrite Hrun in Hs.
  destruct Hs as (Ha & -> & _ & _).
  pose proof (Abs_size v xs H) as Hsz.
  pose proof (Abs_size v' _ Ha) as Hsz'.
  rewrite length_app in Hsz'. cbn [length] in Hsz'.
  change (xs ++ [x]) with (xs ++ x :: []) in Ha.
  destruct (inserted_at_index v' xs [] x Ha) as (Hnew & Hbefore & _).
  split; [reflexivity|]. split; [lia|].
  split; [rewrite Hsz; exact Hnew|].
  intros j Hj. rewrite (Hbefore j) by lia. rewrite app_nil_r.
  symmetry. apply Abs_at_index; [exact H|lia].
Qed.

Lemma Erase_last_spec (l : list T) (d : T) (cap : Z) (w : World) :
  Z.of_nat (length (l ++ [d])) <= cap <= max_slots ->
  Erase (Z.of_nat (length l)) (vec (l ++ [d]) cap) w
  = Normal (vec l cap, Z.of_nat (length l)) (destroyed 1 w).
Proof.
  intros Hb. pose proof max_slots_lt as Hmax.
  rewrite length_app in Hb. cbn [length] in Hb.
  unfold Erase. cbn [vec data_ size_].
  replace (wrap (Z.of_nat (length (l ++ [d])) - Z.of_nat (length l)))
    with (Z.of_nat (length (map Some [d])))
    by (rewrite wrap_small; lens).
  rewrite holding_app.
  rewrite (load_mid (map Some l) (map Some [d])) by lens.
  cbn [map move_left move_chain].
  rewrite (store_mid (map Some l) [Some d]) by lens.
  replace (wrap (Z.of_nat (length (l ++ [d])) - 1))
    with (Z.of_nat (length l)) by (rewrite wrap_small; lens).
  rewrite (load_mid (map Some l) (map Some [d])) by lens.
  rewrite destroy_n_live.
  rewrite (store_mid (map Some l) (map Some [d])) by lens.
  f_equal. f_equal. unfold vec. f_equal. f_equal.
  unfold holding. f_equal. apply repeat_join. lens.
Qed.

(** X10: [Erase] at the last element does what [PopBack] does: no move
    assignment is made, the call cannot throw, the last element is
    destroyed and the same vector results; the iterator returned is the
    end iterator. *)
Theorem X10_Erase_last_is_PopBack (v : Vector) (xs : list T) (w : World) :
  Abs v xs -> 0 < Size v ->
  exists v',
    PopBack v w = Normal v' (destroyed 1 w) /\
    Erase (Size v - 1) v w = Normal (v', end_ v') (destroyed 1 w) /\
    Abs v' (removelast xs).
Proof.
  unfold Size, end_. intros H Hpos.
  destruct (Abs_elim v xs H) as (cap & -> & Hb).
  cbn [vec size_] in *.
  destruct (exists_last_or_nil xs) as [->|(l & d & ->)];
    [simpl in Hpos; lia|].
  exists (vec l cap). rewrite PopBack_spec by exact Hb.
  split; [reflexivity|].
  replace (Z.of_nat (length (l ++ [d])) - 1) with (Z.of_nat (length l))
    by lens.
  rewrite Erase_last_spec by exact Hb. split; [reflexivity|].
  rewrite removelast_last. apply Abs_vec.
  rewrite length_app in Hb. simpl in Hb. lia.
Qed.

Lemma Erase_out_of_range (xs : list T) (cap : Z) (i : Z) (w : World) :
  Z.of_nat (length xs) <= cap <= max_slots ->
  Z.of_nat (length xs) <= i < 2 ^ 64 ->
  Erase i (vec xs cap) w = Undefined.
Proof.
  intros Hb Hi. pose proof max_slots_lt as Hmax.
  unfold Erase. cbn [vec data_ size_].
  destruct (Z.eq_dec i (Z.of_nat (length xs))) as [->|Hne].
  - rewrite Z.sub_diag. change (wrap 0) with 0.
    unfold holding.
    change (map Some xs ++ ?r) with (map Some xs ++ [] ++ r).
    rewrite (load_mid (map Some xs) []) by lens.
    reflexivity.
  - unfold load, slice. cbn [buffer_].
    replace (i + wrap (Z.of_nat (length xs) - i)
             <=? Z.of_nat (length (holding xs cap))) with false.
    + rewrite andb_false_r. reflexivity.
    + symmetry. apply Z.leb_gt. unfold holding, wrap.
      rewrite length_app, length_map, repeat_length.
      replace ((Z.of_nat (length xs) - i) mod 2 ^ 64)
        with (Z.of_nat (length xs) - i + 2 ^ 64).
      * lia.
      * apply Z.mod_unique with (q := -1); lia.
Qed.

(** X11: the preconditions are not checked.  [PopBack] on an empty
    vector computes the index [size_ - 1], which wraps to [2^64 - 1],
    and [Erase] at or past the end walks outside the elements: neither
    call returns or throws, the behaviour is undefined. *)
Theorem X11_unchecked_preconditions (v : Vector) (xs : list T) (w : World) :
  Abs v xs ->
  (Size v = 0 -> PopBack v w = Undefined) /\
  (forall i, Size v <= i < 2 ^ 64 -> Erase i v w = Undefined).
Proof.
  unfold Size. intros H. destruct (Abs_elim v xs H) as (cap & -> & Hb).
  cbn [vec size_]. split.
  - intros Hz. destruct xs; [|simpl in Hz; lia].
    apply PopBack_empty. simpl in Hb. lia.
  - intros i Hi. apply Erase_out_of_range; assumption.
Qed.

End InPlace.

(** ** Capacity and live objects across calls *)

Section Accounting.
Context {Elem : ElementType} {Sched : Schedule}.

(** What every call that returns does to the capacity and to the number
    of live objects. *)
Lemma perform_Normal_facts (op : operation) (v : Vector) (xs : list T)
  (w : World) (v' : Vector) (w' : World) :
  Abs v xs -> admissible op v -> perform op v w = Normal v' w' ->
  Capacity v <= Capacity v' /\
  live w' - live w = size_ v' - size_ v.
Proof.
  intros H Hadm Hrun.
  pose proof (Abs_size v xs H) as Hsz.
  pose proof (Abs_capacity v xs H) as Hcap.
  assert (Hgrow : forall v1 x,
             Abs v1 (xs ++ [x]) ->
             Capacity v1 = (if size_ v =? Capacity v
                            then Z.max 1 (2 * size_ v) else Capacity v) ->
             Capacity v <= Capacity v1 /\ size_ v1 = size_ v + 1).
  { intros v1 x Ha Hc. pose proof (Abs_size v1 _ Ha) as Hs1.
    rewrite length_app in Hs1. cbn [length] in Hs1.
    split; [|lia]. rewrite Hc.
    destruct (Z.eqb_spec (size_ v) (Capacity v)); lia. }
  assert (Hins : forall v1 i x,
             Abs v1 (firstn (Z.to_nat i) xs ++ x :: skipn (Z.to_nat i) xs) ->
             Capacity v1 = (if size_ v =? Capacity v
                            then Z.max 1 (2 * size_ v) else Capacity v) ->
             Capacity v <= Capacity v1 /\ size_ v1 = size_ v + 1).
  { intros v1 i x Ha Hc. pose proof (Abs_size v1 _ Ha) as Hs1.
    pose proof (firstn_skipn (Z.to_nat i) xs) as Hx.
    apply (f_equal (@length T)) in Hx.
    rewrite length_app in Hs1, Hx. cbn [length] in Hs1.
    split; [|lia]. rewrite Hc.
    destruct (Z.eqb_spec (size_ v) (Capacity v)); lia. }
  destruct op; simpl in Hadm, Hrun.
  - destruct (Reserve_returns capacity v xs w v' w' H Hrun)
      as (Hs' & Hc & Hl). lia.
  - destruct (Resize_returns new_size v xs w v' w' H Hadm Hrun)
      as (Hs' & Hc & Hl). lia.
  - pose proof (PushBack_Abs by_move value v xs w H) as Hs.
    rewrite Hrun in Hs. destruct Hs as (Ha & Hc & Hl).
    destruct (Hgrow v' value Ha Hc). lia.
  - apply drop_result_Normal in Hrun as (r & Hrun).
    pose proof (EmplaceBack_Abs k x v xs w H) as Hs.
    rewrite Hrun in Hs. destruct Hs as (Ha & _ & Hc & Hl).
    destruct (Hgrow v' x Ha Hc). lia.
  - destruct (PopBack_Abs v xs w H Hadm) as (v1 & Hp & Ha & Hc).
    rewrite Hp in Hrun. injection Hrun as <- <-.
    pose proof (Abs_size v1 _ Ha) as Hs1.
    rewrite removelast_length in Hs1. simpl. lia.
  - apply drop_result_Normal in Hrun as (r & Hrun). unfold Insert in Hrun.
    pose proof (Emplace_Abs index (if by_move then MoveCtor else CopyCtor)
                  value v xs w H Hadm) as Hs.
    rewrite Hrun in Hs. destruct Hs as (Ha & _ & Hc & Hl).
    destruct (Hins v' index value Ha Hc). lia.
  - apply drop_result_Normal in Hrun as (r & Hrun).
    pose proof (Emplace_Abs index k x v xs w H Hadm) as Hs.
    rewrite Hrun in Hs. destruct Hs as (Ha & _ & Hc & Hl).
    destruct (Hins v' index x Ha Hc). lia.
  - apply drop_result_Normal in Hrun as (r & Hrun).
    pose proof (Erase_Abs index v xs w H Hadm) as Hs.
    rewrite Hrun in Hs. destruct Hs as (Ha & _ & Hc & Hl).
    pose proof (Abs_size v' _ Ha) as Hs1.
    destruct (elem_split xs index ltac:(lia))
      as (l1 & d & l2 & Hx & _ & _ & E1 & E2).
    rewrite E1, E2 in Hs1. rewrite Hx in Hsz.
    rewrite length_app in Hs1, Hsz. cbn [length] in Hsz. lia.
Qed.

(** X12: none of these calls ever shrinks the storage: after any call
    of [Reserve], [Resize], [PushBack], [EmplaceBack], [PopBack],
    [Insert], [Emplace] or [Erase] that returns, the capacity is at
    least what it was, also when elements were removed. *)
Theorem X12_capacity_never_decreases (op : operation) (v : Vector)
  (xs : list T) (w : World) (v' : Vector) (w' : World) :
  Abs v xs -> admissible op v -> perform op v w = Normal v' w' ->
  Capacity v <= Capacity v'.
Proof.
  intros H Hadm Hrun.
  apply (perform_Normal_facts op v xs w v' w' H Hadm Hrun).
Qed.

(** X13: a call of [Reserve], [Resize], [PushBack], [EmplaceBack],
    [PopBack], [Insert], [Emplace] or [Erase] that returns has
    constructed and destroyed objects of [T] so that the number of live
    objects changed by exactly the change of the size: temporaries and
    the elements of a replaced storage are all destroyed, and nothing
    else is.  (Assignment between vectors and [Swap] are not among
    these calls.) *)
Theorem X13_live_objects_follow_the_size (op : operation) (v : Vector)
  (xs : list T) (w : World) (v' : Vector) (w' : World) :
  Abs v xs -> admissible op v -> perform op v w = Normal v' w' ->
  live w' - live w = Size v' - Size v.
Proof.
  intros H Hadm Hrun.
  apply (perform_Normal_facts op v xs w v' w' H Hadm Hrun).
Qed.

Lemma returns_after_facts (ops : list operation) (v : Vector) (w : World)
  (v' : Vector) (w' : World) :
  returns_after ops v w v' w' ->
  (exists xs, Abs v xs) ->
  (exists xs', Abs v' xs') /\ live w' - live w = size_ v' - size_ v.
Proof.
  intros Hr.
  induction Hr as [v w|op ops v w v1 w1 v' w' Hadm Hfit Hrun Hr IH];
    intros (xs & Ha).
  - split; [exists xs; exact Ha|lia].
  - pose proof (perform_Normal_facts op v xs w v1 w1 Ha Hadm Hrun)
      as (_ & Hl).
    destruct (IH (perform_Abs op v xs w v1 w1 Ha Hadm Hfit Hrun))
      as (Ha' & Hl').
    split; [exact Ha'|lia].
Qed.

(** X14: a vector that is default-constructed, taken through any
    sequence of calls of [Reserve], [Resize], [PushBack], [EmplaceBack],
    [PopBack], [Insert], [Emplace] and [Erase] that meet their
    preconditions, ask for storage of a representable byte count and
    return, and then destroyed, leaves the number of live objects of [T]
    where it started: the destructor meets only live elements and
    destroys each of them.  (Assignment between vectors and [Swap] are
    not among these calls; move assignment does not keep this
    balance.) *)
Theorem X14_whole_lifetime_balances (ops : list operation) (w : World)
  (v : Vector) (w' : World) :
  returns_after ops Vector_default w v w' ->
  exists w'', Vector_destroy v w' = Some w'' /\ live w'' = live w.
Proof.
  intros Hr.
  destruct (returns_after_facts ops Vector_default w v w' Hr
              (ex_intro _ [] Abs_default)) as ((xs & Ha) & Hl).
  destruct (Abs_elim v xs Ha) as (cap & -> & Hb).
  rewrite Vector_destroy_spec. eexists. split; [reflexivity|].
  cbn [vec size_] in Hl. simpl in *. lia.
Qed.

End Accounting.

(** ** Calls that throw *)

Section Throwing.
Context {Elem : ElementType} {Sched : Schedule}.

Lemma EmplaceBack_Raised_facts (k : special) (x : T) (v : Vector)
  (xs : list T) (w : World) (v' : Vector) (w' : World) :
  Abs v xs -> EmplaceBack k x v w = Raised v' w' ->
  exists xs', Abs v' xs' /\ length xs' = length xs /\
              Capacity v <= Capacity v' /\ live w' = live w.
Proof.
  intros H Hrun. destruct (Abs_elim v xs H) as (cap & -> & Hb).
  pose proof (EmplaceBack_spec k x xs cap w Hb) as Hs. rewrite Hrun in Hs.
  destruct Hs as (Hl & _ & xs' & -> & Hlen).
  exists xs'. split; [apply Abs_vec; lia|]. split; [exact Hlen|].
  split; [cbn; lia|exact Hl].
Qed.

(** X15: the basic guarantee.  When [Reserve], [Resize] to a size whose
    byte count is a [size_t] value, [PushBack], [EmplaceBack], [Erase],
    or an [Insert] or [Emplace] at the end throws, the vector is still
    well-formed: it has as many elements as before, all of them live, a
    capacity at least as large, and the number of live objects of [T] is
    what it was before the call.  ([Resize(n)] with [n * sizeof(T)]
    wrapping around can throw after [Reserve(n)] has left a capacity of
    [n] over a smaller block.) *)
Theorem X15_basic_guarantee (op : operation) (v : Vector) (xs : list T)
  (w : World) (v' : Vector) (w' : World) :
  Abs v xs -> admissible op v ->
  (forall i, insertion_index op v = Some i -> i = Size v) ->
  (forall n, op = CallResize n -> n * sizeof_T < 2 ^ 64) ->
  perform op v w = Raised v' w' ->
  exists xs', Abs v' xs' /\ length xs' = length xs /\
              Capacity v <= Capacity v' /\ live w' = live w.
Proof.
  unfold Size. intros H Hadm Hend Hfit Hrun.
  destruct op; simpl in Hadm, Hrun, Hend.
  - destruct (Abs_elim v xs H) as (cap & -> & Hb).
    destruct (Z.le_gt_cases capacity cap) as [Hle|Hgt].
    + rewrite Reserve_noop in Hrun by exact Hle. discriminate.
    + pose proof (Reserve_grow_spec capacity xs cap w Hb Hgt) as Hs.
      rewrite Hrun in Hs. destruct Hs as (Hl & _ & xs' & -> & Hlen).
      exists xs'. split; [apply Abs_vec; lia|]. split; [exact Hlen|].
      split; [cbn; lia|exact Hl].
  - pose proof (Resize_Abs new_size v xs w H ltac:(lia)
                  (Hfit new_size eq_refl)) as Hs.
    rewrite Hrun in Hs. destruct Hs as (_ & _ & Hl & Hc & xs' & Ha & Hlen).
    exists xs'. split; [exact Ha|]. split; [exact Hlen|].
    split; [lia|exact Hl].
  - unfold PushBack in Hrun.
    destruct (EmplaceBack (if by_move then MoveCtor else CopyCtor) value v w)
      as [[v1 r] w1|v1 w1|] eqn:E; try discriminate.
    injection Hrun as <- <-.
    apply (EmplaceBack_Raised_facts _ _ v xs w v1 w1 H E).
  - apply drop_result_Raised in Hrun.
    apply (EmplaceBack_Raised_facts _ _ v xs w v' w' H Hrun).
  - destruct (PopBack_Abs v xs w H Hadm) as (v1 & Hp & _).
    rewrite Hp in Hrun. discriminate.
  - apply drop_result_Raised in Hrun. unfold Insert in Hrun.
    rewrite (Hend index eq_refl), Emplace_end in Hrun.
    apply (EmplaceBack_Raised_facts _ _ v xs w v' w' H Hrun).
  - apply drop_result_Raised in Hrun.
    rewrite (Hend index eq_refl), Emplace_end in Hrun.
    apply (EmplaceBack_Raised_facts _ _ v xs w v' w' H Hrun).
  - apply drop_result_Raised in Hrun.
    pose proof (Erase_Abs index v xs w H Hadm) as Hs. rewrite Hrun in Hs.
    destruct Hs as (Hl & Hc & xs' & Ha & Hlen).
    exists xs'. split; [exact Ha|]. split; [exact Hlen|].
    split; [lia|exact Hl].
Qed.

End Throwing.

(** ** Growth by repeated [PushBack] *)

Section Growth.
Context {Elem : ElementType} {Sched : Schedule}.

(** The calls a [PushBack] that returns has made. *)
Lemma PushBack_account (m : bool) (x : T) (xs : list T) (cap : Z)
  (w : World) (v' : Vector) (w' : World) :
  Z.of_nat (length xs) <= cap <= max_slots ->
  PushBack m x (vec xs cap) w = Normal v' w' ->
  if Z.of_nat (length xs) =? cap
  then v' = vec (xs ++ [x]) (Z.max 1 (2 * cap)) /\
       Z.max 1 (2 * cap) <= max_slots /\
       ops w' = (ops w + 1 + length xs)%nat /\ news w' = S (news w)
  else v' = vec (xs ++ [x]) cap /\ w' = created (tick w).
Proof.
  intros Hb Hrun. unfold PushBack in Hrun.
  destruct (Z.eqb_spec (Z.of_nat (length xs)) cap) as [E|E].
  - rewrite EmplaceBack_full in Hrun by (cbn; exact E).
    cbn [vec size_] in Hrun. fold (vec xs cap) in Hrun.
    pose proof (Realloc_spec (if m then MoveCtor else CopyCtor) x xs []
                  cap w) as Hs.
    rewrite app_nil_r in Hs. specialize (Hs Hb).
    destruct (ReallocateMemoryAddingNewElement (Z.of_nat (length xs))
                (if m then MoveCtor else CopyCtor) x (vec xs cap) w)
      as [[v1 r] w1|v1 w1|]; try discriminate.
    injection Hrun as <- <-.
    destruct Hs as (-> & _ & Hc & _ & Ho & Hn). rewrite <- E.
    conjs; first [reflexivity|assumption].
  - rewrite EmplaceBack_spare_spec in Hrun by lia.
    destruct (fails (if m then MoveCtor else CopyCtor) (ops w));
      try discriminate.
    injection Hrun as <- <-. split; reflexivity.
Qed.

Lemma pushes_double (cmds : list command) :
  forall (xs : list T) (k : nat) (w : World) (v' : Vector) (w' : World),
    pops cmds = 0 ->
    2 ^ Z.of_nat k <= max_slots ->
    0 < Z.of_nat (length xs) <= 2 ^ Z.of_nat k ->
    2 ^ Z.of_nat k < 2 * Z.of_nat (length xs) ->
    run cmds (vec xs (2 ^ Z.of_nat k)) w = Normal v' w' ->
    exists k' : nat,
      Capacity v' = 2 ^ Z.of_nat k' /\
      size_ v' = Z.of_nat (length xs) + pushes cmds /\
      size_ v' <= Capacity v' < 2 * size_ v' /\
      (news w' + k = news w + k')%nat /\
      Z.of_nat (ops w') + Z.of_nat (length xs) + 2 ^ Z.of_nat k
      = Z.of_nat (ops w) + size_ v' + Capacity v'.
Proof.
  induction cmds as [|c rest IH]; intros xs k w v' w' Hp Hm Hlen Hlt Hrun.
  - simpl in Hrun. injection Hrun as <- <-. exists k.
    cbn [vec Capacity data_ capacity_ size_ pushes]. conjs; lia.
  - destruct c as [m x|];
      [|cbn [pops] in Hp; pose proof (pops_nonneg rest); lia].
    cbn [pops] in Hp. cbn [run execute] in Hrun.
    destruct (PushBack m x (vec xs (2 ^ Z.of_nat k)) w) as [v1 w1|v1 w1|]
      eqn:E; try discriminate.
    pose proof (PushBack_account m x xs (2 ^ Z.of_nat k) w v1 w1
                  ltac:(lia) E) as Ha.
    assert (Hxs : Z.of_nat (length (xs ++ [x])) = Z.of_nat (length xs) + 1)
      by lens.
    destruct (Z.eqb_spec (Z.of_nat (length xs)) (2 ^ Z.of_nat k)) as [Hfull|Hsp].
    + destruct Ha as (-> & Hc & Ho & Hn).
      assert (Hpow : Z.max 1 (2 * 2 ^ Z.of_nat k) = 2 ^ Z.of_nat (S k)).
      { rewrite Nat2Z.inj_succ, Z.pow_succ_r by lia. lia. }
      rewrite Hpow in *.
      destruct (IH (xs ++ [x]) (S k) w1 v' w' Hp Hc ltac:(lia)
                  ltac:(rewrite Nat2Z.inj_succ, Z.pow_succ_r in *; lia) Hrun)
        as (k' & Hc' & Hs' & Hb' & Hn' & Ho').
      exists k'. cbn [pushes].
      rewrite Nat2Z.inj_succ, Z.pow_succ_r in Ho' by lia.
      conjs; lia.
    + destruct Ha as (-> & ->).
      destruct (IH (xs ++ [x]) k _ v' w' Hp Hm ltac:(lia) ltac:(lia) Hrun)
        as (k' & Hc' & Hs' & Hb' & Hn' & Ho').
      exists k'. cbn [pushes].
      cbn [news ops created tick] in Hn', Ho'.
      conjs; lia.
Qed.

(** X16: doubling growth.  After any non-empty sequence of [PushBack]
    calls on a default-constructed vector, the capacity is a power of
    two, at least the size and less than twice the size; the number of
    allocations made is one more than the exponent; and the number of
    constructor calls made in total is [size + capacity - 1], fewer
    than three per element pushed. *)
Theorem X16_doubling_growth (cmds : list command) (w : World) (v : Vector)
  (w' : World) :
  pops cmds = 0 -> cmds <> [] ->
  run cmds Vector_default w = Normal v w' ->
  Size v = pushes cmds /\
  Size v <= Capacity v < 2 * Size v /\
  (exists k : nat,
      Capacity v = 2 ^ Z.of_nat k /\ news w' = (news w + k + 1)%nat) /\
  Z.of_nat (ops w') = Z.of_nat (ops w) + Size v + Capacity v - 1 /\
  Z.of_nat (ops w') < Z.of_nat (ops w) + 3 * Size v.
Proof.
  unfold Size. intros Hp Hne Hrun.
  destruct cmds as [|c rest]; [congruence|].
  destruct c as [m x|];
    [|cbn [pops] in Hp; pose proof (pops_nonneg rest); lia].
  cbn [pops] in Hp. cbn [run execute] in Hrun.
  change Vector_default with (vec [] 0) in Hrun.
  destruct (PushBack m x (vec [] 0) w) as [v1 w1|v1 w1|] eqn:E;
    try discriminate.
  pose proof max_slots_nonneg as Hms.
  pose proof (PushBack_account m x [] 0 w v1 w1
                ltac:(cbn [length]; lia) E) as Ha.
  change (Z.of_nat (length (@nil T)) =? 0) with true in Ha.
  change (Z.max 1 (2 * 0)) with 1 in Ha.
  destruct Ha as (-> & Hc & Ho & Hn). cbn [app length] in Ho.
  change 1 with (2 ^ Z.of_nat 0) in Hrun.
  destruct (pushes_double rest [x] 0 w1 v w' Hp Hc
              ltac:(simpl; lia) ltac:(simpl; lia) Hrun)
    as (k' & Hc' & Hs' & Hb' & Hn' & Ho').
  cbn [pushes]. cbn [length] in Hs', Ho'.
  change (2 ^ Z.of_nat 0) with 1 in Ho'.
  split; [lia|]. split; [lia|]. split.
  - exists k'. split; [exact Hc'|lia].
  - split; lia.
Qed.

Lemma pushes_in_place (cmds : list command) :
  forall (xs : list T) (cap : Z) (w : World) (v' : Vector) (w' : World),
    pops cmds = 0 ->
    Z.of_nat (length xs) + pushes cmds <= cap <= max_slots ->
    run cmds (vec xs cap) w = Normal v' w' ->
    v' = vec (replay cmds xs) cap /\ news w' = news w /\
    Z.of_nat (ops w') = Z.of_nat (ops w) + pushes cmds.
Proof.
  induction cmds as [|c rest IH]; intros xs cap w v' w' Hp Hb Hrun.
  - simpl in Hrun. injection Hrun as <- <-. cbn [replay pushes].
    conjs; try reflexivity; lia.
  - destruct c as [m x|];
      [|cbn [pops] in Hp; pose proof (pops_nonneg rest); lia].
    cbn [pops pushes] in *. cbn [run execute] in Hrun.
    pose proof (pushes_nonneg rest) as Hnn.
    destruct (PushBack m x (vec xs cap) w) as [v1 w1|v1 w1|] eqn:E;
      try discriminate.
    pose proof (PushBack_account m x xs cap w v1 w1 ltac:(lia) E) as Ha.
    destruct (Z.eqb_spec (Z.of_nat (length xs)) cap) as [Hfull|Hsp]; [lia|].
    destruct Ha as (-> & ->).
    destruct (IH (xs ++ [x]) cap _ v' w' Hp
                ltac:(rewrite length_app; cbn [length]; lia) Hrun)
      as (Hv & Hn & Ho).
    cbn [replay]. split; [exact Hv|].
    cbn [news ops created tick] in Hn, Ho. split; lia.
Qed.

(** X17: appending within the capacity never reallocates.  If a vector
    has room for [n] more elements, [n] [PushBack] calls that return
    leave the capacity unchanged, make no allocation and exactly one
    constructor call each, and the elements that were there are read
    back unchanged at their positions. *)
Theorem X17_appending_within_capacity (cmds : list command) (v : Vector)
  (xs : list T) (w : World) (v' : Vector) (w' : World) :
  Abs v xs -> pops cmds = 0 ->
  Size v + pushes cmds <= Capacity v ->
  run cmds v w = Normal v' w' ->
  Capacity v' = Capacity v /\ news w' = news w /\
  Z.of_nat (ops w') = Z.of_nat (ops w) + pushes cmds /\
  Size v' = Size v + pushes cmds /\
  forall j, 0 <= j < Size v -> at_index v' j = at_index v j.
Proof.
  unfold Size. intros H Hp Hroom Hrun.
  pose proof (Abs_size v xs H) as Hsz.
  destruct (run_Abs cmds v xs w v' w' H Hrun) as (Ha' & Hlen).
  destruct (Abs_elim v xs H) as (cap & -> & Hb).
  cbn [vec size_ Capacity data_ capacity_] in *.
  destruct (pushes_in_place cmds xs cap w v' w' Hp ltac:(lia) Hrun)
    as (Hv & Hn & Ho).
  rewrite Hp in Hlen. pose proof (pushes_nonneg cmds) as Hnn.
  split; [rewrite Hv; reflexivity|]. split; [exact Hn|].
  split; [exact Ho|].
  split; [rewrite (Abs_size v' _ Ha'); lia|].
  intros j Hj.
  rewrite (Abs_at_index v' _ j Ha') by lia.
  rewrite (Abs_at_index (vec xs cap) xs j (Abs_vec xs cap Hb)) by lia.
  clear - Hp Hj. revert xs Hj.
  induction cmds as [|c rest IH]; intros xs Hj; [reflexivity|].
  destruct c as [m x|];
    [|cbn [pops] in Hp; pose proof (pops_nonneg rest); lia].
  cbn [pops replay] in *.
  rewrite IH by (try assumption; rewrite length_app; cbn [length]; lia).
  apply nth_error_app1. lia.
Qed.

End Growth.

(** ** The further properties on concrete vectors *)

Lemma X1_witness :
  0 <= 2 /\ 2 * @sizeof_T copyable_nat < 2 ^ 64 /\
  exists v w', Vector_sized (Elem:=copyable_nat) (Sched:=calm) 2 world0 = Normal v w' /\
    Abs v [0%nat; 0%nat] /\ Size v = 2 /\ Capacity v = 2 /\ live w' = 2.
Proof.
  split; [lia|]. split; [reflexivity|].
  pose proof (X1_sized_constructor (Elem:=copyable_nat) (Sched:=calm) 2 world0
                ltac:(lia) eq_refl) as H.
  destruct (Vector_sized (Elem:=copyable_nat) (Sched:=calm) 2 world0) as [v w'| |] eqn:E;
    try discriminate E.
  destruct H as (Ha & Hs & Hc & Hl & _).
  exists v, w'. split; [reflexivity|].
  split; [exact Ha|]. split; [exact Hs|]. split; [exact Hc|exact Hl].
Defined.

Lemma X2_witness :
  Abs (cvec [1%nat; 2%nat] 4) [1%nat; 2%nat] /\
  exists v w', Vector_copy (Sched:=calm) (cvec [1%nat; 2%nat] 4) (mkWorld 2 0 0) = Normal v w' /\
    Abs v [1%nat; 2%nat] /\ Capacity v = 2 /\ live w' = 4.
Proof.
  assert (Ha : Abs (cvec [1%nat; 2%nat] 4) [1%nat; 2%nat])
    by (apply Abs_cvec; vm_compute; split; discriminate).
  split; [exact Ha|].
  pose proof (X2_copy_constructor (Sched:=calm) (cvec [1%nat; 2%nat] 4)
                [1%nat; 2%nat] (mkWorld 2 0 0) Ha) as H.
  destruct (Vector_copy (Sched:=calm) (cvec [1%nat; 2%nat] 4) (mkWorld 2 0 0))
    as [v w'| |] eqn:E; try discriminate E.
  destruct H as (Hv & Hc & Hl & _).
  exists v, w'. split; [reflexivity|].
  split; [exact Hv|]. split; [exact Hc|exact Hl].
Defined.

Lemma X3_witness :
  Abs (cvec [1%nat; 2%nat] 4) [1%nat; 2%nat] /\
  Vector_move (cvec [1%nat; 2%nat] 4)
  = (cvec [1%nat; 2%nat] 4, Vector_default (Elem:=copyable_nat)) /\
  Vector_destroy (Vector_default (Elem:=copyable_nat)) (mkWorld 2 0 0)
  = Some (mkWorld 2 0 0) /\
  Vector_destroy (cvec [1%nat; 2%nat] 4) (mkWorld 2 0 0)
  = Some (mkWorld 0 0 0).
Proof.
  assert (Ha : Abs (cvec [1%nat; 2%nat] 4) [1%nat; 2%nat])
    by (apply Abs_cvec; vm_compute; split; discriminate).
  split; [exact Ha|].
  exact (X3_move_constructor (cvec [1%nat; 2%nat] 4) [1%nat; 2%nat]
           (mkWorld 2 0 0) Ha).
Defined.

Lemma X5_witness :
  let v := cvec [1%nat; 2%nat] 2 in
  Reserve (Sched:=throw_at 1) 10 v (mkWorld 2 0 0) = Raised v (mkWorld 2 2 1) /\
  (v = v /\ live (mkWorld 2 2 1) = live (mkWorld 2 0 0) /\ Capacity v < 10).
Proof.
  split; [reflexivity|].
  apply (X5_Reserve_strong_guarantee (Sched:=throw_at 1) 10
           (cvec [1%nat; 2%nat] 2) [1%nat; 2%nat] (mkWorld 2 0 0)
           (cvec [1%nat; 2%nat] 2) (mkWorld 2 2 1)).
  - apply Abs_cvec. bounds.
  - left. reflexivity.
  - reflexivity.
Defined.

Lemma X6_witness :
  exists v' r w',
    EmplaceBack (Elem:=copyable_nat) (Sched:=calm) ArgsCtor 9%nat (cvec [1%nat; 2%nat] 4)
      (mkWorld 2 0 0) = Normal (v', r) w' /\
    Abs v' [1%nat; 2%nat; 9%nat] /\ r = 2 /\ Capacity v' = 4 /\
    w' = mkWorld 3 1 0.
Proof.
  pose proof (X6_append_with_spare_capacity (Elem:=copyable_nat) (Sched:=calm) ArgsCtor 9%nat
                (cvec [1%nat; 2%nat] 4) [1%nat; 2%nat] (mkWorld 2 0 0)
                (Abs_cvec [1%nat; 2%nat] 4 ltac:(bounds))
                ltac:(cbn; lia)) as H.
  destruct (EmplaceBack (Elem:=copyable_nat) (Sched:=calm) ArgsCtor 9%nat (cvec [1%nat; 2%nat] 4)
              (mkWorld 2 0 0)) as [[v' r] w'|v' w'|] eqn:E.
  - exists v', r, w'. split; [reflexivity|]. exact H.
  - discriminate E.
  - destruct H.
Defined.

Lemma X7_witness :
  let v := cvec [1%nat; 2%nat; 3%nat] 4 in
  let v' := cvec [1%nat; 9%nat; 2%nat; 3%nat] 4 in
  Emplace (Elem:=copyable_nat) (Sched:=calm) 1 ArgsCtor 9%nat v (mkWorld 3 0 0)
  = Normal (v', 1) (mkWorld 4 4 0) /\
  Abs v' [1%nat; 9%nat; 2%nat; 3%nat] /\
  Capacity v' = Capacity v /\
  news (mkWorld 4 4 0) = news (mkWorld 3 0 0) /\
  live (mkWorld 4 4 0) = live (mkWorld 3 0 0) + 1 /\
  Z.of_nat (ops (mkWorld 4 4 0))
  = Z.of_nat (ops (mkWorld 3 0 0)) + (Size v - 1) + 2.
Proof.
  split; [reflexivity|].
  apply (X7_insertion_with_spare_capacity (Elem:=copyable_nat) (Sched:=calm) 1 ArgsCtor 9%nat
           (cvec [1%nat; 2%nat; 3%nat] 4) [1%nat; 2%nat; 3%nat]
           (mkWorld 3 0 0)
           (cvec [1%nat; 9%nat; 2%nat; 3%nat] 4) 1 (mkWorld 4 4 0)).
  - apply Abs_cvec. bounds.
  - cbn. lia.
  - cbn. lia.
  - reflexivity.
Defined.

Lemma X8_witness :
  let v := cvec [1%nat; 2%nat; 3%nat] 4 in
  let v' := cvec [1%nat; 9%nat; 2%nat; 3%nat] 4 in
  Emplace (Elem:=copyable_nat) (Sched:=calm) 1 ArgsCtor 9%nat v (mkWorld 3 0 0)
  = Normal (v', 1) (mkWorld 4 4 0) /\
  1 = begin v' + 1 /\ Size v' = Size v + 1 /\
  at_index v' 1 = Some 9%nat /\
  (forall j, 0 <= j < 1 -> at_index v' j = at_index v j) /\
  (forall j, 1 <= j < Size v -> at_index v' (j + 1) = at_index v j).
Proof.
  split; [reflexivity|].
  apply (X8_Emplace_places_the_element (Elem:=copyable_nat) (Sched:=calm)
           1 ArgsCtor 9%nat
           (cvec [1%nat; 2%nat; 3%nat] 4) [1%nat; 2%nat; 3%nat]
           (mkWorld 3 0 0)
           (cvec [1%nat; 9%nat; 2%nat; 3%nat] 4) 1 (mkWorld 4 4 0)).
  - apply Abs_cvec. bounds.
  - cbn. lia.
  - reflexivity.
Defined.

Lemma X9_witness :
  let v := cvec [1%nat; 2%nat] 2 in
  let v' := cvec [1%nat; 2%nat; 9%nat] 4 in
  EmplaceBack (Elem:=copyable_nat) (Sched:=calm) ArgsCtor 9%nat v
    (mkWorld 2 0 0) = Normal (v', 2) (mkWorld 3 3 1) /\
  2 = Size v /\ Size v' = Size v + 1 /\ at_index v' 2 = Some 9%nat /\
  forall j, 0 <= j < Size v -> at_index v' j = at_index v j.
Proof.
  split; [reflexivity|].
  apply (X9_EmplaceBack_returns_the_new_element (Elem:=copyable_nat)
           (Sched:=calm) ArgsCtor 9%nat
           (cvec [1%nat; 2%nat] 2) [1%nat; 2%nat] (mkWorld 2 0 0)
           (cvec [1%nat; 2%nat; 9%nat] 4) 2 (mkWorld 3 3 1)).
  - apply Abs_cvec. bounds.
  - reflexivity.
Defined.

Lemma X10_witness :
  let v := cvec [1%nat; 2%nat; 3%nat] 4 in
  0 < Size v /\
  exists v',
    PopBack v (mkWorld 3 0 0) = Normal v' (destroyed 1 (mkWorld 3 0 0)) /\
    Erase (Sched:=calm) (Size v - 1) v (mkWorld 3 0 0)
    = Normal (v', end_ v') (destroyed 1 (mkWorld 3 0 0)) /\
    Abs v' (removelast [1%nat; 2%nat; 3%nat]).
Proof.
  split; [cbn; lia|].
  apply (X10_Erase_last_is_PopBack (Sched:=calm)
           (cvec [1%nat; 2%nat; 3%nat] 4) [1%nat; 2%nat; 3%nat]
           (mkWorld 3 0 0)).
  - apply Abs_cvec. bounds.
  - cbn. lia.
Defined.

Lemma X11_witness :
  let v := cvec [] 4 in
  Abs v [] /\
  (Size v = 0 -> PopBack v world0 = Undefined) /\
  (forall i, Size v <= i < 2 ^ 64 -> Erase (Sched:=calm) i v world0 = Undefined).
Proof.
  assert (Ha : Abs (cvec [] 4) []) by (apply Abs_cvec; bounds).
  split; [exact Ha|].
  exact (X11_unchecked_preconditions (Sched:=calm) (cvec [] 4) [] world0 Ha).
Defined.

Lemma X12_witness :
  let v := cvec [1%nat; 2%nat] 2 in
  let v' := cvec [5%nat; 1%nat; 2%nat] 4 in
  perform (Sched:=calm) (CallInsert (Elem:=copyable_nat) 0 false 5%nat) v
    (mkWorld 2 0 0) = Normal v' (mkWorld 3 3 1) /\
  Capacity v <= Capacity v'.
Proof.
  split; [reflexivity|].
  apply (X12_capacity_never_decreases (Sched:=calm)
           (CallInsert (Elem:=copyable_nat) 0 false 5%nat)
           (cvec [1%nat; 2%nat] 2) [1%nat; 2%nat] (mkWorld 2 0 0)
           (cvec [5%nat; 1%nat; 2%nat] 4) (mkWorld 3 3 1)).
  - apply Abs_cvec. bounds.
  - cbn. lia.
  - reflexivity.
Defined.

Lemma X13_witness :
  let v := cvec [1%nat; 2%nat; 3%nat] 4 in
  let v' := cvec [1%nat] 4 in
  perform (Sched:=calm) (CallResize (Elem:=copyable_nat) 1) v (mkWorld 3 0 0)
  = Normal v' (mkWorld 1 0 0) /\
  live (mkWorld 1 0 0) - live (mkWorld 3 0 0) = Size v' - Size v.
Proof.
  split; [reflexivity|].
  apply (X13_live_objects_follow_the_size (Sched:=calm)
           (CallResize (Elem:=copyable_nat) 1)
           (cvec [1%nat; 2%nat; 3%nat] 4) [1%nat; 2%nat; 3%nat]
           (mkWorld 3 0 0) (cvec [1%nat] 4) (mkWorld 1 0 0)).
  - apply Abs_cvec. bounds.
  - cbn. lia.
  - reflexivity.
Defined.

Lemma X14_witness :
  let ops := [CallPushBack (Elem:=copyable_nat) false 1%nat;
              CallPushBack (Elem:=copyable_nat) false 2%nat;
              CallErase 0] in
  returns_after (Sched:=calm) ops Vector_default world0
    (cvec [2%nat] 2) (mkWorld 1 4 2) /\
  exists w'', Vector_destroy (cvec [2%nat] 2) (mkWorld 1 4 2) = Some w'' /\
              live w'' = live world0.
Proof.
  assert (H : returns_after (Sched:=calm)
                [CallPushBack (Elem:=copyable_nat) false 1%nat;
                 CallPushBack (Elem:=copyable_nat) false 2%nat;
                 CallErase 0]
                Vector_default world0 (cvec [2%nat] 2) (mkWorld 1 4 2)).
  { apply after_cons with (v1 := cvec [1%nat] 1) (w1 := mkWorld 1 1 1);
      [exact I|exact I|reflexivity|].
    apply after_cons with (v1 := cvec [1%nat; 2%nat] 2) (w1 := mkWorld 2 3 2);
      [exact I|exact I|reflexivity|].
    apply after_cons with (v1 := cvec [2%nat] 2) (w1 := mkWorld 1 4 2);
      [cbn; lia|exact I|reflexivity|].
    apply after_nil. }
  split; [exact H|].
  exact (X14_whole_lifetime_balances (Sched:=calm) _ _ _ _ H).
Defined.

Lemma X15_witness :
  let v := mvec [1%nat; 2%nat] 2 in
  let v' := mvec [0%nat; 2%nat] 2 in
  perform (Sched:=throw_at 2) (CallPushBack (Elem:=move_only_nat) true 5%nat)
    v (mkWorld 2 0 0) = Raised v' (mkWorld 2 3 1) /\
  exists xs', Abs v' xs' /\ length xs' = length [1%nat; 2%nat] /\
              Capacity v <= Capacity v' /\
              live (mkWorld 2 3 1) = live (mkWorld 2 0 0).
Proof.
  split; [reflexivity|].
  apply (X15_basic_guarantee (Sched:=throw_at 2)
           (CallPushBack (Elem:=move_only_nat) true 5%nat)
           (mvec [1%nat; 2%nat] 2) [1%nat; 2%nat] (mkWorld 2 0 0)
           (mvec [0%nat; 2%nat] 2) (mkWorld 2 3 1)).
  - apply (Abs_vec (Elem:=move_only_nat)). bounds.
  - exact I.
  - intros i Hi. cbn in Hi. injection Hi as <-. reflexivity.
  - intros n Hn. discriminate Hn.
  - reflexivity.
Defined.

Lemma X16_witness :
  let cmds := [Push (Elem:=copyable_nat) false 0%nat;
               Push (Elem:=copyable_nat) false 1%nat;
               Push (Elem:=copyable_nat) true 2%nat] in
  let v := cvec [0%nat; 1%nat; 2%nat] 4 in
  run (Sched:=calm) cmds Vector_default world0 = Normal v (mkWorld 3 6 3) /\
  Size v = pushes cmds /\
  Size v <= Capacity v < 2 * Size v /\
  (exists k : nat, Capacity v = 2 ^ Z.of_nat k /\
                   news (mkWorld 3 6 3) = (news world0 + k + 1)%nat) /\
  Z.of_nat (ops (mkWorld 3 6 3))
  = Z.of_nat (ops world0) + Size v + Capacity v - 1 /\
  Z.of_nat (ops (mkWorld 3 6 3)) < Z.of_nat (ops world0) + 3 * Size v.
Proof.
  split; [reflexivity|].
  apply (X16_doubling_growth (Sched:=calm)
           [Push (Elem:=copyable_nat) false 0%nat;
            Push (Elem:=copyable_nat) false 1%nat;
            Push (Elem:=copyable_nat) true 2%nat]
           world0 (cvec [0%nat; 1%nat; 2%nat] 4) (mkWorld 3 6 3)).
  - reflexivity.
  - discriminate.
  - reflexivity.
Defined.

Lemma X17_witness :
  let cmds := [Push (Elem:=copyable_nat) false 8%nat;
               Push (Elem:=copyable_nat) true 9%nat] in
  let v := cvec [1%nat] 4 in
  let v' := cvec [1%nat; 8%nat; 9%nat] 4 in
  run (Sched:=calm) cmds v (mkWorld 1 0 0) = Normal v' (mkWorld 3 2 0) /\
  Capacity v' = Capacity v /\
  news (mkWorld 3 2 0) = news (mkWorld 1 0 0) /\
  Z.of_nat (ops (mkWorld 3 2 0)) = Z.of_nat (ops (mkWorld 1 0 0)) + pushes cmds /\
  Size v' = Size v + pushes cmds /\
  forall j, 0 <= j < Size v -> at_index v' j = at_index v j.
Proof.
  split; [reflexivity|].
  apply (X17_appending_within_capacity (Sched:=calm)
           [Push (Elem:=copyable_nat) false 8%nat;
            Push (Elem:=copyable_nat) true 9%nat]
           (cvec [1%nat] 4) [1%nat] (mkWorld 1 0 0)
           (cvec [1%nat; 8%nat; 9%nat] 4) (mkWorld 3 2 0)).
  - apply Abs_cvec. bounds.
  - reflexivity.
  - cbn. lia.
  - reflexivity.
Defined.
